(** * a_vision: photo catalog, detection aggregation and face matching

    A shallow embedding of the persistence, aggregation, matching and
    ingestion code of [a_vision/database.py], [a_vision/face_processor.py]
    and [a_vision/yolo_processor.py], with the properties of the
    specification stated over it.

    Conventions of the embedding:
    - Python [float] values (confidences, distances) are rationals ([Q]).
      The sum and the quotient behind a stored average are rounded after
      every operation by the [fl] of the [World]; a difference [1 - d] and
      a comparison are exact.
    - Python [str] is [string]; case mapping and whitespace are the ASCII ones.
    - A function that can raise returns a [result]; [except Exception]
      handlers are written out where the source has them.
    - The MySQL catalog is a record of tables, each a list of rows in
      insertion order, with the collation of its text columns and the
      rounding of its [DECIMAL(5,4)] columns; a method that ends in
      [commit] returns the new catalog, one that ends in [rollback] returns
      the catalog it was given. A foreign key and a unique key that the
      rows violate make the statement raise.
    - The collaborators ([glob], Pillow, the YOLO model, the
      [face_recognition] engine, the failures of the MySQL server, the
      clock and the float unit) are the fields of a [World]. *)

From Stdlib Require Import String Ascii List Bool Arith Lia ZArith QArith.
From Stdlib Require Import Qround Lqa ListDec.
From Stdlib Require Import Sorting.Sorted Sorting.Permutation.
Import ListNotations.

Set Warnings "-abstract-large-number".

Local Close Scope Q_scope.
Local Open Scope string_scope.
Local Open Scope list_scope.
Local Open Scope nat_scope.

(** ** Exceptions *)

(** The message of a raised [Exception] ([str(e)]). *)
Definition exn := string.

Inductive result (A : Type) : Type :=
| Ok (a : A)
| Raise (e : exn).
Arguments Ok {A} a.
Arguments Raise {A} e.

Definition bind {A B} (r : result A) (f : A -> result B) : result B :=
  match r with
  | Ok a => f a
  | Raise e => Raise e
  end.

Notation "'let*' x ':=' r 'in' k" := (bind r (fun x => k))
  (at level 10, x name, r at level 100, k at level 200).

(** ** Python string operations *)

Module Py.

(** [str.isspace] on ASCII: tab..carriage return, the four separators
    0x1c..0x1f, and the space. *)
Definition is_space (c : ascii) : bool :=
  let n := nat_of_ascii c in
  ((9 <=? n) && (n <=? 13)) || ((28 <=? n) && (n <=? 32)).

Definition is_empty (s : string) : bool :=
  match s with EmptyString => true | String _ _ => false end.

Fixpoint lstrip (s : string) : string :=
  match s with
  | EmptyString => EmptyString
  | String c r => if is_space c then lstrip r else s
  end.

Fixpoint rstrip (s : string) : string :=
  match s with
  | EmptyString => EmptyString
  | String c r =>
      let r' := rstrip r in
      if is_space c && is_empty r' then EmptyString else String c r'
  end.

(** [s.strip()] *)
Definition strip (s : string) : string := rstrip (lstrip s).

(** [s.startswith(p)] *)
Definition startswith (s p : string) : bool := String.prefix p s.

(** [sub in s] *)
Fixpoint contains (sub s : string) : bool :=
  String.prefix sub s ||
  match s with
  | EmptyString => false
  | String _ r => contains sub r
  end.

(** [s.endswith(suf)] *)
Fixpoint endswith (s suf : string) : bool :=
  String.eqb s suf ||
  match s with
  | EmptyString => false
  | String _ r => endswith r suf
  end.

(** [s.split(sep)] for a one-character separator. *)
Fixpoint split (sep : ascii) (s : string) : list string :=
  match s with
  | EmptyString => [EmptyString]
  | String c r =>
      if Ascii.eqb c sep then EmptyString :: split sep r
      else match split sep r with
           | [] => [String c EmptyString]
           | h :: t => String c h :: t
           end
  end.

Definition upper_char (c : ascii) : ascii :=
  let n := nat_of_ascii c in
  if (97 <=? n) && (n <=? 122) then ascii_of_nat (n - 32) else c.

Definition lower_char (c : ascii) : ascii :=
  let n := nat_of_ascii c in
  if (65 <=? n) && (n <=? 90) then ascii_of_nat (n + 32) else c.

Fixpoint map_chars (f : ascii -> ascii) (s : string) : string :=
  match s with
  | EmptyString => EmptyString
  | String c r => String (f c) (map_chars f r)
  end.

(** [s.upper()] and [s.lower()] *)
Definition upper (s : string) : string := map_chars upper_char s.
Definition lower (s : string) : string := map_chars lower_char s.

(** [x in l] for a list of strings. *)
Definition in_list (x : string) (l : list string) : bool :=
  existsb (String.eqb x) l.

(** [os.path.basename(p)] *)
Definition basename (p : string) : string := last (split "/" p) EmptyString.

(** [l[i]] *)
Definition index {A} (l : list A) (i : nat) : result A :=
  match nth_error l i with
  | Some a => Ok a
  | None => Raise "IndexError"
  end.

(** [sum(l)] on floats: one rounded addition per item, from 0. *)
Definition sum (fl : Q -> Q) (l : list Q) : Q :=
  fold_left (fun acc x => fl (acc + x)%Q) l 0%Q.

(** [x > y] on numbers. *)
Definition gt (x y : Q) : bool := negb (Qle_bool x y).

(** [max(l)]: the first of the largest items. *)
Definition max (l : list Q) : result Q :=
  match l with
  | [] => Raise "ValueError"
  | x :: r => Ok (fold_left (fun m y => if gt y m then y else m) r x)
  end.

(** [x / len(l)] on floats *)
Definition div_len {A} (fl : Q -> Q) (x : Q) (l : list A) : result Q :=
  match l with
  | [] => Raise "ZeroDivisionError"
  | _ => Ok (fl (x / inject_Z (Z.of_nat (length l)))%Q)
  end.

End Py.

(** ** [datetime.strptime(s, '%Y:%m:%d %H:%M:%S')] and [isoformat]

    The standard library's parser, written as the regular expression that
    [_strptime] compiles the format to, matched with backtracking in the
    order of its alternatives; the match has to consume the whole string and
    the fields have to form a valid [datetime]. *)

Module Strptime.

Record datetime := mkdatetime {
  year : nat; month : nat; day : nat;
  hour : nat; minute : nat; second : nat
}.

(** A parser gives its matches in the order the regex engine tries them. *)
Definition parser (A : Type) := string -> list (A * string).

Definition pret {A} (a : A) : parser A := fun s => [(a, s)].

Definition pbind {A B} (p : parser A) (f : A -> parser B) : parser B :=
  fun s => flat_map (fun ar => f (fst ar) (snd ar)) (p s).

Definition palt {A} (p q : parser A) : parser A := fun s => p s ++ q s.

Notation "x <- p ;; q" := (pbind p (fun x => q))
  (at level 61, p at next level, right associativity).
Notation "p <|> q" := (palt p q) (at level 60, right associativity).

(** One character in the class [lo-hi], as its digit value. *)
Definition range (lo hi : nat) : parser nat :=
  fun s =>
    match s with
    | EmptyString => []
    | String c r =>
        let n := nat_of_ascii c - 48 in
        if (48 <=? nat_of_ascii c) && (lo <=? n) && (n <=? hi)
        then [(n, r)] else []
    end.

(** [\d] *)
Definition digit : parser nat := range 0 9.

Definition lit (a : ascii) : parser unit :=
  fun s =>
    match s with
    | EmptyString => []
    | String c r => if Ascii.eqb c a then [(tt, r)] else []
    end.

(** [\s+], greedy: the longest run first. *)
Fixpoint spaces1 (s : string) : list (unit * string) :=
  match s with
  | EmptyString => []
  | String c r => if Py.is_space c then spaces1 r ++ [(tt, r)] else []
  end.

Definition two (p q : parser nat) : parser nat :=
  a <- p ;; b <- q ;; pret (10 * a + b).

(** [%Y]: [\d\d\d\d] *)
Definition re_Y : parser nat :=
  a <- digit ;; b <- digit ;; c <- digit ;; d <- digit ;;
  pret (1000 * a + 100 * b + 10 * c + d).

(** [%m]: [1[0-2]|0[1-9]|[1-9]] *)
Definition re_m : parser nat :=
  two (range 1 1) (range 0 2) <|> two (range 0 0) (range 1 9) <|> range 1 9.

(** [%d]: [3[0-1]|[1-2]\d|0[1-9]|[1-9]| [1-9]] *)
Definition re_d : parser nat :=
  two (range 3 3) (range 0 1) <|> two (range 1 2) digit <|>
  two (range 0 0) (range 1 9) <|> range 1 9 <|>
  (_ <- lit " " ;; range 1 9).

(** [%H]: [2[0-3]|[0-1]\d|\d] *)
Definition re_H : parser nat :=
  two (range 2 2) (range 0 3) <|> two (range 0 1) digit <|> digit.

(** [%M]: [[0-5]\d|\d] *)
Definition re_M : parser nat := two (range 0 5) digit <|> digit.

(** [%S]: [6[0-1]|[0-5]\d|\d] *)
Definition re_S : parser nat :=
  two (range 6 6) (range 0 1) <|> two (range 0 5) digit <|> digit.

(** The regex of ['%Y:%m:%d %H:%M:%S']. *)
Definition format_regex : parser datetime :=
  y <- re_Y ;; _ <- lit ":" ;; m <- re_m ;; _ <- lit ":" ;; d <- re_d ;;
  _ <- spaces1 ;;
  H <- re_H ;; _ <- lit ":" ;; M <- re_M ;; _ <- lit ":" ;; S <- re_S ;;
  pret (mkdatetime y m d H M S).

Definition is_leap (y : nat) : bool :=
  (y mod 4 =? 0) && (negb (y mod 100 =? 0) || (y mod 400 =? 0)).

Definition days_in_month (y m : nat) : nat :=
  match m with
  | 2 => if is_leap y then 29 else 28
  | 4 | 6 | 9 | 11 => 30
  | _ => 31
  end.

(** The range checks of the [datetime] constructor. *)
Definition valid (t : datetime) : bool :=
  (1 <=? year t) && (year t <=? 9999) &&
  (1 <=? month t) && (month t <=? 12) &&
  (1 <=? day t) && (day t <=? days_in_month (year t) (month t)) &&
  (hour t <=? 23) && (minute t <=? 59) && (second t <=? 59).

(** [None] stands for [ValueError]. *)
Definition strptime (s : string) : option datetime :=
  match format_regex s with
  | [] => None
  | (t, rest) :: _ =>
      if Py.is_empty rest then (if valid t then Some t else None) else None
  end.

Fixpoint lex_leb (a b : list nat) : bool :=
  match a, b with
  | [], _ => true
  | _ :: _, [] => false
  | x :: a', y :: b' =>
      if x <? y then true else if y <? x then false else lex_leb a' b'
  end.

Definition fields (t : datetime) : list nat :=
  [year t; month t; day t; hour t; minute t; second t].

(** [a <= b] on [datetime] values. *)
Definition le (a b : datetime) : bool := lex_leb (fields a) (fields b).

Definition digit_char (n : nat) : ascii := ascii_of_nat (48 + n mod 10).

Definition pad2 (n : nat) : string :=
  String (digit_char (n / 10)) (String (digit_char n) EmptyString).

Definition pad4 (n : nat) : string :=
  String (digit_char (n / 1000)) (String (digit_char (n / 100))
    (String (digit_char (n / 10)) (String (digit_char n) EmptyString))).

(** [t.isoformat()] for a value without microseconds. *)
Definition isoformat (t : datetime) : string :=
  String.concat ""
    [pad4 (year t); "-"; pad2 (month t); "-"; pad2 (day t); "T";
     pad2 (hour t); ":"; pad2 (minute t); ":"; pad2 (second t)].

End Strptime.

(** ** [PhotoDatabase._validate_and_parse_datetime] *)

Definition _validate_and_parse_datetime (date_time_str : string)
  : option string :=
  if Py.is_empty date_time_str then None else
  let date_time_str := Py.strip date_time_str in
  if Py.is_empty date_time_str
     || Py.in_list date_time_str ["0000:00:00 00:00:00"; "0000:00:00"; ""]
  then None else
  let zeroed :=
    if Py.contains "0000" date_time_str
       || Py.contains ":00:00:00" date_time_str
    then
      match Py.split " " date_time_str with
      | date_part :: time_part :: _ =>
          Py.startswith date_part "0000" || String.eqb time_part "00:00:00"
      | _ => false
      end
    else false in
  if zeroed then None else
  match Strptime.strptime date_time_str with
  | Some parsed_date =>
      let min_date := Strptime.mkdatetime 1900 1 1 0 0 0 in
      let max_date := Strptime.mkdatetime 2100 12 31 0 0 0 in
      if Strptime.le min_date parsed_date && Strptime.le parsed_date max_date
      then Some (Strptime.isoformat parsed_date)
      else None
  | None => None
  end.

(** ** Python dictionaries with string keys, in insertion order *)

Module Dict.

Definition t (V : Type) := list (string * V).

Fixpoint get {V} (k : string) (d : t V) : option V :=
  match d with
  | [] => None
  | (k', v) :: r => if String.eqb k' k then Some v else get k r
  end.

(** [k in d] *)
Definition mem {V} (k : string) (d : t V) : bool :=
  match get k d with Some _ => true | None => false end.

(** [d[k]] *)
Definition getitem {V} (k : string) (d : t V) : result V :=
  match get k d with
  | Some v => Ok v
  | None => Raise "KeyError"
  end.

(** [d[k] = v]: a present key keeps its place, a new one goes last. *)
Fixpoint set {V} (k : string) (v : V) (d : t V) : t V :=
  match d with
  | [] => [(k, v)]
  | (k', v') :: r =>
      if String.eqb k' k then (k', v) :: r else (k', v') :: set k v r
  end.

Definition keys {V} (d : t V) : list string := map fst d.

End Dict.

(** ** The catalog *)

(** One YOLO detection: the dictionary built in [process_single_image]. *)
Record Detection := mkDetection {
  class_name : string;
  class_id : Z;
  confidence : Q
}.

(** A face encoding (the 128 numbers of [face_recognition]); pickling is
    the identity. *)
Definition Encoding := list Q.

(** (top, right, bottom, left) *)
Definition Location := (Z * Z * Z * Z)%type.

(** One face: the dictionary built in [detect_faces_in_image]. *)
Record FaceDetection := mkFaceDetection {
  face_encoding : Encoding;
  location_top : Z;
  location_right : Z;
  location_bottom : Z;
  location_left : Z;
  face_confidence : Q;
  recognized_name : option string;
  recognized_confidence : option Q
}.

(** What [add_photo] reads from the file: [os.path.getsize] and Pillow. *)
Record FileMeta := mkFileMeta {
  file_size : Z;
  width : Z;
  height : Z;
  format_name : string
}.

(** The dictionary [extract_exif_data] returns for an image that has tags. *)
Record ExifFields := mkExifFields {
  camera_make : option string;
  camera_model : option string;
  date_time_original : option string;
  exposure_time : option Q;
  f_number : option Q;
  iso_speed : option Z;
  focal_length : option Q;
  gps_latitude : option Q;
  gps_longitude : option Q;
  gps_altitude : option Q;
  software : option string
}.

(** Rows of the tables of [create_tables]; the surrogate [id] and defaulted
    columns of the dependent tables are left out. *)
Record PhotoRow := mkPhotoRow {
  ph_id : nat;
  ph_file_path : string;
  ph_file_name : string;
  ph_meta : FileMeta;
  ph_created_at : nat;
  ph_processed_at : option nat;
  ph_yolo_model_used : string
}.

Record ExifRow := mkExifRow {
  ex_photo_id : nat;
  ex_fields : ExifFields
}.

Record ObjectDetectionRow := mkObjectDetectionRow {
  od_photo_id : nat;
  od_detection : Detection
}.

Record ObjectSummaryRow := mkObjectSummaryRow {
  os_photo_id : nat;
  os_class_name : string;
  os_class_id : Z;
  os_total_count : nat;
  os_avg_confidence : Q;
  os_max_confidence : Q
}.

Record FaceDetectionRow := mkFaceDetectionRow {
  fd_photo_id : nat;
  fd_face : FaceDetection
}.

Record FaceSummaryRow := mkFaceSummaryRow {
  fs_photo_id : nat;
  fs_total_faces : nat;
  fs_recognized_faces : nat;
  fs_unrecognized_faces : nat
}.

(** What the server does with the values of the columns. Every table is
    created with [COLLATE utf8mb4_unicode_ci]: the values of a text column
    are compared, grouped and kept unique by their collation key, not by
    their characters. A [DECIMAL(5,4)] column holds four decimals: a
    number stored in it is rounded. *)
Record Schema := mkSchema {
  collation : string -> string;
  decimal_5_4 : Q -> Q
}.

Record Db := mkDb {
  photos : list PhotoRow;
  exif_data : list ExifRow;
  object_detections : list ObjectDetectionRow;
  object_summary : list ObjectSummaryRow;
  face_detections : list FaceDetectionRow;
  face_summary : list FaceSummaryRow;
  (** the AUTO_INCREMENT counter of [photos] *)
  next_photo_id : nat;
  schema : Schema
}.

(** [a = b] on a text column. *)
Definition sql_eqb (db : Db) (a b : string) : bool :=
  String.eqb (collation (schema db) a) (collation (schema db) b).

(** The server of the sample runs. *)
Module Server.

(** The key of [utf8mb4_unicode_ci] on printable ASCII text: the letters
    without their case and the text without its trailing spaces (the
    collation pads with spaces). *)
Definition fold_case (c : ascii) : ascii :=
  let n := nat_of_ascii c in
  if (65 <=? n) && (n <=? 90) then ascii_of_nat (n + 32) else c.

Fixpoint unicode_ci (s : string) : string :=
  match s with
  | EmptyString => EmptyString
  | String c r =>
      let r' := unicode_ci r in
      if Ascii.eqb c " " && Py.is_empty r' then EmptyString
      else String (fold_case c) r'
  end.

(** Rounding to four decimals, a half away from zero. *)
Definition round_4 (x : Q) : Q :=
  if Qle_bool 0 x
  then Qmake (Qfloor (x * 10000 + (1 # 2))) 10000
  else Qmake (- Qfloor (- x * 10000 + (1 # 2))) 10000.

Definition mysql : Schema := mkSchema unicode_ci round_4.

End Server.

Definition empty_db : Db := mkDb [] [] [] [] [] [] 1 Server.mysql.

(** The methods of the catalog that talk to the server. *)
Inductive DbOp :=
| OpAddPhoto (file_path : string)
| OpAddObjectDetections (photo_id : nat)
| OpAddFaceDetections (photo_id : nat)
| OpIsProcessed (file_path : string).

(** ** The collaborators *)

Record World := mkWorld {
  (** [os.path.getsize] and [Image.open]; raises for an unreadable file *)
  read_image : string -> result FileMeta;
  (** [extract_exif_data]: [None] is the empty dictionary it returns for an
      image without tags or after a failure *)
  extract_exif_data : string -> option ExifFields;
  (** [self.model(image_path, conf=...)] with the box loop after it *)
  yolo : string -> Q -> result (list Detection);
  (** [load_image_file] followed by [face_locations] *)
  face_locations : string -> result (list Location);
  (** [face_encodings(image, face_locations)] *)
  face_encodings : string -> list Location -> result (list Encoding);
  (** the distance of [face_recognition.face_distance], pair by pair *)
  distance : Encoding -> Encoding -> Q;
  (** the error with which the server fails a method's statements for a
      reason the rows do not show (a lost connection, a value a column
      cannot hold), if it does *)
  db_error : DbOp -> option exn;
  (** [datetime.now()] and CURRENT_TIMESTAMP *)
  now : nat;
  (** [glob.glob(os.path.join(directory_path, pattern), recursive=True)],
      given the directory and the pattern joined to it *)
  glob : string -> string -> list string;
  (** the float a float operation gives for its exact result *)
  fl : Q -> Q
}.

Definition server (w : World) (op : DbOp) : result unit :=
  match db_error w op with
  | Some e => Raise e
  | None => Ok tt
  end.

(** A transaction: the new catalog after [commit], the old one after
    [rollback], and the value or the exception re-raised. *)
Definition transaction {A} (db : Db) (body : result (A * Db))
  : result A * Db :=
  match body with
  | Ok (a, db') => (Ok a, db')
  | Raise e => (Raise e, db)
  end.

(** ** [PhotoDatabase.add_photo] *)

(** [SELECT ... FROM photos WHERE file_path = %s] with [fetchone]. *)
Definition find_photo (file_path : string) (db : Db) : option PhotoRow :=
  find (fun r => sql_eqb db (ph_file_path r) file_path) (photos db).

(** [UPDATE photos SET ... WHERE file_path = %s] on one row: the path
    keeps the spelling it was inserted with. *)
Definition update_photo (db : Db) (file_path file_name : string)
  (m : FileMeta) (yolo_model : string) (r : PhotoRow) : PhotoRow :=
  if sql_eqb db (ph_file_path r) file_path
  then mkPhotoRow (ph_id r) (ph_file_path r) file_name m (ph_created_at r)
         (ph_processed_at r) yolo_model
  else r.

Definition add_photo (w : World) (db : Db) (file_path yolo_model : string)
  : result nat * Db :=
  transaction db (
    let* m := read_image w file_path in
    let file_name := Py.basename file_path in
    let* _ := server w (OpAddPhoto file_path) in
    let '(photo_id, photos', next') :=
      match find_photo file_path db with
      | Some existing =>
          (ph_id existing,
           map (update_photo db file_path file_name m yolo_model)
             (photos db),
           next_photo_id db)
      | None =>
          (next_photo_id db,
           photos db ++ [mkPhotoRow (next_photo_id db) file_path file_name m
                           (now w) None yolo_model],
           S (next_photo_id db))
      end in
    let exif' :=
      match extract_exif_data w file_path with
      | Some fields =>
          filter (fun r => negb (ex_photo_id r =? photo_id)) (exif_data db)
          ++ [mkExifRow photo_id fields]
      | None => exif_data db
      end in
    Ok (photo_id,
        mkDb photos' exif' (object_detections db) (object_summary db)
          (face_detections db) (face_summary db) next' (schema db))).

(** ** [PhotoDatabase.add_object_detections] *)

(** The first loop: counts and confidences by class. *)
Fixpoint group_detections (detections : list Detection)
  (class_counts : Dict.t nat) (class_confidences : Dict.t (list Q))
  : result (Dict.t nat * Dict.t (list Q)) :=
  match detections with
  | [] => Ok (class_counts, class_confidences)
  | detection :: rest =>
      let c := class_name detection in
      let '(class_counts, class_confidences) :=
        if negb (Dict.mem c class_counts)
        then (Dict.set c 0 class_counts, Dict.set c [] class_confidences)
        else (class_counts, class_confidences) in
      let* n := Dict.getitem c class_counts in
      let class_counts := Dict.set c (n + 1) class_counts in
      let* l := Dict.getitem c class_confidences in
      let class_confidences :=
        Dict.set c (l ++ [confidence detection]) class_confidences in
      group_detections rest class_counts class_confidences
  end.

(** [next(d['class_id'] for d in detections if d['class_name'] == c)] *)
Definition first_class_id (detections : list Detection) (c : string)
  : result Z :=
  match find (fun d => String.eqb (class_name d) c) detections with
  | Some d => Ok (class_id d)
  | None => Raise "StopIteration"
  end.

(** A row of [photos] with the id: what the foreign key of the dependent
    tables asks for. *)
Definition photo_exists (db : Db) (photo_id : nat) : bool :=
  existsb (fun r => ph_id r =? photo_id) (photos db).

Definition foreign_key (db : Db) (photo_id : nat) : result unit :=
  if photo_exists db photo_id then Ok tt
  else Raise "Cannot add or update a child row: a foreign key constraint fails".

(** An event as [object_detections] holds it: the confidence goes into a
    [DECIMAL(5,4)] column. *)
Definition stored_detection (db : Db) (d : Detection) : Detection :=
  mkDetection (class_name d) (class_id d)
    (decimal_5_4 (schema db) (confidence d)).

(** [INSERT INTO object_summary]: the key [unique_photo_class] rejects a
    second row of the photo with the class name, as the collation compares
    it. *)
Definition insert_summary (db : Db) (table : list ObjectSummaryRow)
  (photo_id : nat) (c : string) (cid : Z) (count : nat)
  (avg_confidence max_confidence : Q) : result (list ObjectSummaryRow) :=
  if existsb
       (fun r => (os_photo_id r =? photo_id) && sql_eqb db (os_class_name r) c)
       table
  then Raise "Duplicate entry for key 'unique_photo_class'"
  else Ok (table
           ++ [mkObjectSummaryRow photo_id c cid count
                 (decimal_5_4 (schema db) avg_confidence)
                 (decimal_5_4 (schema db) max_confidence)]).

(** The summary loop, one turn per item of [class_counts], over the table
    as the turns before left it. *)
Fixpoint summary_rows (w : World) (db : Db) (photo_id : nat)
  (detections : list Detection) (items : list (string * nat))
  (class_confidences : Dict.t (list Q)) (table : list ObjectSummaryRow)
  : result (list ObjectSummaryRow) :=
  match items with
  | [] => Ok table
  | (c, count) :: rest =>
      let* confidences := Dict.getitem c class_confidences in
      let* avg_confidence :=
        Py.div_len (fl w) (Py.sum (fl w) confidences) confidences in
      let* max_confidence := Py.max confidences in
      let* cid := first_class_id detections c in
      let* table :=
        insert_summary db table photo_id c cid count avg_confidence
          max_confidence in
      summary_rows w db photo_id detections rest class_confidences table
  end.

Definition set_processed_at (photo_id t : nat) (r : PhotoRow) : PhotoRow :=
  if ph_id r =? photo_id
  then mkPhotoRow (ph_id r) (ph_file_path r) (ph_file_name r) (ph_meta r)
         (ph_created_at r) (Some t) (ph_yolo_model_used r)
  else r.

Definition add_object_detections (w : World) (db : Db) (photo_id : nat)
  (detections : list Detection) : result unit * Db :=
  transaction db (
    let* grouped := group_detections detections [] [] in
    let class_counts := fst grouped in
    let class_confidences := snd grouped in
    let* _ := server w (OpAddObjectDetections photo_id) in
    let* _ :=
      match detections with
      | [] => Ok tt
      | _ :: _ => foreign_key db photo_id
      end in
    let detections' :=
      filter (fun r => negb (od_photo_id r =? photo_id))
        (object_detections db)
      ++ map (fun d => mkObjectDetectionRow photo_id (stored_detection db d))
           detections in
    let* summary' :=
      summary_rows w db photo_id detections class_counts class_confidences
        (filter (fun r => negb (os_photo_id r =? photo_id))
           (object_summary db)) in
    Ok (tt,
        mkDb (map (set_processed_at photo_id (now w)) (photos db))
          (exif_data db) detections' summary'
          (face_detections db) (face_summary db) (next_photo_id db)
          (schema db))).

(** ** [PhotoDatabase.add_face_detections] *)

(** [d.get('recognized_name')] as a condition: a name that is not empty. *)
Definition has_recognized_name (d : FaceDetection) : bool :=
  match recognized_name d with
  | Some n => negb (Py.is_empty n)
  | None => false
  end.

(** A face as [face_detections] holds it: both confidences go into
    [DECIMAL(5,4)] columns. *)
Definition stored_face (db : Db) (d : FaceDetection) : FaceDetection :=
  mkFaceDetection (face_encoding d) (location_top d) (location_right d)
    (location_bottom d) (location_left d)
    (decimal_5_4 (schema db) (face_confidence d))
    (recognized_name d)
    (option_map (decimal_5_4 (schema db)) (recognized_confidence d)).

Definition add_face_detections (w : World) (db : Db) (photo_id : nat)
  (faces : list FaceDetection) : result unit * Db :=
  transaction db (
    let* _ := server w (OpAddFaceDetections photo_id) in
    let total_faces := length faces in
    let recognized_faces := length (filter has_recognized_name faces) in
    let unrecognized_faces := total_faces - recognized_faces in
    let* _ := foreign_key db photo_id in
    let faces' :=
      filter (fun r => negb (fd_photo_id r =? photo_id)) (face_detections db)
      ++ map (fun d => mkFaceDetectionRow photo_id (stored_face db d)) faces in
    let summary' :=
      filter (fun r => negb (fs_photo_id r =? photo_id)) (face_summary db)
      ++ [mkFaceSummaryRow photo_id total_faces recognized_faces
            unrecognized_faces] in
    Ok (tt,
        mkDb (photos db) (exif_data db) (object_detections db)
          (object_summary db) faces' summary' (next_photo_id db)
          (schema db))).

(** ** [FaceProcessor] *)

Record FaceProcessor := mkFaceProcessor {
  tolerance : Q;
  known_face_encodings : list Encoding;
  known_face_names : list string
}.

(** A known face: the dictionary of [load_known_faces_from_folder] and the
    row of [get_known_faces]. *)
Record KnownFace := mkKnownFace {
  kf_name : string;
  kf_face_encoding : Encoding;
  kf_image_path : string
}.

(** [set_known_faces]: both lists are emptied and refilled side by side. *)
Definition set_known_faces (fp : FaceProcessor) (known_faces : list KnownFace)
  : FaceProcessor :=
  fold_left
    (fun fp face_data =>
       mkFaceProcessor (tolerance fp)
         (known_face_encodings fp ++ [kf_face_encoding face_data])
         (known_face_names fp ++ [kf_name face_data]))
    known_faces
    (mkFaceProcessor (tolerance fp) [] []).

(** [face_recognition.face_distance(known, e)]: one distance per entry. *)
Definition face_distance (w : World) (known : list Encoding) (e : Encoding)
  : list Q :=
  map (fun k => distance w k e) known.

(** [face_recognition.compare_faces(known, e, tolerance)]:
    [list(face_distance(known, e) <= tolerance)]. *)
Definition compare_faces (w : World) (known : list Encoding) (e : Encoding)
  (tol : Q) : list bool :=
  map (fun d => Qle_bool d tol) (face_distance w known e).

(** The index of the first smallest item, scanning from [i] with the best
    so far at [best]. *)
Fixpoint argmin_from (l : list Q) (i best : nat) (m : Q) : nat :=
  match l with
  | [] => best
  | x :: r =>
      if Py.gt m x then argmin_from r (S i) i x
      else argmin_from r (S i) best m
  end.

(** [np.argmin(l)] *)
Definition argmin (l : list Q) : result nat :=
  match l with
  | [] => Raise "ValueError"
  | x :: r => Ok (argmin_from r 1 0 x)
  end.

(** The recognition of one face, the body of the loop of
    [detect_faces_in_image] up to [recognized_confidence]. *)
Definition recognize (w : World) (fp : FaceProcessor)
  (face_encoding : Encoding) : result (option string * option Q) :=
  match known_face_encodings fp with
  | [] => Ok (None, None)
  | _ :: _ =>
      let matches :=
        compare_faces w (known_face_encodings fp) face_encoding
          (tolerance fp) in
      if existsb (fun b => b) matches then
        let face_distances :=
          face_distance w (known_face_encodings fp) face_encoding in
        let* best_match_index := argmin face_distances in
        let* hit := Py.index matches best_match_index in
        if hit : bool then
          let* name := Py.index (known_face_names fp) best_match_index in
          let* d := Py.index face_distances best_match_index in
          Ok (Some name, Some (1 - d)%Q)
        else Ok (None, None)
      else Ok (None, None)
  end.

Fixpoint recognize_all (w : World) (fp : FaceProcessor)
  (faces : list (Location * Encoding)) : result (list FaceDetection) :=
  match faces with
  | [] => Ok []
  | (face_location, face_encoding) :: rest =>
      let* r := recognize w fp face_encoding in
      let '(top, right_, bottom, left_) := face_location in
      let face_detection :=
        mkFaceDetection face_encoding top right_ bottom left_ 1%Q
          (fst r) (snd r) in
      let* face_detections := recognize_all w fp rest in
      Ok (face_detection :: face_detections)
  end.

(** [detect_faces_in_image]: the [except Exception] returns the empty
    list. *)
Definition detect_faces_in_image (w : World) (fp : FaceProcessor)
  (image_path : string) : list FaceDetection :=
  let body :=
    let* locations := face_locations w image_path in
    match locations with
    | [] => Ok []
    | _ :: _ =>
        let* encodings := face_encodings w image_path locations in
        recognize_all w fp (combine locations encodings)
    end in
  match body with
  | Ok face_detections => face_detections
  | Raise _ => []
  end.

(** ** [YOLOProcessor] *)

Record YOLOProcessor := mkYOLOProcessor {
  model_name : string;
  face_processor : FaceProcessor
}.

(** The calls, in order, that reach single-file processing and the
    collaborators behind it. *)
Inductive Call :=
| CallProcessSingleImage (image_path : string)
| CallYolo (image_path : string)
| CallFaceEngine (image_path : string).

Definition call_path (c : Call) : string :=
  match c with
  | CallProcessSingleImage p | CallYolo p | CallFaceEngine p => p
  end.

(** The catalog behind [self.db] and the calls made so far. *)
Record State := mkState {
  catalog : Db;
  calls : list Call
}.

(** The dictionary [process_single_image] returns. *)
Record ImageResult := mkImageResult {
  ir_photo_id : nat;
  ir_file_path : string;
  ir_detections_count : nat;
  ir_face_detections_count : nat;
  ir_detections : list Detection;
  ir_face_detections : list FaceDetection
}.

Definition logged (c : Call) (st : State) : State :=
  mkState (catalog st) (calls st ++ [c]).

Definition with_catalog (db : Db) (st : State) : State :=
  mkState db (calls st).

(** [if items: store(items)]: nothing is stored for an empty list. *)
Definition store_if_any {A} (items : list A)
  (store : list A -> result unit * Db) (db : Db) : result unit * Db :=
  match items with
  | [] => (Ok tt, db)
  | _ :: _ => store items
  end.

(** [process_single_image]: the handler logs and re-raises, so an exception
    leaves with the state reached so far. *)
Definition process_single_image (w : World) (self : YOLOProcessor)
  (st : State) (image_path : string) (confidence_threshold : Q)
  : result ImageResult * State :=
  let st := logged (CallProcessSingleImage image_path) st in
  match add_photo w (catalog st) image_path (model_name self) with
  | (Raise e, db) => (Raise e, with_catalog db st)
  | (Ok photo_id, db) =>
      let st := logged (CallYolo image_path) (with_catalog db st) in
      match yolo w image_path confidence_threshold with
      | Raise e => (Raise e, st)
      | Ok detections =>
          match store_if_any detections
                  (add_object_detections w (catalog st) photo_id)
                  (catalog st) with
          | (Raise e, db) => (Raise e, with_catalog db st)
          | (Ok _, db) =>
              let st :=
                logged (CallFaceEngine image_path) (with_catalog db st) in
              let face_detections :=
                detect_faces_in_image w (face_processor self) image_path in
              match store_if_any face_detections
                      (add_face_detections w (catalog st) photo_id)
                      (catalog st) with
              | (Raise e, db) => (Raise e, with_catalog db st)
              | (Ok _, db) =>
                  (Ok (mkImageResult photo_id image_path
                         (length detections) (length face_detections)
                         detections face_detections),
                   with_catalog db st)
              end
          end
      end
  end.

(** [_is_image_already_processed]: a failed query counts as "not
    processed". *)
Definition _is_image_already_processed (w : World) (db : Db)
  (image_path : string) : bool :=
  match server w (OpIsProcessed image_path) with
  | Raise _ => false
  | Ok _ =>
      match find_photo image_path db with
      | Some row =>
          match ph_processed_at row with
          | Some _ => true
          | None => false
          end
      | None => false
      end
  end.

(** An entry of the list [process_directory] returns. *)
Inductive FileResult :=
| Processed (r : ImageResult)
| Skipped (file_path : string)
| Failed (file_path : string) (error : string).

Definition status (r : FileResult) : string :=
  match r with
  | Processed _ => "processed"
  | Skipped _ => "skipped"
  | Failed _ _ => "error"
  end.

Definition result_path (r : FileResult) : string :=
  match r with
  | Processed r => ir_file_path r
  | Skipped p => p
  | Failed p _ => p
  end.

(** *** The crawl *)

(** [glob.glob(os.path.join(directory_path, f"**/*{case_ext}"),
    recursive=True)] *)
Definition glob_ext (w : World) (directory_path case_ext : string)
  : list string :=
  glob w directory_path (String.append "**/*" case_ext).

Definition default_extensions : list string :=
  [".jpg"; ".jpeg"; ".png"; ".bmp"; ".tiff"].

(** The two nested loops that fill [image_files]. *)
Definition found_files (w : World) (directory_path : string)
  (file_extensions : list string) : list string :=
  flat_map
    (fun ext =>
       flat_map (glob_ext w directory_path) [ext; Py.upper ext])
    file_extensions.

(** [list.sort()] on strings, as an insertion sort. *)
Fixpoint insert_sorted (x : string) (l : list string) : list string :=
  match l with
  | [] => [x]
  | y :: r => if String.leb x y then x :: l else y :: insert_sorted x r
  end.

Definition sort (l : list string) : list string :=
  fold_right insert_sorted [] l.

(** [file_extensions], with the default put in for [None]. *)
Definition extensions_or_default (file_extensions : option (list string))
  : list string :=
  match file_extensions with
  | Some l => l
  | None => default_extensions
  end.

(** [list(set(image_files))] followed by [sort()]. *)
Definition image_files (w : World) (directory_path : string)
  (file_extensions : option (list string)) : list string :=
  sort (nodup string_dec
          (found_files w directory_path
             (extensions_or_default file_extensions))).

(** *** The loop over the files *)

(** One turn of the loop of [process_directory]. *)
Definition process_file (w : World) (self : YOLOProcessor)
  (confidence_threshold : Q) (force_reprocess : bool) (st : State)
  (image_path : string) : FileResult * State :=
  if negb force_reprocess
     && _is_image_already_processed w (catalog st) image_path
  then (Skipped image_path, st)
  else
    match process_single_image w self st image_path confidence_threshold with
    | (Ok r, st') => (Processed r, st')
    | (Raise e, st') => (Failed image_path e, st')
    end.

Fixpoint process_files (w : World) (self : YOLOProcessor)
  (confidence_threshold : Q) (force_reprocess : bool) (st : State)
  (files : list string) : list FileResult * State :=
  match files with
  | [] => ([], st)
  | image_path :: rest =>
      let (r, st1) :=
        process_file w self confidence_threshold force_reprocess st
          image_path in
      let (rs, st2) :=
        process_files w self confidence_threshold force_reprocess st1 rest in
      (r :: rs, st2)
  end.

Definition process_directory (w : World) (self : YOLOProcessor) (st : State)
  (directory_path : string) (confidence_threshold : Q)
  (file_extensions : option (list string)) (force_reprocess : bool)
  : list FileResult * State :=
  process_files w self confidence_threshold force_reprocess st
    (image_files w directory_path file_extensions).

(** ** Notions the statements use *)

(** The events of one class, in input order. *)
Definition events_of (c : string) (detections : list Detection)
  : list Detection :=
  filter (fun d => String.eqb (class_name d) c) detections.

(** The summary rows the catalog holds for one photo. *)
Definition summary_of (photo_id : nat) (db : Db) : list ObjectSummaryRow :=
  filter (fun r => os_photo_id r =? photo_id) (object_summary db).

(** [Some (f l)] for a list with an item, [None] for the empty one. *)
Definition nonempty_map {A B} (f : list A -> B) (l : list A) : option B :=
  match l with
  | [] => None
  | _ :: _ => Some (f l)
  end.

(** What the two dictionaries of the grouping loop hold once the events
    [seen] have gone through it. *)
Definition grouped (seen : list Detection) (class_counts : Dict.t nat)
  (class_confidences : Dict.t (list Q)) : Prop :=
  Dict.keys class_counts = Dict.keys class_confidences /\
  NoDup (Dict.keys class_counts) /\
  forall c,
    Dict.get c class_counts
      = nonempty_map (@length _) (events_of c seen) /\
    Dict.get c class_confidences
      = nonempty_map (map confidence) (events_of c seen).

(** A number of items as a rational. *)
Definition Qn (n : nat) : Q := inject_Z (Z.of_nat n).

(** The sum and the arithmetic mean of a list of numbers. *)
Fixpoint total (l : list Q) : Q :=
  match l with
  | [] => 0%Q
  | x :: r => (x + total r)%Q
  end.

Definition mean (l : list Q) : Q := (total l / Qn (length l))%Q.

(** [|a - b| <= eps] *)
Definition within (eps a b : Q) : Prop :=
  (- eps <= a - b)%Q /\ (a - b <= eps)%Q.

(** The float unit is off by at most [delta] on results up to [bound] in
    size; the column is off by at most [eps] on the numbers it can hold
    (for doubles and four decimals: [bound * 2^-53] and [0.00005]). *)
Definition float_accurate (fl : Q -> Q) (bound delta : Q) : Prop :=
  forall x, (- bound <= x)%Q -> (x <= bound)%Q -> within delta (fl x) x.

Definition decimal_accurate (dec : Q -> Q) (eps : Q) : Prop :=
  forall x, (- (9) <= x)%Q -> (x <= 9)%Q -> within eps (dec x) x.

(** A confidence lies between 0 and 1. *)
Definition in_unit (q : Q) : Prop := (0 <= q)%Q /\ (q <= 1)%Q.

(** The count and the class id the specification asks of a summary row. *)
Definition row_counts (detections : list Detection)
  (row : ObjectSummaryRow) : Prop :=
  let events := events_of (os_class_name row) detections in
  os_total_count row = length events /\
  hd_error (map class_id events) = Some (os_class_id row).

(** What a summary row holds of the events it was written from: their
    number, the class id of the first, the largest confidence as the
    column rounds it, and an average that is as near the arithmetic mean
    of the confidences as the float unit and the column allow. *)
Definition row_summarises (w : World) (db : Db) (detections : list Detection)
  (row : ObjectSummaryRow) : Prop :=
  let events := events_of (os_class_name row) detections in
  let confs := map confidence events in
  row_counts detections row /\
  (exists m,
     In m confs /\ (forall q, In q confs -> (q <= m)%Q) /\
     os_max_confidence row = decimal_5_4 (schema db) m) /\
  (forall delta eps : Q,
     (0 <= delta)%Q -> (delta <= 1)%Q ->
     float_accurate (fl w) (Qn (2 * length events + 1)) delta ->
     decimal_accurate (decimal_5_4 (schema db)) eps ->
     Forall in_unit confs ->
     within (2 * delta + eps) (os_avg_confidence row) (mean confs)).

(** The catalog [add_object_detections] commits, given the rows of the
    summary loop. *)
Definition with_detections (w : World) (db : Db) (photo_id : nat)
  (detections : list Detection) (rows : list ObjectSummaryRow) : Db :=
  mkDb (map (set_processed_at photo_id (now w)) (photos db))
    (exif_data db)
    (filter (fun r => negb (od_photo_id r =? photo_id)) (object_detections db)
     ++ map (fun d => mkObjectDetectionRow photo_id (stored_detection db d))
          detections)
    (filter (fun r => negb (os_photo_id r =? photo_id)) (object_summary db)
     ++ rows)
    (face_detections db) (face_summary db) (next_photo_id db) (schema db).

(** The collation tells the class names of the events apart: two names
    with one key are one name. *)
Definition names_told_apart (db : Db) (detections : list Detection) : Prop :=
  forall c1 c2,
    In c1 (map class_name detections) -> In c2 (map class_name detections) ->
    sql_eqb db c1 c2 = true -> c1 = c2.

(** The upper-case form of a text, letter by letter from the alphabet. *)
Definition upper_case_letter (c : ascii) : ascii :=
  match String.index 0 (String c EmptyString) "abcdefghijklmnopqrstuvwxyz" with
  | Some i =>
      match String.get i "ABCDEFGHIJKLMNOPQRSTUVWXYZ" with
      | Some u => u
      | None => c
      end
  | None => c
  end.

Fixpoint upper_case (s : string) : string :=
  match s with
  | EmptyString => EmptyString
  | String c r => String (upper_case_letter c) (upper_case r)
  end.

(** The order of [sort] on paths. *)
Definition string_le (a b : string) : Prop := String.leb a b = true.


Definition face_summary_of (photo_id : nat) (db : Db) : list FaceSummaryRow :=
  filter (fun r => fs_photo_id r =? photo_id) (face_summary db).

(** The id under which the catalog knows a path. *)
Definition photo_id_of (file_path : string) (db : Db) : option nat :=
  option_map ph_id (find_photo file_path db).

(** The catalog holds a photo for the path with a [processed_at] that is
    not null. *)
Definition processed (file_path : string) (db : Db) : bool :=
  match find_photo file_path db with
  | Some row =>
      match ph_processed_at row with
      | Some _ => true
      | None => false
      end
  | None => false
  end.

(** A file name ends in an extension up to the case of the letters. *)
Definition matches_case_insensitively (p ext : string) : bool :=
  Py.endswith (upper_case p) (upper_case ext).

(** ** File systems for the sample runs

    What [glob] answers for the patterns of the crawl, [**] followed by
    the components of a name, over a list of files with absolute paths
    under a root without pattern characters. [normcase] is
    [os.path.normcase] on a character: the identity on POSIX, where the
    match tells upper case from lower case. *)

Module FileSystem.

Inductive Token :=
| Star
| AnyChar
| OneOf (negated : bool) (ranges : list (ascii * ascii))
| Literal (c : ascii).

(** The text of a character class up to its closing bracket, and what
    follows it. *)
Fixpoint until_bracket (l : list ascii)
  : option (list ascii * list ascii) :=
  match l with
  | [] => None
  | c :: r =>
      if Ascii.eqb c "]" then Some ([], r)
      else match until_bracket r with
           | Some (body, rest) => Some (c :: body, rest)
           | None => None
           end
  end.

(** After an opening bracket: a [!] negates, a closing bracket that comes
    first is a member, and without a closing bracket there is no class. *)
Definition class_text (l : list ascii)
  : option (bool * list ascii * list ascii) :=
  let '(negated, l1) :=
    match l with
    | c :: r => if Ascii.eqb c "!" then (true, r) else (false, l)
    | [] => (false, l)
    end in
  let '(first, l2) :=
    match l1 with
    | c :: r => if Ascii.eqb c "]" then ([c], r) else ([], l1)
    | [] => ([], l1)
    end in
  match until_bracket l2 with
  | Some (body, rest) => Some (negated, first ++ body, rest)
  | None => None
  end.

Fixpoint ranges_of (l : list ascii) : list (ascii * ascii) :=
  match l with
  | [] => []
  | a :: r =>
      match r with
      | dash :: b :: r' =>
          if Ascii.eqb dash "-" then (a, b) :: ranges_of r'
          else (a, a) :: ranges_of r
      | _ => (a, a) :: ranges_of r
      end
  end.

(** [fnmatch.translate]; the fuel is the length of the pattern. *)
Fixpoint tokens (fuel : nat) (l : list ascii) : list Token :=
  match fuel, l with
  | S fuel, c :: r =>
      if Ascii.eqb c "*" then Star :: tokens fuel r
      else if Ascii.eqb c "?" then AnyChar :: tokens fuel r
      else if Ascii.eqb c "[" then
        match class_text r with
        | Some (negated, text, rest) =>
            OneOf negated (ranges_of text) :: tokens fuel rest
        | None => Literal c :: tokens fuel r
        end
      else Literal c :: tokens fuel r
  | _, _ => []
  end.

Definition in_range (c : ascii) (range : ascii * ascii) : bool :=
  (nat_of_ascii (fst range) <=? nat_of_ascii c)
  && (nat_of_ascii c <=? nat_of_ascii (snd range)).

Fixpoint matches (ts : list Token) : list ascii -> bool :=
  match ts with
  | [] => fun s => match s with [] => true | _ :: _ => false end
  | t :: ts' =>
      match t with
      | Star =>
          fix star (s : list ascii) : bool :=
            matches ts' s
            || match s with [] => false | _ :: s' => star s' end
      | AnyChar =>
          fun s => match s with [] => false | _ :: s' => matches ts' s' end
      | OneOf negated ranges =>
          fun s =>
            match s with
            | [] => false
            | c :: s' =>
                xorb negated (existsb (in_range c) ranges) && matches ts' s'
            end
      | Literal a =>
          fun s =>
            match s with
            | [] => false
            | c :: s' => Ascii.eqb c a && matches ts' s'
            end
      end
  end.

Definition fnmatch (normcase : ascii -> ascii) (name pattern : string)
  : bool :=
  let pat := map normcase (list_ascii_of_string pattern) in
  matches (tokens (length pat) pat)
    (map normcase (list_ascii_of_string name)).

Definition hidden (name : string) : bool := Py.startswith name ".".

(** A name against a component of the pattern: a name that starts with a
    dot is matched only by a component that starts with one. *)
Definition component_matches (normcase : ascii -> ascii)
  (pattern name : string) : bool :=
  (negb (hidden name) || hidden pattern) && fnmatch normcase name pattern.

Fixpoint all_match (normcase : ascii -> ascii) (patterns names : list string)
  : bool :=
  match patterns, names with
  | [], [] => true
  | p :: ps, n :: ns =>
      component_matches normcase p n && all_match normcase ps ns
  | _, _ => false
  end.

(** [**] takes the directories in front, none of them hidden, and the
    components after it take the rest of the path. *)
Definition reached (normcase : ascii -> ascii) (patterns entry : list string)
  : bool :=
  let k := length entry - length patterns in
  forallb (fun d => negb (hidden d)) (firstn k entry)
  && all_match normcase patterns (skipn k entry).

Fixpoint strip_prefix (prefix s : string) : option string :=
  match prefix, s with
  | EmptyString, _ => Some s
  | String a p, String b r => if Ascii.eqb a b then strip_prefix p r else None
  | String _ _, EmptyString => None
  end.

(** The paths from the root to a file: its directories and itself. *)
Fixpoint prefixes (front components : list string) : list (list string) :=
  match components with
  | [] => []
  | c :: r => (front ++ [c]) :: prefixes (front ++ [c]) r
  end.

Definition entries (root file : string) : list (list string) :=
  match strip_prefix (String.append root "/") file with
  | Some rest => prefixes [] (Py.split "/" rest)
  | None => []
  end.

Definition glob_with (normcase : ascii -> ascii) (files : list string)
  (root pattern : string) : list string :=
  match Py.split "/" pattern with
  | first :: patterns =>
      if String.eqb first "**" then
        nodup string_dec
          (flat_map
             (fun file =>
                map
                  (fun entry =>
                     String.append root
                       (String.append "/" (String.concat "/" entry)))
                  (filter (reached normcase patterns) (entries root file)))
             files)
      else []
  | [] => []
  end.

(** A text without pattern characters and without a separator. *)
Definition plain_char (c : ascii) : bool :=
  negb (Ascii.eqb c "*" || Ascii.eqb c "?" || Ascii.eqb c "["
        || Ascii.eqb c "/").

Definition plain (s : string) : bool :=
  forallb plain_char (list_ascii_of_string s).

(** [glob] on POSIX. *)
Definition posix : list string -> string -> string -> list string :=
  glob_with (fun c => c).

(** [glob] where [normcase] folds the case, as on Windows. *)
Definition folding : list string -> string -> string -> list string :=
  glob_with Py.lower_char.

End FileSystem.

(** ** Sample runs *)

Module Sample.

Definition jpeg : FileMeta := mkFileMeta 204800%Z 640%Z 480%Z "JPEG".

Definition person_a : Detection := mkDetection "person" 0 (9 # 10)%Q.
Definition person_b : Detection := mkDetection "person" 0 (7 # 10)%Q.
Definition dog : Detection := mkDetection "dog" 16 (8 # 10)%Q.
Definition cat : Detection := mkDetection "cat" 15 (6 # 10)%Q.

Definition canon : ExifFields :=
  mkExifFields (Some "Canon") (Some "EOS 80D") (Some "2023-05-01T10:00:00")
    (Some (1 # 250)%Q) (Some (28 # 10)%Q) (Some 100%Z) (Some (50 # 1)%Q)
    None None None None.

Definition nikon : ExifFields :=
  mkExifFields (Some "Nikon") (Some "D750") (Some "2024-02-11T08:30:00")
    (Some (1 # 60)%Q) (Some (4 # 1)%Q) (Some 400%Z) (Some (35 # 1)%Q)
    None None None (Some "Lightroom").

(** A world in which every collaborator answers, nothing is detected, the
    directory holds one photo on a POSIX file system and the float unit
    is exact. The distance of an entry is the first number of its
    encoding. *)
Definition quiet : World :=
  mkWorld (fun _ => Ok jpeg) (fun _ => None) (fun _ _ => Ok [])
    (fun _ => Ok []) (fun _ _ => Ok []) (fun k _ => hd 0%Q k)
    (fun _ => None) 100 (FileSystem.posix ["/photos/a.jpg"]) (fun x => x).

(** The YOLO model finds two people and a dog. *)
Definition crowded : World :=
  mkWorld (read_image quiet) (extract_exif_data quiet)
    (fun _ _ => Ok [person_a; dog; person_b])
    (face_locations quiet) (face_encodings quiet) (distance quiet)
    (db_error quiet) 200 (glob quiet) (fl quiet).

(** The image carries EXIF tags. *)
Definition tagged : World :=
  mkWorld (read_image quiet) (fun _ => Some canon) (yolo quiet)
    (face_locations quiet) (face_encodings quiet) (distance quiet)
    (db_error quiet) 50 (glob quiet) (fl quiet).

(** The image carries other EXIF tags. *)
Definition retagged : World :=
  mkWorld (read_image quiet) (fun _ => Some nikon) (yolo quiet)
    (face_locations quiet) (face_encodings quiet) (distance quiet)
    (db_error quiet) 60 (glob quiet) (fl quiet).

(** The face engine fails to load the image. *)
Definition faceless : World :=
  mkWorld (read_image quiet) (extract_exif_data quiet) (yolo crowded)
    (fun _ => Raise "cannot identify image file")
    (face_encodings quiet) (distance quiet) (db_error quiet) 300
    (glob quiet) (fl quiet).

(** One face is found in every image. *)
Definition portrait : World :=
  mkWorld (read_image quiet) (extract_exif_data quiet) (yolo quiet)
    (fun _ => Ok [(10, 60, 70, 20)%Z]) (fun _ _ => Ok [[(3 # 10)%Q]])
    (distance quiet) (db_error quiet) 400 (glob quiet) (fl quiet).

(** Two people, a dog and one face. *)
Definition family : World :=
  mkWorld (read_image quiet) (extract_exif_data quiet) (yolo crowded)
    (face_locations portrait) (face_encodings portrait) (distance quiet)
    (db_error quiet) 450 (glob quiet) (fl quiet).

(** A cat, a dog and two faces. *)
Definition pets : World :=
  mkWorld (read_image quiet) (extract_exif_data quiet)
    (fun _ _ => Ok [cat; dog])
    (fun _ => Ok [(10, 60, 70, 20)%Z; (15, 90, 80, 40)%Z])
    (fun _ _ => Ok [[(3 # 10)%Q]; [(9 # 10)%Q]])
    (distance quiet) (db_error quiet) 470 (glob quiet) (fl quiet).

(** A person and a dog whose class name has a capital. *)
Definition capitals : World :=
  mkWorld (read_image quiet) (extract_exif_data quiet)
    (fun _ _ => Ok [mkDetection "Dog" 16 (5 # 10)%Q; person_a])
    (face_locations quiet) (face_encodings quiet) (distance quiet)
    (db_error quiet) 480 (glob quiet) (fl quiet).

(** The YOLO model fails on every image. *)
Definition broken_model : World :=
  mkWorld (read_image quiet) (extract_exif_data quiet)
    (fun _ _ => Raise "model failure")
    (face_locations quiet) (face_encodings quiet) (distance quiet)
    (db_error quiet) 500
    (FileSystem.posix ["/photos/a.jpg"; "/photos/b.jpg"]) (fl quiet).

(** A directory with a mixed-case extension, on POSIX. *)
Definition mixed_case_files : list string := ["/photos/a.Jpg"].

Definition mixed_case : World :=
  mkWorld (read_image quiet) (extract_exif_data quiet) (yolo quiet)
    (face_locations quiet) (face_encodings quiet) (distance quiet)
    (db_error quiet) 600 (FileSystem.posix mixed_case_files) (fl quiet).

(** The same directory where [glob] folds the case. *)
Definition mixed_case_folding : World :=
  mkWorld (read_image quiet) (extract_exif_data quiet) (yolo quiet)
    (face_locations quiet) (face_encodings quiet) (distance quiet)
    (db_error quiet) 600 (FileSystem.folding mixed_case_files) (fl quiet).

(** Three known faces at distances 0.5, 0.3 and 0.7 of any query. *)
Definition gallery : list KnownFace :=
  [mkKnownFace "ann" [(5 # 10)%Q] "/known/ann/1.jpg";
   mkKnownFace "bob" [(3 # 10)%Q] "/known/bob/1.jpg";
   mkKnownFace "cy" [(7 # 10)%Q] "/known/cy/1.jpg"].

Definition matcher (tol : Q) : FaceProcessor :=
  set_known_faces (mkFaceProcessor tol [] []) gallery.

Definition processor : YOLOProcessor :=
  mkYOLOProcessor "yolov8n.pt" (matcher (6 # 10)%Q).

Definition start : State := mkState empty_db [].

Definition threshold : Q := (25 # 100)%Q.

(** The state a run of [process_single_image] leaves. *)
Definition after (w : World) (st : State) (image_path : string) : State :=
  snd (process_single_image w processor st image_path threshold).

(** The result of a run that returned; the default stands for one that
    raised. *)
Definition returned (w : World) (st : State) (image_path : string)
  : ImageResult :=
  match fst (process_single_image w processor st image_path threshold) with
  | Ok r => r
  | Raise _ => mkImageResult 0 EmptyString 0 0 [] []
  end.

End Sample.

(** ** The metadata converters of [PhotoDatabase] *)

(** A raw EXIF value as the converters tell them apart: a value with a
    [numerator] and a [denominator] (an [IFDRational], an [int], a
    [Fraction]), a [float], a [str], or a value [float] raises [TypeError]
    on (a tuple, a dictionary). *)
Inductive ExifValue :=
| VRational (numerator denominator : Z)
| VFloat (x : Q)
| VStr (s : string)
| VOther.

Section ConvertRational.

(** [float(s)] on a string: [None] stands for [ValueError]. *)
Variable float_of_str : string -> option Q.

(** [float(num) / float(denom)] inside the inner [try]: [ValueError] and
    [ZeroDivisionError] give [None]. *)
Definition divide_strings (num denom : string) : option Q :=
  match float_of_str num, float_of_str denom with
  | Some n, Some d => if Qeq_bool d 0 then None else Some (n / d)%Q
  | _, _ => None
  end.

(** [_convert_rational] *)
Definition _convert_rational (value : option ExifValue) : option Q :=
  match value with
  | None => None
  | Some (VRational n d) =>
      if (d =? 0)%Z then None else Some (inject_Z n / inject_Z d)%Q
  | Some (VStr s) =>
      if Py.contains "/" s then
        match Py.split "/" s with
        | [num; denom] => divide_strings num denom
        | _ => None
        end
      else float_of_str s
  | Some (VFloat x) => Some x
  | Some VOther => None
  end.

End ConvertRational.

(** [_convert_gps_to_decimal]: the coordinates are the numbers of degrees,
    minutes and seconds; a tuple with fewer than three raises [IndexError],
    which the handler turns into [None]. *)
Definition _convert_gps_to_decimal (gps_coords : option (list Q))
  (ref : option string) : option Q :=
  match gps_coords, ref with
  | Some coords, Some r =>
      match coords with
      | [] => None
      | _ :: _ =>
          if Py.is_empty r then None else
          match coords with
          | degrees :: minutes :: seconds :: _ =>
              let decimal :=
                (degrees + minutes / 60 + seconds / 3600)%Q in
              Some (if Py.in_list r ["S"; "W"] then (- decimal)%Q
                    else decimal)
          | _ => None
          end
      end
  | _, _ => None
  end.

(** ** The table of known faces *)

(** A row of [known_faces]; [image_path] may be NULL. *)
Record KnownFaceRow := mkKnownFaceRow {
  kr_id : nat;
  kr_name : string;
  kr_face_encoding : Encoding;
  kr_image_path : option string;
  kr_created_at : nat
}.

(** The table with its AUTO_INCREMENT counter and the collation key of
    its text columns. No method of the catalog touches it together with
    another table. *)
Record KnownFaces := mkKnownFaces {
  kf_rows : list KnownFaceRow;
  kf_next_id : nat;
  kf_collation : string -> string
}.

(** [image_path = %s] in SQL: true of the paths with the key of the one
    given, never of NULL. *)
Definition path_is (key : string -> string) (image_path : option string)
  (r : KnownFaceRow) : bool :=
  match image_path, kr_image_path r with
  | Some p, Some q => String.eqb (key q) (key p)
  | _, _ => false
  end.

(** [add_known_face]; [err] is the error the server answers the call
    with, if it does, and [created_at] its CURRENT_TIMESTAMP. The UPDATE
    leaves the path of the row as it was spelt. *)
Definition add_known_face (err : option exn) (created_at : nat)
  (t : KnownFaces) (name : string) (face_encoding : Encoding)
  (image_path : option string) : result nat * KnownFaces :=
  match err with
  | Some e => (Raise e, t)
  | None =>
      match find (path_is (kf_collation t) image_path) (kf_rows t) with
      | Some existing =>
          (Ok (kr_id existing),
           mkKnownFaces
             (map (fun r =>
                     if path_is (kf_collation t) image_path r
                     then mkKnownFaceRow (kr_id r) name face_encoding
                            (kr_image_path r) (kr_created_at r)
                     else r)
                (kf_rows t))
             (kf_next_id t) (kf_collation t))
      | None =>
          (Ok (kf_next_id t),
           mkKnownFaces
             (kf_rows t
              ++ [mkKnownFaceRow (kf_next_id t) name face_encoding image_path
                    created_at])
             (S (kf_next_id t)) (kf_collation t))
      end
  end.

(** *** [cleanup_duplicate_faces] *)

Section Unspecified.

(** What SQL leaves open is a parameter: the order [ORDER BY key DESC]
    gives rows with equal keys, the order of the rows of a query without
    [ORDER BY], and the value [GROUP BY] shows for a group whose members
    the collation does not tell apart (the first member and the others
    are given). *)
Variable order_desc : forall A : Type, (A -> nat) -> list A -> list A.
Variable unordered : list string -> list string.
Variable any_value : string -> list string -> string.

(** The image paths that are not NULL, row by row. *)
Definition image_paths (rows : list KnownFaceRow) : list string :=
  flat_map
    (fun r => match kr_image_path r with Some p => [p] | None => [] end)
    rows.

(** The values of one key among a list of values. *)
Definition group_of (key : string -> string) (k : string)
  (values : list string) : list string :=
  filter (fun v => String.eqb (key v) k) values.

(** The groups of [GROUP BY], by first member. *)
Definition groups (key : string -> string) (values : list string)
  : list (list string) :=
  map (fun k => group_of key k values) (nodup string_dec (map key values)).

(** The first query: a path for every group of paths with more than one
    row. *)
Definition duplicate_paths (key : string -> string)
  (rows : list KnownFaceRow) : list string :=
  unordered
    (flat_map
       (fun group =>
          match group with
          | first :: (_ :: _) as others => [any_value first others]
          | _ => []
          end)
       (groups key (image_paths rows))).

(** [DELETE FROM known_faces WHERE id = %s] *)
Definition delete_id (rows : list KnownFaceRow) (entry : KnownFaceRow)
  : list KnownFaceRow :=
  filter (fun r => negb (kr_id r =? kr_id entry)) rows.

(** One turn of the loop: the entries of the path, newest first, and all
    but the first deleted. *)
Definition remove_older (key : string -> string)
  (rows : list KnownFaceRow) (image_path : string) : list KnownFaceRow :=
  let entries :=
    order_desc _ kr_created_at
      (filter (path_is key (Some image_path)) rows) in
  fold_left delete_id (tl entries) rows.

Definition cleanup_duplicate_faces (err : option exn) (t : KnownFaces)
  : result unit * KnownFaces :=
  match err with
  | Some e => (Raise e, t)
  | None =>
      (Ok tt,
       mkKnownFaces
         (fold_left (remove_older (kf_collation t))
            (duplicate_paths (kf_collation t) (kf_rows t)) (kf_rows t))
         (kf_next_id t) (kf_collation t))
  end.

(** *** [search_photos_by_objects] and [get_statistics] *)

(** [x IN (...)] on a text column. *)
Definition sql_in (db : Db) (x : string) (l : list string) : bool :=
  existsb (sql_eqb db x) l.

(** The rows of the join of [photos] and [object_summary] that pass the
    WHERE clause. *)
Definition matching_rows (db : Db) (class_names : list string)
  (min_count : Z) : list (PhotoRow * ObjectSummaryRow) :=
  flat_map
    (fun p =>
       map (fun o => (p, o))
         (filter
            (fun o =>
               (os_photo_id o =? ph_id p)
               && sql_in db (os_class_name o) class_names
               && (min_count <=? Z.of_nat (os_total_count o))%Z)
            (object_summary db)))
    (photos db).

(** [search_photos_by_objects]: an empty list of classes makes the
    statement end in [IN ()], which the server rejects. *)
Definition search_photos_by_objects (db : Db) (class_names : list string)
  (min_count : Z) : result (list (PhotoRow * ObjectSummaryRow)) :=
  match class_names with
  | [] => Raise "You have an error in your SQL syntax"
  | _ :: _ =>
      Ok (order_desc _ (fun r => ph_created_at (fst r))
            (matching_rows db class_names min_count))
  end.

(** The rows of [object_summary] whose class name has the key. *)
Definition class_rows (db : Db) (k : string)
  (rows : list ObjectSummaryRow) : list ObjectSummaryRow :=
  filter (fun o => String.eqb (collation (schema db) (os_class_name o)) k)
    rows.

(** [SELECT class_name, SUM(total_count) ... GROUP BY class_name] *)
Definition class_totals (db : Db) (rows : list ObjectSummaryRow)
  : list (string * nat) :=
  map
    (fun k =>
       let group := class_rows db k rows in
       (match map os_class_name group with
        | first :: others => any_value first others
        | [] => EmptyString
        end,
        list_sum (map os_total_count group)))
    (nodup string_dec
       (map (fun o => collation (schema db) (os_class_name o)) rows)).

Record Statistics := mkStatistics {
  stats_total_photos : nat;
  stats_processed_photos : nat;
  stats_total_objects_detected : nat;
  stats_top_objects : list (string * nat);
  stats_total_known_faces : nat;
  stats_total_face_detections : nat;
  stats_total_recognized_faces : nat
}.

Definition is_some {A} (o : option A) : bool :=
  match o with Some _ => true | None => false end.

(** [get_statistics] *)
Definition get_statistics (db : Db) (t : KnownFaces) : Statistics :=
  mkStatistics
    (length (photos db))
    (length (filter (fun p => is_some (ph_processed_at p)) (photos db)))
    (list_sum (map os_total_count (object_summary db)))
    (firstn 10 (order_desc _ snd (class_totals db (object_summary db))))
    (length (kf_rows t))
    (length (face_detections db))
    (length
       (filter (fun r => is_some (recognized_name (fd_face r)))
          (face_detections db))).

End Unspecified.

(** An ordering that keeps rows with equal keys in table order. *)
Fixpoint insert_desc {A} (key : A -> nat) (x : A) (l : list A) : list A :=
  match l with
  | [] => [x]
  | y :: r =>
      if key y <? key x then x :: l else y :: insert_desc key x r
  end.

Definition stable_desc (A : Type) (key : A -> nat) (l : list A) : list A :=
  fold_right (insert_desc key) [] l.

(** ** [get_photo_info] and [YOLOProcessor.get_face_statistics] *)

(** The values of the dictionary [get_photo_info] returns; the row of
    [exif_data] is [None] for the empty dictionary put in its place. *)
Inductive InfoValue :=
| InfoPhoto (photo : PhotoRow)
| InfoExif (exif : option ExifRow)
| InfoObjects (objects : list ObjectSummaryRow).

(** [get_photo_info] on a server that answers: [None] for an id without a
    photo. The cursor is not buffered and [fetchone] reads one row:
    [photos] has at most one row for an id, its primary key, but
    [exif_data] has no unique key on [photo_id], and with a second row left
    unread the connector refuses the next [execute]. *)
Definition get_photo_info (db : Db) (photo_id : nat)
  : result (option (Dict.t InfoValue)) :=
  match find (fun p => ph_id p =? photo_id) (photos db) with
  | None => Ok None
  | Some photo =>
      match filter (fun r => ex_photo_id r =? photo_id) (exif_data db) with
      | _ :: _ :: _ => Raise "Unread result found"
      | exif =>
          Ok (Some [("photo", InfoPhoto photo);
                    ("exif", InfoExif (hd_error exif));
                    ("objects",
                     InfoObjects
                       (filter (fun r => os_photo_id r =? photo_id)
                          (object_summary db)))])
      end
  end.

(** A dictionary as a condition: false when it is empty. *)
Definition dict_is_empty {V} (d : Dict.t V) : bool :=
  match d with [] => true | _ :: _ => false end.

(** [YOLOProcessor.get_face_statistics]: [None] is the empty dictionary. *)
Definition yolo_get_face_statistics (db : Db) (photo_id : nat)
  : result (option InfoValue) :=
  let* photo_info := get_photo_info db photo_id in
  Ok (match photo_info with
      | Some photo_info =>
          if negb (dict_is_empty photo_info)
             && Dict.mem "face_summary" photo_info
          then Dict.get "face_summary" photo_info
          else None
      | None => None
      end).

(** ** [FaceProcessor.get_face_statistics] *)

Record FaceStatistics := mkFaceStatistics {
  st_total_faces : nat;
  st_recognized_faces : nat;
  st_unrecognized_faces : nat;
  (** [list(set(...))]: the names without repeats, in an order Python
      leaves open; here the order of first occurrence *)
  st_recognized_names : list string
}.

Definition get_face_statistics (face_detections : list FaceDetection)
  : FaceStatistics :=
  let total_faces := length face_detections in
  let recognized := filter has_recognized_name face_detections in
  let recognized_faces := length recognized in
  mkFaceStatistics total_faces recognized_faces
    (total_faces - recognized_faces)
    (nodup string_dec
       (flat_map
          (fun d => match recognized_name d with Some n => [n] | None => [] end)
          recognized)).

(** ** Known faces from a folder *)

(** What the loader asks of the file system; [listdir] raises for a folder
    it cannot read. *)
Record Folders := mkFolders {
  path_exists : string -> bool;
  path_isdir : string -> bool;
  listdir : string -> result (list string)
}.

(** [os.path.join(a, b)] with the separator of POSIX. *)
Definition path_join (a b : string) : string :=
  if Py.startswith b "/" then b
  else if Py.is_empty a || Py.endswith a "/" then String.append a b
  else String.append a (String.append "/" b).

Definition image_suffixes : list string :=
  [".png"; ".jpg"; ".jpeg"; ".bmp"; ".tiff"].

(** [filename.lower().endswith(('.png', '.jpg', '.jpeg', '.bmp',
    '.tiff'))] *)
Definition is_image_name (filename : string) : bool :=
  existsb (Py.endswith (Py.lower filename)) image_suffixes.

(** [_encode_face_from_image]: the first encoding, [None] when no face is
    found or anything raises. *)
Definition _encode_face_from_image (w : World) (image_path : string)
  : option Encoding :=
  match face_locations w image_path with
  | Raise _ => None
  | Ok [] => None
  | Ok (loc :: locs) =>
      match face_encodings w image_path (loc :: locs) with
      | Raise _ => None
      | Ok [] => None
      | Ok (e :: _) => Some e
      end
  end.

(** The loop over the files of one person. *)
Fixpoint faces_of_files (w : World) (person_name person_folder : string)
  (filenames : list string) : list KnownFace :=
  match filenames with
  | [] => []
  | filename :: rest =>
      let found :=
        if is_image_name filename then
          let image_path := path_join person_folder filename in
          match _encode_face_from_image w image_path with
          | Some face_encoding =>
              [mkKnownFace person_name face_encoding image_path]
          | None => []
          end
        else [] in
      found ++ faces_of_files w person_name person_folder rest
  end.

(** The loop over the entries of the folder. *)
Fixpoint faces_of_people (fs : Folders) (w : World) (folder_path : string)
  (people : list string) : result (list KnownFace) :=
  match people with
  | [] => Ok []
  | person_name :: rest =>
      let person_folder := path_join folder_path person_name in
      if negb (path_isdir fs person_folder)
      then faces_of_people fs w folder_path rest
      else
        let* filenames := listdir fs person_folder in
        let* more := faces_of_people fs w folder_path rest in
        Ok (faces_of_files w person_name person_folder filenames ++ more)
  end.

(** [load_known_faces_from_folder] *)
Definition load_known_faces_from_folder (fs : Folders) (w : World)
  (folder_path : string) : result (list KnownFace) :=
  if negb (path_exists fs folder_path) then Ok []
  else
    let* people := listdir fs folder_path in
    faces_of_people fs w folder_path people.

(** The loop of [YOLOProcessor.load_known_faces] that stores the faces: an
    exception of [add_known_face] is logged and the loop goes on. *)
Definition store_known_faces (store_error : KnownFace -> option exn)
  (created_at : nat) (t : KnownFaces) (known_faces : list KnownFace)
  : KnownFaces :=
  fold_left
    (fun t face_data =>
       snd (add_known_face (store_error face_data) created_at t
              (kf_name face_data) (kf_face_encoding face_data)
              (Some (kf_image_path face_data))))
    known_faces t.

(** [YOLOProcessor.load_known_faces] *)
Definition load_known_faces (fs : Folders) (w : World)
  (store_error : KnownFace -> option exn) (self : YOLOProcessor)
  (t : KnownFaces) (known_faces_folder : string)
  : result (YOLOProcessor * KnownFaces) :=
  let* known_faces := load_known_faces_from_folder fs w known_faces_folder in
  Ok (mkYOLOProcessor (model_name self)
        (set_known_faces (face_processor self) known_faces),
      store_known_faces store_error (now w) t known_faces).

(** ** The summary the command line prints after [process_directory] *)

(** ['error' not in r] *)
Definition without_error (r : FileResult) : bool :=
  match r with
  | Failed _ _ => false
  | _ => true
  end.

(** [r.get('detections_count', 0)] *)
Definition detections_count (r : FileResult) : nat :=
  match r with
  | Processed r => ir_detections_count r
  | Skipped _ => 0
  | Failed _ _ => 0
  end.

Record BatchSummary := mkBatchSummary {
  bs_total : nat;
  bs_successful : nat;
  bs_failed : nat;
  (** printed only when a file was successful *)
  bs_total_objects : option nat
}.

Definition batch_summary (results : list FileResult) : BatchSummary :=
  let successful := length (filter without_error results) in
  let failed := length results - successful in
  mkBatchSummary (length results) successful failed
    (if 0 <? successful
     then Some (list_sum (map detections_count
                            (filter without_error results)))
     else None).

(** ** More notions the statements use *)

(** The detection events and the faces the catalog holds for one photo. *)
Definition detections_of (photo_id : nat) (db : Db) : list Detection :=
  map od_detection
    (filter (fun r => od_photo_id r =? photo_id) (object_detections db)).

Definition faces_of (photo_id : nat) (db : Db) : list FaceDetection :=
  map fd_face
    (filter (fun r => fd_photo_id r =? photo_id) (face_detections db)).

(** The photos are well formed: no path and no id twice, every id below
    the counter. *)
Definition photos_wf (db : Db) : Prop :=
  NoDup (map ph_file_path (photos db)) /\
  NoDup (map ph_id (photos db)) /\
  Forall (fun r => ph_id r < next_photo_id db) (photos db).

(** The summaries agree with the rows they summarise, photo by photo: the
    object summary has one row per class of the photo's events, with
    their number and the class id of the first, and a face summary, if
    there is one, is the one row counted from the photo's faces. *)
Definition summaries_agree (db : Db) : Prop :=
  forall photo_id,
    NoDup (map os_class_name (summary_of photo_id db)) /\
    (forall c, In c (map os_class_name (summary_of photo_id db))
               <-> In c (map class_name (detections_of photo_id db))) /\
    Forall (row_counts (detections_of photo_id db))
      (summary_of photo_id db) /\
    (face_summary_of photo_id db = [] \/
     face_summary_of photo_id db
     = [mkFaceSummaryRow photo_id (length (faces_of photo_id db))
          (length (filter has_recognized_name (faces_of photo_id db)))
          (length (faces_of photo_id db)
           - length (filter has_recognized_name (faces_of photo_id db)))]).

(** No two rows hold image paths that are not NULL and have one key, and
    the ids are those of a primary key below the counter. *)
Definition known_faces_wf (t : KnownFaces) : Prop :=
  NoDup (map (kf_collation t) (image_paths (kf_rows t))) /\
  NoDup (map kr_id (kf_rows t)) /\
  Forall (fun r => kr_id r < kf_next_id t) (kf_rows t).


(** The number of entries with a status. *)
Definition count_status (s : string) (results : list FileResult) : nat :=
  length (filter (fun r => String.eqb (status r) s) results).

(** A property of the catalog that each of the three methods that write
    photos, detections and faces keeps, whether it returns or raises. *)
Definition kept_by_writes (w : World) (P : Db -> Prop) : Prop :=
  (forall db p m r db',
     add_photo w db p m = (r, db') -> P db -> P db') /\
  (forall db pid ds r db',
     add_object_detections w db pid ds = (r, db') -> P db -> P db') /\
  (forall db pid fs r db',
     add_face_detections w db pid fs = (r, db') -> P db -> P db').

(** ** More sample data *)

Module Fixture.

(** A folder of known faces: two people and a stray file; one picture
    has no face and one name has a mixed-case extension. *)
Definition folders : Folders :=
  mkFolders
    (fun p => String.eqb p "/known")
    (fun p => String.eqb p "/known/ann" || String.eqb p "/known/bob")
    (fun p =>
       if String.eqb p "/known" then Ok ["ann"; "bob"; "notes.txt"]
       else if String.eqb p "/known/ann" then Ok ["1.Jpg"; "readme.md"]
       else if String.eqb p "/known/bob" then Ok ["a.png"; "blank.jpg"]
       else Raise "No such file or directory").

(** The face engine finds one face in every picture but "blank.jpg". *)
Definition engine : World :=
  mkWorld (read_image Sample.quiet) (extract_exif_data Sample.quiet)
    (yolo Sample.quiet)
    (fun p => if Py.endswith p "blank.jpg" then Ok []
              else Ok [(10, 60, 70, 20)%Z])
    (fun p _ => Ok [[inject_Z (Z.of_nat (String.length p))]])
    (distance Sample.quiet) (db_error Sample.quiet) 700 (glob Sample.quiet)
    (fl Sample.quiet).

(** A table with one face. *)
Definition one_face : KnownFaces :=
  mkKnownFaces
    [mkKnownFaceRow 1 "ann" [(5 # 10)%Q] (Some "/known/ann/1.jpg") 10]
    2 Server.unicode_ci.

(** A table written before the unique key: two rows for one path, and
    two rows for paths that differ in the case of a letter only. *)
Definition duplicated : KnownFaces :=
  mkKnownFaces
    [mkKnownFaceRow 1 "ann" [(5 # 10)%Q] (Some "/known/ann/1.jpg") 10;
     mkKnownFaceRow 2 "bob" [(3 # 10)%Q] (Some "/known/bob/1.jpg") 20;
     mkKnownFaceRow 3 "ann" [(4 # 10)%Q] (Some "/known/ann/1.jpg") 30;
     mkKnownFaceRow 4 "cy" [(7 # 10)%Q] None 40;
     mkKnownFaceRow 5 "bob" [(2 # 10)%Q] (Some "/known/bob/1.JPG") 25]
    6 Server.unicode_ci.

Definition no_faces : KnownFaces := mkKnownFaces [] 1 Server.unicode_ci.

(** The catalog after one photo with two people and a dog. *)
Definition catalog_a : Db :=
  catalog (Sample.after Sample.crowded Sample.start "/photos/a.jpg").

(** The catalog after a second photo with a person and a "Dog". *)
Definition catalog_b : Db :=
  catalog
    (Sample.after Sample.capitals
       (Sample.after Sample.crowded Sample.start "/photos/a.jpg")
       "/photos/b.jpg").

End Fixture.

(** * Properties *)

(** ** Dictionaries *)

Section DictFacts.

Context {V : Type}.

Lemma dict_get_set_same (k : string) (v : V) (d : Dict.t V) :
  Dict.get k (Dict.set k v d) = Some v.
Proof.
  induction d as [|[k' v'] r IH]; simpl.
  - now rewrite String.eqb_refl.
  - destruct (String.eqb k' k) eqn:E; simpl; rewrite E; auto.
Qed.

Lemma dict_get_set_other (k k' : string) (v : V) (d : Dict.t V) :
  k <> k' -> Dict.get k' (Dict.set k v d) = Dict.get k' d.
Proof.
  intros Hne. induction d as [|[k0 v0] r IH]; simpl.
  - destruct (String.eqb_spec k k'); congruence.
  - destruct (String.eqb_spec k0 k) as [->|Hk]; simpl.
    + destruct (String.eqb_spec k k'); congruence.
    + destruct (String.eqb_spec k0 k'); auto.
Qed.

Lemma dict_get_none_keys (k : string) (d : Dict.t V) :
  Dict.get k d = None <-> ~ In k (Dict.keys d).
Proof.
  induction d as [|[k0 v0] r IH]; simpl.
  - tauto.
  - destruct (String.eqb_spec k0 k) as [->|Hk].
    + split; [discriminate | tauto].
    + rewrite IH. tauto.
Qed.

Lemma dict_keys_set_new (k : string) (v : V) (d : Dict.t V) :
  Dict.get k d = None -> Dict.keys (Dict.set k v d) = Dict.keys d ++ [k].
Proof.
  induction d as [|[k0 v0] r IH]; simpl; auto.
  destruct (String.eqb_spec k0 k) as [->|Hk]; [discriminate|].
  intros H. simpl. f_equal. now apply IH.
Qed.

Lemma dict_keys_set_old (k : string) (v : V) (d : Dict.t V) :
  Dict.get k d <> None -> Dict.keys (Dict.set k v d) = Dict.keys d.
Proof.
  induction d as [|[k0 v0] r IH]; simpl; [congruence|].
  destruct (String.eqb_spec k0 k) as [->|Hk]; simpl; auto.
  intros H. f_equal. now apply IH.
Qed.

Lemma dict_get_in (k : string) (v : V) (d : Dict.t V) :
  NoDup (Dict.keys d) -> In (k, v) d -> Dict.get k d = Some v.
Proof.
  induction d as [|[k0 v0] r IH]; simpl; [tauto|].
  intros Hnd [Heq|Hin].
  - inversion Heq; subst. now rewrite String.eqb_refl.
  - inversion Hnd as [|? ? Hnotin Hnd']; subst.
    destruct (String.eqb_spec k0 k) as [->|Hk]; auto.
    exfalso. apply Hnotin. unfold Dict.keys.
    change k with (fst (k, v)). now apply in_map.
Qed.

End DictFacts.

(** ** The grouping loop *)

Lemma events_of_snoc (c : string) (seen : list Detection) (d : Detection) :
  events_of c (seen ++ [d])
  = events_of c seen ++ (if String.eqb (class_name d) c then [d] else []).
Proof.
  unfold events_of. rewrite filter_app. simpl.
  now destruct (String.eqb (class_name d) c).
Qed.

Lemma events_of_in (c : string) (detections : list Detection) :
  events_of c detections <> [] <-> In c (map class_name detections).
Proof.
  unfold events_of. induction detections as [|d r IH]; simpl.
  - tauto.
  - destruct (String.eqb_spec (class_name d) c) as [->|Hne].
    + split; [auto | discriminate].
    + rewrite IH. tauto.
Qed.

Lemma nonempty_map_snoc {A B} (f : list A -> B) (l : list A) (a : A) :
  nonempty_map f (l ++ [a]) = Some (f (l ++ [a])).
Proof. destruct l; reflexivity. Qed.

Lemma grouped_nil : grouped [] [] [].
Proof.
  repeat split; simpl; auto. constructor.
Qed.

Lemma group_detections_step (seen : list Detection) (d : Detection)
  (rest : list Detection) (counts : Dict.t nat) (confs : Dict.t (list Q)) :
  grouped seen counts confs ->
  exists counts' confs',
    group_detections (d :: rest) counts confs
    = group_detections rest counts' confs' /\
    grouped (seen ++ [d]) counts' confs'.
Proof.
  intros (Hkeys & Hnd & Hget).
  set (c := class_name d).
  destruct (Hget c) as [Hc1 Hc2].
  simpl. fold c. unfold Dict.mem.
  destruct (events_of c seen) as [|e evs] eqn:Hev; simpl in Hc1, Hc2.
  - (* a class seen for the first time *)
    rewrite Hc1. simpl. unfold Dict.getitem.
    rewrite !dict_get_set_same. simpl.
    eexists _, _. split; [reflexivity|].
    assert (Hc2' : Dict.get c confs = None) by exact Hc2.
    repeat split.
    + rewrite (dict_keys_set_old c _ (Dict.set c 0 counts))
        by (rewrite dict_get_set_same; discriminate).
      rewrite (dict_keys_set_old c _ (Dict.set c [] confs))
        by (rewrite dict_get_set_same; discriminate).
      rewrite (dict_keys_set_new c _ counts) by assumption.
      rewrite (dict_keys_set_new c _ confs) by assumption.
      now rewrite Hkeys.
    + rewrite dict_keys_set_old by (rewrite dict_get_set_same; discriminate).
      rewrite dict_keys_set_new by assumption.
      apply NoDup_app;
        [assumption | constructor; [simpl; tauto | constructor] |].
      intros x Hx [<-|[]]. apply dict_get_none_keys in Hc1. tauto.
    + rewrite events_of_snoc.
      destruct (String.eqb_spec (class_name d) c0) as [Heq|Hne].
      * fold c in Heq. subst c0. rewrite Hev. simpl.
        now rewrite dict_get_set_same.
      * rewrite app_nil_r. fold c in Hne.
        rewrite !dict_get_set_other by assumption. apply Hget.
    + rewrite events_of_snoc.
      destruct (String.eqb_spec (class_name d) c0) as [Heq|Hne].
      * fold c in Heq. subst c0. rewrite Hev. simpl.
        now rewrite dict_get_set_same.
      * rewrite app_nil_r. fold c in Hne.
        rewrite !dict_get_set_other by assumption. apply Hget.
  - (* a class seen before *)
    rewrite Hc1. simpl. unfold Dict.getitem. rewrite Hc1, Hc2. simpl.
    eexists _, _. split; [reflexivity|].
    repeat split.
    + rewrite (dict_keys_set_old c _ counts) by congruence.
      rewrite (dict_keys_set_old c _ confs) by congruence. assumption.
    + rewrite dict_keys_set_old by congruence. assumption.
    + rewrite events_of_snoc.
      destruct (String.eqb_spec (class_name d) c0) as [Heq|Hne].
      * fold c in Heq. subst c0. rewrite Hev.
        rewrite dict_get_set_same, nonempty_map_snoc.
        f_equal. rewrite length_app. simpl. lia.
      * rewrite app_nil_r. fold c in Hne.
        rewrite dict_get_set_other by assumption. apply Hget.
    + rewrite events_of_snoc.
      destruct (String.eqb_spec (class_name d) c0) as [Heq|Hne].
      * fold c in Heq. subst c0. rewrite Hev.
        rewrite dict_get_set_same, nonempty_map_snoc.
        f_equal. now rewrite map_app.
      * rewrite app_nil_r. fold c in Hne.
        rewrite dict_get_set_other by assumption. apply Hget.
Qed.

Lemma group_detections_grouped (detections seen : list Detection)
  (counts : Dict.t nat) (confs : Dict.t (list Q)) :
  grouped seen counts confs ->
  exists counts' confs',
    group_detections detections counts confs = Ok (counts', confs') /\
    grouped (seen ++ detections) counts' confs'.
Proof.
  revert seen counts confs.
  induction detections as [|d rest IH]; intros seen counts confs Hg.
  - exists counts, confs. rewrite app_nil_r. now split.
  - destruct (group_detections_step seen d rest counts confs Hg)
      as (counts1 & confs1 & Hstep & Hg1).
    destruct (IH _ _ _ Hg1) as (counts' & confs' & Hrun & Hg').
    exists counts', confs'. rewrite Hstep, Hrun.
    split; [reflexivity|]. now rewrite <- app_assoc in Hg'.
Qed.

(** ** [max], [sum] and the first event of a class *)

Lemma py_gt_false (x y : Q) : Py.gt x y = false -> (x <= y)%Q.
Proof.
  unfold Py.gt. intros H. apply negb_false_iff in H.
  now apply Qle_bool_iff.
Qed.

Lemma py_gt_true (x y : Q) : Py.gt x y = true -> (y < x)%Q.
Proof.
  unfold Py.gt. intros H. apply negb_true_iff in H.
  apply Qnot_le_lt. intros Hle.
  apply Qle_bool_iff in Hle. congruence.
Qed.

Lemma fold_max_bounds (l : list Q) (m0 : Q) :
  let m := fold_left (fun m y => if Py.gt y m then y else m) l m0 in
  (m = m0 \/ In m l) /\ (m0 <= m)%Q /\ forall q, In q l -> (q <= m)%Q.
Proof.
  revert m0. induction l as [|x r IH]; intros m0; simpl.
  - repeat split; [now left | apply Qle_refl | tauto].
  - destruct (Py.gt x m0) eqn:E.
    + destruct (IH x) as (Hin & Hle & Hall). repeat split.
      * destruct Hin as [->|Hin]; auto.
      * apply Qle_trans with x; [|assumption].
        apply Qlt_le_weak. now apply py_gt_true.
      * intros q [<-|Hq]; auto.
    + destruct (IH m0) as (Hin & Hle & Hall). repeat split.
      * destruct Hin as [->|Hin]; auto.
      * assumption.
      * intros q [<-|Hq]; auto.
        apply Qle_trans with m0; [|assumption]. now apply py_gt_false.
Qed.

Lemma py_max_spec (l : list Q) :
  l <> [] ->
  exists m, Py.max l = Ok m /\ In m l /\ forall q, In q l -> (q <= m)%Q.
Proof.
  destruct l as [|x r]; [congruence|]. intros _.
  destruct (fold_max_bounds r x) as (Hin & Hle & Hall).
  eexists. split; [reflexivity|]. split.
  - destruct Hin as [->|Hin]; [now left | now right].
  - intros q [<-|Hq]; auto.
Qed.

Lemma find_hd_filter {A} (f : A -> bool) (l : list A) :
  find f l = hd_error (filter f l).
Proof.
  induction l as [|a r IH]; simpl; auto.
  now destruct (f a).
Qed.

Lemma first_class_id_spec (detections : list Detection) (c : string) :
  events_of c detections <> [] ->
  exists cid,
    first_class_id detections c = Ok cid /\
    hd_error (map class_id (events_of c detections)) = Some cid.
Proof.
  unfold first_class_id, events_of. rewrite find_hd_filter.
  destruct (filter _ detections) as [|d r]; [congruence|]. intros _.
  exists (class_id d). now split.
Qed.

(** ** Sums of floats *)

Section Accuracy.

Local Open Scope Q_scope.

Lemma Qn_S (n : nat) : Qn (S n) == Qn n + 1.
Proof.
  unfold Qn. rewrite Nat2Z.inj_succ. unfold Z.succ.
  now rewrite inject_Z_plus.
Qed.

Lemma Qn_nonneg (n : nat) : 0 <= Qn n.
Proof.
  unfold Qn. change 0 with (inject_Z 0). rewrite <- Zle_Qle. lia.
Qed.

Lemma Qn_le (k n : nat) : (k <= n)%nat -> Qn k <= Qn n.
Proof. intros H. unfold Qn. rewrite <- Zle_Qle. lia. Qed.

Lemma Qn_odd (n : nat) : Qn (2 * n + 1) == 2 * Qn n + 1.
Proof.
  unfold Qn. rewrite Nat2Z.inj_add, Nat2Z.inj_mul.
  rewrite inject_Z_plus, inject_Z_mult. reflexivity.
Qed.

Lemma Qn_pos (n : nat) : (0 < n)%nat -> 0 < Qn n.
Proof.
  intros H. unfold Qn. change 0 with (inject_Z 0). rewrite <- Zlt_Qlt. lia.
Qed.

Lemma total_bounds (l : list Q) :
  Forall in_unit l -> 0 <= total l /\ total l <= Qn (length l).
Proof.
  induction 1 as [|x r [Hx0 Hx1] _ [IH0 IH1]]; simpl.
  - split; [apply Qle_refl | apply Qn_nonneg].
  - pose proof (Qn_S (length r)). split; lra.
Qed.

Lemma part_of_bound (k n : nat) (delta : Q) :
  (k <= n)%nat -> 0 <= delta -> delta <= 1 ->
  0 <= Qn k * delta /\ Qn k * delta <= Qn n.
Proof.
  intros Hk H0 H1. pose proof (Qn_nonneg k) as Hk0.
  pose proof (Qn_le k n Hk) as Hkn. split.
  - now apply Qmult_le_0_compat.
  - apply Qle_trans with (Qn k * 1); [|lra].
    rewrite !(Qmult_comm (Qn k)). now apply Qmult_le_compat_r.
Qed.

Lemma fold_sum_close (fl : Q -> Q) (delta : Q) (n : nat) :
  0 <= delta -> delta <= 1 ->
  float_accurate fl (Qn (2 * n + 1)) delta ->
  forall (l : list Q) (acc S : Q) (k : nat),
    Forall in_unit l -> (k + length l <= n)%nat ->
    within (Qn k * delta) acc S -> 0 <= S -> S <= Qn k ->
    within (Qn (k + length l) * delta)
      (fold_left (fun acc x => fl (acc + x)) l acc) (S + total l).
Proof.
  intros H0 H1 Hfl.
  induction l as [|x r IH]; intros acc S k Hl Hn [Hlo Hhi] HS0 HSk.
  - simpl. rewrite Nat.add_0_r. split; lra.
  - inversion Hl as [|? ? [Hx0 Hx1] Hr]; subst. simpl in Hn.
    cbn [fold_left total length].
    replace (k + Datatypes.S (length r))%nat
      with (Datatypes.S k + length r)%nat by lia.
    destruct (part_of_bound k n delta ltac:(lia) H0 H1) as [Hp0 Hpn].
    pose proof (Qn_odd n) as Hodd. pose proof (Qn_le k n ltac:(lia)) as Hkn.
    pose proof (Qn_nonneg k) as Hk0.
    destruct (Hfl (acc + x)) as [Hflo Hfhi]; [lra | lra |].
    assert (HSk' : Qn (Datatypes.S k) * delta == Qn k * delta + delta).
    { rewrite Qn_S. ring. }
    pose proof (Qn_S k) as HkS.
    destruct (IH (fl (acc + x)) (S + x) (Datatypes.S k) Hr ltac:(lia))
      as [Ilo Ihi]; [split; lra | lra | lra |].
    split; lra.
Qed.

Lemma py_sum_close (fl : Q -> Q) (delta : Q) (l : list Q) :
  0 <= delta -> delta <= 1 ->
  float_accurate fl (Qn (2 * length l + 1)) delta ->
  Forall in_unit l ->
  within (Qn (length l) * delta) (Py.sum fl l) (total l).
Proof.
  intros H0 H1 Hfl Hl. unfold Py.sum.
  destruct (fold_sum_close fl delta (length l) H0 H1 Hfl l 0 0 0%nat Hl
              ltac:(lia)) as [Hlo Hhi].
  - change (Qn 0) with 0. split; lra.
  - lra.
  - change (Qn 0) with 0. lra.
  - simpl in Hlo, Hhi. split; lra.
Qed.

(** The float mean is within two roundings of the arithmetic mean, and
    not larger than 3 in size. *)
Lemma py_mean_close (fl : Q -> Q) (delta : Q) (l : list Q) :
  l <> [] -> 0 <= delta -> delta <= 1 ->
  float_accurate fl (Qn (2 * length l + 1)) delta ->
  Forall in_unit l ->
  let a := fl (Py.sum fl l / Qn (length l)) in
  within (2 * delta) a (mean l) /\ - (3) <= a /\ a <= 3.
Proof.
  intros Hne H0 H1 Hfl Hl a. subst a. unfold mean.
  set (n := length l) in *.
  assert (Hn : 0 < Qn n).
  { apply Qn_pos. subst n. destruct l; [congruence | simpl; lia]. }
  destruct (py_sum_close fl delta l H0 H1 Hfl Hl) as [Hlo Hhi]. fold n in Hlo, Hhi.
  destruct (total_bounds l Hl) as [HT0 HTn]. fold n in HTn.
  destruct (part_of_bound n n delta (Nat.le_refl n) H0 H1) as [Hp0 Hpn].
  pose proof (Qn_odd n) as Hodd.
  set (s := Py.sum fl l) in *. set (T := total l) in *.
  assert (Hq1 : s / Qn n - T / Qn n <= delta).
  { setoid_replace (s / Qn n - T / Qn n) with ((s - T) / Qn n)
      by (field; lra).
    apply Qle_shift_div_r; [exact Hn | lra]. }
  assert (Hq2 : - delta <= s / Qn n - T / Qn n).
  { setoid_replace (s / Qn n - T / Qn n) with ((s - T) / Qn n)
      by (field; lra).
    apply Qle_shift_div_l; [exact Hn | lra]. }
  assert (Hq3 : T / Qn n <= 1).
  { apply Qle_shift_div_r; [exact Hn | lra]. }
  assert (Hq4 : 0 <= T / Qn n).
  { apply Qle_shift_div_l; [exact Hn | lra]. }
  assert (Hn1 : 1 <= Qn n).
  { change 1 with (Qn 1). apply Qn_le. subst n.
    destruct l; [congruence | simpl; lia]. }
  destruct (Hfl (s / Qn n)) as [Hflo Hfhi]; [lra | lra |].
  repeat split; lra.
Qed.

End Accuracy.

(** ** The summary loop *)

Lemma filter_all_none {A} (f : A -> bool) (l : list A) :
  Forall (fun a => f a = false) l -> filter f l = [].
Proof.
  induction 1 as [|a r Ha _ IH]; simpl; auto. now rewrite Ha.
Qed.

Lemma filter_all_kept {A} (f : A -> bool) (l : list A) :
  Forall (fun a => f a = true) l -> filter f l = l.
Proof.
  induction 1 as [|a r Ha _ IH]; simpl; auto. rewrite Ha. now f_equal.
Qed.

Lemma filter_filter_negb {A} (f : A -> bool) (l : list A) :
  filter f (filter (fun a => negb (f a)) l) = [].
Proof.
  apply filter_all_none, Forall_forall. intros a Ha.
  apply filter_In in Ha. destruct Ha as [_ Ha].
  now apply negb_true_iff in Ha.
Qed.

(** The key [unique_photo_class] on a table whose rows of the photo are
    [done]: the name is rejected when one of them has its key. *)
Lemma unique_photo_class (db : Db) (base done : list ObjectSummaryRow)
  (photo_id : nat) (c : string) :
  Forall (fun r => os_photo_id r <> photo_id) base ->
  Forall (fun r => os_photo_id r = photo_id) done ->
  existsb
    (fun r => (os_photo_id r =? photo_id) && sql_eqb db (os_class_name r) c)
    (base ++ done) = true
  <-> In (collation (schema db) c)
        (map (collation (schema db)) (map os_class_name done)).
Proof.
  intros Hbase Hdone. rewrite existsb_app, orb_true_iff.
  rewrite Forall_forall in Hbase, Hdone. split.
  - intros [H|H]; apply existsb_exists in H; destruct H as (r & Hr & Hc);
      apply andb_true_iff in Hc; destruct Hc as (Hid & Hkey).
    + apply Nat.eqb_eq in Hid. now elim (Hbase r Hr).
    + apply String.eqb_eq in Hkey. rewrite <- Hkey.
      apply in_map. now apply in_map.
  - intros H. right. rewrite map_map in H. apply in_map_iff in H.
    destruct H as (r & Hkey & Hr). apply existsb_exists. exists r.
    split; [exact Hr|]. rewrite (Hdone r Hr), Nat.eqb_refl. simpl.
    unfold sql_eqb. rewrite Hkey. apply String.eqb_refl.
Qed.

Lemma summary_rows_spec (w : World) (db : Db) (photo_id : nat)
  (detections : list Detection) (confs : Dict.t (list Q))
  (base : list ObjectSummaryRow) :
  Forall (fun r => os_photo_id r <> photo_id) base ->
  forall (items : list (string * nat)) (done : list ObjectSummaryRow),
    (forall c n, In (c, n) items ->
       events_of c detections <> [] /\
       n = length (events_of c detections) /\
       Dict.get c confs = Some (map confidence (events_of c detections))) ->
    Forall (fun r => os_photo_id r = photo_id) done ->
    NoDup (map (collation (schema db)) (map os_class_name done)) ->
    (NoDup (map (collation (schema db))
              (map os_class_name done ++ map fst items)) ->
     exists rows,
       summary_rows w db photo_id detections items confs (base ++ done)
       = Ok (base ++ done ++ rows) /\
       map os_class_name rows = map fst items /\
       Forall (fun r => os_photo_id r = photo_id) rows /\
       Forall (row_summarises w db detections) rows) /\
    (~ NoDup (map (collation (schema db))
                (map os_class_name done ++ map fst items)) ->
     exists e,
       summary_rows w db photo_id detections items confs (base ++ done)
       = Raise e).
Proof.
  intros Hbase. induction items as [|[c n] rest IH]; intros done H Hdone Hnd.
  - split.
    + intros _. exists []. simpl. rewrite app_nil_r.
      repeat split; constructor.
    + intros Hno. simpl in Hno. rewrite app_nil_r in Hno. contradiction.
  - destruct (H c n (or_introl eq_refl)) as (Hne & Hn & Hconfs).
    assert (Hne' : map confidence (events_of c detections) <> []).
    { destruct (events_of c detections); [congruence | discriminate]. }
    destruct (py_max_spec _ Hne') as (m & Hmax & Hmin & Hmall).
    destruct (first_class_id_spec detections c Hne) as (cid & Hcid & Hhd).
    assert (Hdiv :
      Py.div_len (fl w)
        (Py.sum (fl w) (map confidence (events_of c detections)))
        (map confidence (events_of c detections))
      = Ok (fl w
              (Py.sum (fl w) (map confidence (events_of c detections))
               / Qn (length (map confidence (events_of c detections))))%Q)).
    { unfold Py.div_len.
      destruct (map confidence (events_of c detections)) eqn:E;
        [congruence | reflexivity]. }
    cbn [summary_rows]. unfold Dict.getitem. rewrite Hconfs. cbn [bind].
    rewrite Hdiv. cbn [bind]. rewrite Hmax. cbn [bind]. rewrite Hcid.
    cbn [bind]. unfold insert_summary.
    pose proof (unique_photo_class db base done photo_id c Hbase Hdone)
      as Hkey.
    set (row := mkObjectSummaryRow photo_id c cid n _ _).
    destruct (existsb _ (base ++ done)) eqn:Hex.
    + (* the key rejects the row *)
      assert (Hin : In (collation (schema db) c)
                      (map (collation (schema db)) (map os_class_name done)))
        by now apply Hkey.
      split.
      * intros Hall. exfalso. simpl in Hall.
        rewrite map_app in Hall. apply NoDup_remove_2 in Hall.
        apply Hall. apply in_or_app. now left.
      * intros _. cbn [bind]. eexists. reflexivity.
    + assert (Hnotin : ~ In (collation (schema db) c)
                         (map (collation (schema db))
                            (map os_class_name done))).
      { intros Hin. apply Hkey in Hin. congruence. }
      cbn [bind].
      destruct (IH (done ++ [row])) as (IHok & IHraise).
      { intros c' n' Hin. apply H. now right. }
      { apply Forall_app. split; [exact Hdone | repeat constructor]. }
      { rewrite !map_app. simpl. apply NoDup_app.
        - exact Hnd.
        - repeat constructor. simpl. tauto.
        - intros x Hx [<-|[]]. contradiction. }
      rewrite <- (app_assoc base done [row]).
      assert (Hsame :
        map (collation (schema db))
          (map os_class_name (done ++ [row]) ++ map fst rest)
        = map (collation (schema db))
            (map os_class_name done ++ map fst ((c, n) :: rest))).
      { f_equal. rewrite (map_app os_class_name). simpl.
        now rewrite <- app_assoc. }
      rewrite Hsame in IHok, IHraise.
      split; [|exact IHraise].
      intros Hall. destruct (IHok Hall) as (rows & Hrun & Hnames & Hpid & Hsum).
      exists (row :: rows). rewrite Hrun. split.
      { now rewrite <- !app_assoc. }
      split; [simpl; now rewrite Hnames|].
      split; [constructor; [reflexivity | exact Hpid]|].
      constructor; [|exact Hsum].
      unfold row_summarises, row_counts. cbn [os_class_name os_total_count
        os_class_id os_max_confidence os_avg_confidence row].
      split; [split; [exact Hn | exact Hhd]|]. split.
      * exists m. auto.
      * intros delta eps Hd0 Hd1 Hfl Hdec Hunit.
        rewrite <- (length_map confidence) in Hfl.
        destruct (py_mean_close (fl w) delta _ Hne' Hd0 Hd1 Hfl Hunit)
          as ([Hlo Hhi] & Ha0 & Ha1).
        match goal with
        | |- within _ (decimal_5_4 _ ?a) _ =>
            destruct (Hdec a) as [Dlo Dhi]; [lra | lra |]
        end.
        split; lra.
Qed.

(** ** Replacing the rows of one photo *)

Section ReplaceRows.

Context {R : Type}.
Variable owner : R -> nat.

Lemma replace_rows_same (pid : nat) (old new : list R) :
  Forall (fun r => owner r = pid) new ->
  filter (fun r => owner r =? pid)
    (filter (fun r => negb (owner r =? pid)) old ++ new)
  = new.
Proof.
  intros Hnew. rewrite filter_app.
  rewrite (filter_filter_negb (fun r => owner r =? pid)). simpl.
  apply filter_all_kept. eapply Forall_impl; [|exact Hnew].
  intros r Hr. now apply Nat.eqb_eq.
Qed.

Lemma replace_rows_other (pid other : nat) (old new : list R) :
  other <> pid ->
  Forall (fun r => owner r = pid) new ->
  filter (fun r => owner r =? other)
    (filter (fun r => negb (owner r =? pid)) old ++ new)
  = filter (fun r => owner r =? other) old.
Proof.
  intros Hne Hnew. rewrite filter_app.
  rewrite (filter_all_none (fun r => owner r =? other) new).
  2: { eapply Forall_impl; [|exact Hnew]. intros r Hr. simpl in Hr.
       apply Nat.eqb_neq. congruence. }
  rewrite app_nil_r.
  induction old as [|r l IH]; simpl; auto.
  destruct (owner r =? pid) eqn:E1; simpl.
  - destruct (owner r =? other) eqn:E2; auto.
    apply Nat.eqb_eq in E1, E2. congruence.
  - destruct (owner r =? other); now rewrite IH.
Qed.

Lemma others_not_owned (pid : nat) (old : list R) :
  Forall (fun r => owner r <> pid)
    (filter (fun r => negb (owner r =? pid)) old).
Proof.
  apply Forall_forall. intros r Hr. apply filter_In in Hr.
  destruct Hr as [_ Hr]. apply negb_true_iff in Hr.
  now apply Nat.eqb_neq.
Qed.

End ReplaceRows.

(** ** [add_object_detections] *)

Lemma nodup_map_on {A B} (f : A -> B) (l : list A) :
  NoDup l ->
  (forall x y, In x l -> In y l -> f x = f y -> x = y) ->
  NoDup (map f l).
Proof.
  induction 1 as [|a r Ha Hr IH]; intros Hinj; simpl; constructor.
  - intros Hin. apply in_map_iff in Hin. destruct Hin as (b & Hb & Hin).
    apply Ha. rewrite (Hinj a b); simpl; auto.
  - apply IH. intros x y Hx Hy. apply Hinj; simpl; auto.
Qed.

Lemma nodup_map_apart {A B} (f : A -> B) (l : list A) :
  NoDup (map f l) ->
  forall x y, In x l -> In y l -> f x = f y -> x = y.
Proof.
  induction l as [|a r IH]; simpl; [tauto|].
  intros Hnd x y Hx Hy Hf. inversion Hnd as [|? ? Ha Hr]; subst.
  destruct Hx as [<-|Hx], Hy as [<-|Hy]; auto.
  - exfalso. apply Ha. rewrite Hf. now apply in_map.
  - exfalso. apply Ha. rewrite <- Hf. now apply in_map.
Qed.

(** The grouping loop, run over all the events. *)
Lemma group_detections_run (detections : list Detection) :
  exists counts confs,
    group_detections detections [] [] = Ok (counts, confs) /\
    NoDup (Dict.keys counts) /\
    (forall c, In c (Dict.keys counts) <-> In c (map class_name detections)) /\
    (forall c n, In (c, n) counts ->
       events_of c detections <> [] /\
       n = length (events_of c detections) /\
       Dict.get c confs = Some (map confidence (events_of c detections))).
Proof.
  destruct (group_detections_grouped detections [] [] [] grouped_nil)
    as (counts & confs & Hgroup & Hkeys & Hnd & Hget).
  simpl in Hgroup, Hget. exists counts, confs.
  split; [exact Hgroup|]. split; [exact Hnd|]. split.
  - intros c. split.
    + intros Hin. apply events_of_in. intros E.
      apply (proj1 (dict_get_none_keys c counts)); [|exact Hin].
      destruct (Hget c) as [Hc1 _]. now rewrite Hc1, E.
    + intros Hin. apply events_of_in in Hin.
      destruct (in_dec string_dec c (Dict.keys counts)) as [Hk|Hk]; auto.
      apply dict_get_none_keys in Hk. destruct (Hget c) as [Hc1 _].
      rewrite Hk in Hc1. destruct (events_of c detections); [congruence|].
      discriminate.
  - intros c n Hin.
    pose proof (dict_get_in c n counts Hnd Hin) as Hc.
    destruct (Hget c) as [Hc1 Hc2]. rewrite Hc in Hc1.
    destruct (events_of c detections) as [|e evs] eqn:E;
      simpl in Hc1, Hc2; [discriminate|].
    repeat split; [discriminate | now inversion Hc1 | exact Hc2].
Qed.

Lemma add_object_detections_cases (w : World) (db : Db) (pid : nat)
  (ds : list Detection) :
  (exists e,
     add_object_detections w db pid ds = (Raise e, db) /\
     (db_error w (OpAddObjectDetections pid) = None ->
      ~ ((ds = [] \/ photo_exists db pid = true) /\
         names_told_apart db ds))) \/
  (exists rows,
     add_object_detections w db pid ds
     = (Ok tt, with_detections w db pid ds rows) /\
     db_error w (OpAddObjectDetections pid) = None /\
     (ds = [] \/ photo_exists db pid = true) /\
     names_told_apart db ds /\
     Forall (fun r => os_photo_id r = pid) rows /\
     NoDup (map os_class_name rows) /\
     (forall c, In c (map os_class_name rows) <-> In c (map class_name ds)) /\
     Forall (row_summarises w db ds) rows).
Proof.
  destruct (group_detections_run ds)
    as (counts & confs & Hgroup & Hnd & Hkeys & Hitems).
  unfold add_object_detections, transaction, server. rewrite Hgroup.
  cbn [bind fst snd].
  destruct (db_error w (OpAddObjectDetections pid)) as [e|]; cbn [bind].
  { left. exists e. split; [reflexivity | discriminate]. }
  assert (Hfk :
    (match ds with [] => Ok tt | _ :: _ => foreign_key db pid end = Ok tt /\
     (ds = [] \/ photo_exists db pid = true)) \/
    (exists e,
       match ds with [] => Ok tt | _ :: _ => foreign_key db pid end = Raise e /\
       ~ (ds = [] \/ photo_exists db pid = true))).
  { destruct ds as [|d ds']; [left; auto|]. unfold foreign_key.
    destruct (photo_exists db pid); [left; auto|].
    right. eexists. split; [reflexivity|].
    intros [H|H]; discriminate. }
  destruct Hfk as [[Hfk Hphoto]|(e & Hfk & Hphoto)]; rewrite Hfk; cbn [bind].
  2: { left. exists e. split; [reflexivity|]. intros _ [H _]. tauto. }
  destruct (summary_rows_spec w db pid ds confs
              (filter (fun r => negb (os_photo_id r =? pid))
                 (object_summary db))
              (others_not_owned os_photo_id pid _) counts [] Hitems
              (Forall_nil _) (NoDup_nil _)) as (Hok & Hraise).
  rewrite app_nil_r in Hok, Hraise. cbn [map app] in Hok, Hraise.
  change (map fst counts) with (Dict.keys counts) in Hok, Hraise.
  destruct (ListDec.NoDup_dec string_dec
              (map (collation (schema db)) (Dict.keys counts)))
    as [Hyes|Hno].
  - destruct (Hok Hyes) as (rows & Hrun & Hnames & Hpid & Hsum).
    rewrite Hrun. cbn [bind]. right. exists rows.
    split; [reflexivity|]. split; [reflexivity|]. split; [exact Hphoto|].
    split.
    { intros c1 c2 H1 H2 Hc. apply Hkeys in H1, H2.
      apply String.eqb_eq in Hc.
      exact (nodup_map_apart _ _ Hyes c1 c2 H1 H2 Hc). }
    split; [exact Hpid|]. rewrite Hnames.
    split; [exact Hnd|]. split; [exact Hkeys | exact Hsum].
  - destruct (Hraise Hno) as (e & Hrun). rewrite Hrun. cbn [bind].
    left. exists e. split; [reflexivity|]. intros _ [_ Hapart].
    apply Hno. apply nodup_map_on; [exact Hnd|].
    intros x y Hx Hy Hxy. apply Hapart; [now apply Hkeys.. |].
    unfold sql_eqb. rewrite Hxy. apply String.eqb_refl.
Qed.

Lemma summary_of_with_detections (w : World) (db : Db) (pid : nat)
  (ds : list Detection) (rows : list ObjectSummaryRow) :
  Forall (fun r => os_photo_id r = pid) rows ->
  summary_of pid (with_detections w db pid ds rows) = rows.
Proof.
  intros Hpid. unfold summary_of, with_detections. cbn [object_summary].
  now apply (replace_rows_same os_photo_id).
Qed.

(** C1, as amended. When the server answers, [add_object_detections]
    returns exactly when the photo exists (or there is no event) and the
    collation tells the class names of the events apart; otherwise it
    raises and leaves the catalog as it was. When it returns, the photo
    has exactly one summary row per class name of the events; each row has
    [total_count] equal to the number of events of its class and
    [class_id] equal to the [class_id] of the first event of the class in
    input order; [max_confidence] is their largest confidence as its
    [DECIMAL(5,4)] column rounds it; and [avg_confidence] is within the
    error of the column, plus two float roundings, of the arithmetic mean
    of their confidences. *)
Theorem add_object_detections_summary :
  forall (w : World) (db : Db) (photo_id : nat) (detections : list Detection),
    db_error w (OpAddObjectDetections photo_id) = None ->
    ((detections = [] \/ photo_exists db photo_id = true) /\
     names_told_apart db detections
     <-> exists db',
           add_object_detections w db photo_id detections = (Ok tt, db')) /\
    (forall e db',
       add_object_detections w db photo_id detections = (Raise e, db') ->
       db' = db) /\
    (forall db',
       add_object_detections w db photo_id detections = (Ok tt, db') ->
       NoDup (map os_class_name (summary_of photo_id db')) /\
       (forall c, In c (map os_class_name (summary_of photo_id db'))
                  <-> In c (map class_name detections)) /\
       Forall (row_summarises w db detections) (summary_of photo_id db')).
Proof.
  intros w db photo_id detections Hserver.
  destruct (add_object_detections_cases w db photo_id detections)
    as [(e & Hrun & Hwhy)|(rows & Hrun & _ & Hphoto & Hapart & Hpid & Hnd
                           & Hnames & Hsum)];
    rewrite Hrun.
  - split; [|split].
    + split; [intros H; now elim (Hwhy Hserver) | intros (db' & H)];
        discriminate.
    + intros e' db' H. now inversion H.
    + intros db' H. discriminate.
  - split; [|split].
    + split; [eauto | auto].
    + intros e db' H. discriminate.
    + intros db' H. inversion H; subst db'; clear H.
      rewrite (summary_of_with_detections _ _ _ _ _ Hpid). auto.
Qed.

Lemma add_object_detections_summary_witness :
  let w := Sample.quiet in
  let db := catalog (Sample.after Sample.quiet Sample.start "/photos/a.jpg") in
  let detections := [Sample.person_a; Sample.dog; Sample.person_b] in
  ((detections = [] \/ photo_exists db 1 = true) /\
   names_told_apart db detections
   <-> exists db', add_object_detections w db 1 detections = (Ok tt, db')) /\
  (forall e db',
     add_object_detections w db 1 detections = (Raise e, db') -> db' = db) /\
  (forall db',
     add_object_detections w db 1 detections = (Ok tt, db') ->
     NoDup (map os_class_name (summary_of 1 db')) /\
     (forall c, In c (map os_class_name (summary_of 1 db'))
                <-> In c (map class_name detections)) /\
     Forall (row_summarises w db detections) (summary_of 1 db')).
Proof.
  apply (add_object_detections_summary Sample.quiet
           (catalog (Sample.after Sample.quiet Sample.start "/photos/a.jpg"))
           1 [Sample.person_a; Sample.dog; Sample.person_b]).
  reflexivity.
Defined.

(** C1 as stated fails: two events of one class with the confidences
    0.12344 and 0.12347 leave a summary row whose average and maximum are
    both 0.1235, the four decimals of the column, while the arithmetic
    mean of the two is 0.123455 and the maximum 0.12347. *)
Lemma stored_average_is_rounded :
  let db := catalog (Sample.after Sample.quiet Sample.start "/photos/a.jpg") in
  let confidences := [(12344 # 100000)%Q; (12347 # 100000)%Q] in
  let run :=
    add_object_detections Sample.quiet db 1
      (map (mkDetection "cat" 15) confidences) in
  fst run = Ok tt /\
  map os_avg_confidence (summary_of 1 (snd run)) = [(1235 # 10000)%Q] /\
  map os_max_confidence (summary_of 1 (snd run)) = [(1235 # 10000)%Q] /\
  ~ (1235 # 10000 == mean confidences)%Q /\
  (mean confidences == 123455 # 1000000)%Q /\
  ~ (1235 # 10000 == 12347 # 100000)%Q.
Proof.
  repeat split; try reflexivity; intros H; discriminate H.
Qed.

(** The sample server rounds to the nearest of the numbers with four
    decimals, and a float unit without error is as accurate as any. *)
Lemma round_4_accurate : decimal_accurate Server.round_4 (1 # 20000).
Proof.
  intros x Hlo Hhi. unfold Server.round_4, within.
  destruct (Qle_bool 0 x).
  - pose proof (Qfloor_le (x * 10000 + (1 # 2))) as Hfl.
    pose proof (Qlt_floor (x * 10000 + (1 # 2))) as Hlt.
    rewrite inject_Z_plus in Hlt.
    set (z := Qfloor (x * 10000 + (1 # 2))) in *.
    rewrite (Qmake_Qdiv z 10000).
    change (inject_Z (Z.pos 10000)) with (10000 # 1)%Q.
    change (inject_Z 1) with 1%Q in Hlt.
    assert (E : (inject_Z z / (10000 # 1) == inject_Z z * (1 # 10000))%Q)
      by (field; discriminate).
    rewrite E. split; lra.
  - pose proof (Qfloor_le (- x * 10000 + (1 # 2))) as Hfl.
    pose proof (Qlt_floor (- x * 10000 + (1 # 2))) as Hlt.
    rewrite inject_Z_plus in Hlt.
    set (z := Qfloor (- x * 10000 + (1 # 2))) in *.
    rewrite (Qmake_Qdiv (- z) 10000).
    change (inject_Z (Z.pos 10000)) with (10000 # 1)%Q.
    change (inject_Z 1) with 1%Q in Hlt.
    rewrite inject_Z_opp.
    assert (E : (- inject_Z z / (10000 # 1) == - inject_Z z * (1 # 10000))%Q)
      by (field; discriminate).
    rewrite E. split; lra.
Qed.

Lemma exact_float_accurate (bound : Q) :
  float_accurate (fun x => x) bound 0.
Proof. intros x _ _. split; lra. Qed.

(** On the sample server with an exact float unit a summary row holds
    an average within 0.00005 of the mean. *)
Lemma average_on_the_sample_server (w : World) (db : Db)
  (detections : list Detection) (row : ObjectSummaryRow) :
  (forall x, fl w x = x) ->
  schema db = Server.mysql ->
  Forall in_unit
    (map confidence (events_of (os_class_name row) detections)) ->
  row_summarises w db detections row ->
  within (1 # 20000) (os_avg_confidence row)
    (mean (map confidence (events_of (os_class_name row) detections))).
Proof.
  intros Hfl Hschema Hunit (_ & _ & Havg).
  assert (Hnear : within (2 * 0 + (1 # 20000)) (os_avg_confidence row)
            (mean (map confidence
                     (events_of (os_class_name row) detections)))).
  { apply Havg; try assumption.
    - apply Qle_refl.
    - discriminate.
    - intros x _ _. rewrite Hfl. split; lra.
    - rewrite Hschema. exact round_4_accurate. }
  destruct Hnear as [Hlo Hhi]. split; lra.
Qed.

(** So it is in the sample run. *)
Example stored_average_is_near :
  let db := catalog (Sample.after Sample.quiet Sample.start "/photos/a.jpg") in
  let confidences := [(12344 # 100000)%Q; (12347 # 100000)%Q] in
  let db' :=
    snd (add_object_detections Sample.quiet db 1
           (map (mkDetection "cat" 15) confidences)) in
  Forall (fun row => within (1 # 20000) (os_avg_confidence row)
                       (mean confidences))
    (summary_of 1 db').
Proof.
  repeat constructor; vm_compute; discriminate.
Qed.


(** ** The face matcher *)

Lemma set_known_faces_fold (gallery : list KnownFace) :
  forall (tol : Q) (encodings : list Encoding) (names : list string),
    fold_left
      (fun fp face_data =>
         mkFaceProcessor (tolerance fp)
           (known_face_encodings fp ++ [kf_face_encoding face_data])
           (known_face_names fp ++ [kf_name face_data]))
      gallery (mkFaceProcessor tol encodings names)
    = mkFaceProcessor tol (encodings ++ map kf_face_encoding gallery)
        (names ++ map kf_name gallery).
Proof.
  induction gallery as [|k r IH]; intros tol encodings names; simpl.
  - now rewrite !app_nil_r.
  - rewrite IH. now rewrite <- !app_assoc.
Qed.

Lemma set_known_faces_lists (fp : FaceProcessor) (gallery : list KnownFace) :
  set_known_faces fp gallery
  = mkFaceProcessor (tolerance fp) (map kf_face_encoding gallery)
      (map kf_name gallery).
Proof.
  unfold set_known_faces. now rewrite set_known_faces_fold.
Qed.

Lemma argmin_from_spec (l : list Q) :
  forall (i best : nat) (m : Q),
    best < i ->
    let b := argmin_from l i best m in
    exists mb,
      ((b = best /\ mb = m) \/
       (exists k, b = i + k /\ nth_error l k = Some mb /\ (mb < m)%Q)) /\
      (forall k y, nth_error l k = Some y -> (mb <= y)%Q) /\
      (forall k y, nth_error l k = Some y -> i + k < b -> (mb < y)%Q) /\
      (mb <= m)%Q.
Proof.
  induction l as [|x r IH]; intros i best m Hbest; simpl.
  - exists m. repeat split.
    + now left.
    + intros [|k] y; discriminate.
    + intros [|k] y; discriminate.
    + apply Qle_refl.
  - destruct (Py.gt m x) eqn:E.
    + apply py_gt_true in E.
      destruct (IH (S i) i x (Nat.lt_succ_diag_r i))
        as (mb & H1 & H2 & H3 & H4).
      exists mb. repeat split.
      * right. destruct H1 as [[Hb ->]|(k & Hb & Hk & Hlt)].
        -- exists 0. rewrite Hb, Nat.add_0_r. now repeat split.
        -- exists (S k). rewrite Hb. repeat split; [lia | exact Hk |].
           now apply Qlt_trans with x.
      * intros [|k] y Hy; simpl in Hy.
        -- now inversion Hy; subst.
        -- now apply (H2 k).
      * intros [|k] y Hy Hlt; simpl in Hy.
        -- inversion Hy; subst.
           destruct H1 as [[Hb _]|(k & _ & _ & Hlt')]; [lia | exact Hlt'].
        -- apply (H3 k); [exact Hy | lia].
      * apply Qle_trans with x; [exact H4 | now apply Qlt_le_weak].
    + apply py_gt_false in E.
      destruct (IH (S i) best m (Nat.lt_lt_succ_r _ _ Hbest))
        as (mb & H1 & H2 & H3 & H4).
      exists mb. repeat split.
      * destruct H1 as [Hb|(k & Hb & Hk & Hlt)]; [now left | right].
        exists (S k). rewrite Hb. repeat split; [lia | exact Hk | exact Hlt].
      * intros [|k] y Hy; simpl in Hy.
        -- inversion Hy; subst. now apply Qle_trans with m.
        -- now apply (H2 k).
      * intros [|k] y Hy Hlt; simpl in Hy.
        -- inversion Hy; subst.
           destruct H1 as [[Hb _]|(k & _ & _ & Hlt')]; [lia |].
           now apply Qlt_le_trans with m.
        -- apply (H3 k); [exact Hy | lia].
      * exact H4.
Qed.

Lemma argmin_spec (l : list Q) :
  l <> [] ->
  exists b mb,
    argmin l = Ok b /\ nth_error l b = Some mb /\
    (forall j y, nth_error l j = Some y -> (mb <= y)%Q) /\
    (forall j y, nth_error l j = Some y -> j < b -> (mb < y)%Q).
Proof.
  destruct l as [|x r]; [congruence|]. intros _.
  destruct (argmin_from_spec r 1 0 x Nat.lt_0_1) as (mb & H1 & H2 & H3 & H4).
  exists (argmin_from r 1 0 x), mb. repeat split.
  - destruct H1 as [[-> ->]|(k & -> & Hk & _)]; [reflexivity | exact Hk].
  - intros [|j] y Hy; simpl in Hy.
    + now inversion Hy; subst.
    + now apply (H2 j).
  - intros [|j] y Hy Hlt; simpl in Hy.
    + inversion Hy; subst.
      destruct H1 as [[Hb _]|(k & _ & _ & Hlt')]; [lia | exact Hlt'].
    + apply (H3 j); [exact Hy | lia].
Qed.

Lemma compare_faces_any (w : World) (gallery : list KnownFace) (q : Encoding)
  (tol : Q) :
  existsb (fun b => b)
    (compare_faces w (map kf_face_encoding gallery) q tol)
  = existsb (fun k => Qle_bool (distance w (kf_face_encoding k) q) tol)
      gallery.
Proof.
  unfold compare_faces, face_distance.
  induction gallery as [|k r IH]; simpl; auto. now rewrite IH.
Qed.


(** The distances 0.5, 0.3, 0.7 of the specification: at tolerance 0.6 the
    second entry is chosen with confidence 0.7, at tolerance 0.2 none. *)
Example recognize_sample_match :
  recognize Sample.quiet (Sample.matcher (6 # 10)%Q) []
  = Ok (Some "bob", Some (1 - (3 # 10))%Q).
Proof. reflexivity. Qed.

Example recognize_sample_no_match :
  recognize Sample.quiet (Sample.matcher (2 # 10)%Q) [] = Ok (None, None).
Proof. reflexivity. Qed.

(** ** Detected faces *)

Lemma recognize_all_confidence (w : World) (fp : FaceProcessor)
  (faces : list (Location * Encoding)) :
  forall fds,
    recognize_all w fp faces = Ok fds ->
    Forall (fun fd => face_confidence fd = 1%Q) fds.
Proof.
  induction faces as [|[[[[t r] b] l] e] rest IH]; simpl; intros fds H.
  - inversion H. constructor.
  - destruct (recognize w fp e) as [rec|]; simpl in H; [|discriminate].
    destruct (recognize_all w fp rest) as [fds'|]; simpl in H;
      [|discriminate].
    inversion H; subst. constructor; [reflexivity | now apply IH].
Qed.

(** C10. For every image, every record that [detect_faces_in_image]
    returns has its detection confidence set to the constant 1.0, whatever
    the face engine and the matcher say. *)
Theorem detect_faces_confidence_is_one :
  forall (w : World) (fp : FaceProcessor) (image_path : string),
    Forall (fun fd => face_confidence fd = 1%Q)
      (detect_faces_in_image w fp image_path).
Proof.
  intros w fp image_path. unfold detect_faces_in_image.
  destruct (face_locations w image_path) as [locations|];
    cbn [bind]; [|constructor].
  destruct locations as [|loc locs]; [constructor|].
  destruct (face_encodings w image_path (loc :: locs)) as [encs|];
    cbn [bind]; [|constructor].
  destruct (recognize_all w fp (combine (loc :: locs) encs)) as [fds|] eqn:E;
    [|constructor].
  exact (recognize_all_confidence w fp _ fds E).
Qed.

(** The list is not always empty: one face, found and recognised. *)
Example detect_faces_sample :
  map face_confidence
    (detect_faces_in_image Sample.portrait (Sample.matcher (6 # 10)%Q)
       "/photos/a.jpg")
  = [1%Q].
Proof. reflexivity. Qed.

(** ** The datetime validator *)

(** The examples of the specification. *)
Example validate_sentinel :
  _validate_and_parse_datetime "0000:00:00 00:00:00" = None.
Proof. reflexivity. Qed.

Example validate_ordinary :
  _validate_and_parse_datetime "2023:05:01 10:00:00"
  = Some "2023-05-01T10:00:00".
Proof. reflexivity. Qed.

Example validate_before_range :
  _validate_and_parse_datetime "1899:12:31 00:00:01" = None.
Proof. reflexivity. Qed.

Example validate_zero_year :
  _validate_and_parse_datetime "0000:01:01 10:00:00" = None.
Proof. reflexivity. Qed.

Example validate_unparsable :
  _validate_and_parse_datetime "2023-05-01 10:00:00" = None.
Proof. reflexivity. Qed.

(** The time test is reached only behind the guard
    ['0000' in s or ':00:00:00' in s], which a well-formed midnight value
    does not pass: the space before the time is not a colon. *)
Example midnight_misses_the_guard :
  Py.contains "0000" "2023:05:01 00:00:00"
  || Py.contains ":00:00:00" "2023:05:01 00:00:00" = false.
Proof. reflexivity. Qed.

(** C4. The validator is to return null for a value whose time is
    "00:00:00"; on "2023:05:01 00:00:00" it returns the ISO string
    instead. *)
Theorem validate_midnight_is_accepted :
  _validate_and_parse_datetime "2023:05:01 00:00:00"
  = Some "2023-05-01T00:00:00".
Proof. reflexivity. Qed.

(** ** What the catalog methods leave alone *)

Lemma find_map_stable {A} (f : A -> bool) (g : A -> A) (l : list A) :
  (forall a, f (g a) = f a) -> find f (map g l) = option_map g (find f l).
Proof.
  intros Hfg. induction l as [|a r IH]; simpl; auto.
  rewrite Hfg. now destruct (f a).
Qed.

Lemma find_app_some {A} (f : A -> bool) (l l' : list A) (a : A) :
  find f l = Some a -> find f (l ++ l') = Some a.
Proof.
  induction l as [|x r IH]; simpl; [discriminate|].
  destruct (f x); auto.
Qed.

Lemma find_app_none {A} (f : A -> bool) (l l' : list A) :
  find f l = None -> find f (l ++ l') = find f l'.
Proof.
  induction l as [|x r IH]; simpl; auto.
  destruct (f x); [discriminate | auto].
Qed.

Lemma update_photo_path (db : Db) (p n : string) (m : FileMeta) (y : string)
  (r : PhotoRow) :
  ph_file_path (update_photo db p n m y r) = ph_file_path r.
Proof. unfold update_photo. now destruct (sql_eqb db (ph_file_path r) p). Qed.

Lemma update_photo_id (db : Db) (p n : string) (m : FileMeta) (y : string)
  (r : PhotoRow) :
  ph_id (update_photo db p n m y r) = ph_id r.
Proof. unfold update_photo. now destruct (sql_eqb db (ph_file_path r) p). Qed.

Lemma update_photo_processed_at (db : Db) (p n : string) (m : FileMeta)
  (y : string) (r : PhotoRow) :
  ph_processed_at (update_photo db p n m y r) = ph_processed_at r.
Proof. unfold update_photo. now destruct (sql_eqb db (ph_file_path r) p). Qed.

Lemma set_processed_at_path (pid t : nat) (r : PhotoRow) :
  ph_file_path (set_processed_at pid t r) = ph_file_path r.
Proof. unfold set_processed_at. now destruct (ph_id r =? pid). Qed.

Lemma set_processed_at_id (pid t : nat) (r : PhotoRow) :
  ph_id (set_processed_at pid t r) = ph_id r.
Proof. unfold set_processed_at. now destruct (ph_id r =? pid). Qed.

Lemma sql_eqb_refl (db : Db) (a : string) : sql_eqb db a a = true.
Proof. apply String.eqb_refl. Qed.

Lemma sql_eqb_sym (db : Db) (a b : string) : sql_eqb db a b = sql_eqb db b a.
Proof. apply String.eqb_sym. Qed.

Lemma sql_eqb_trans (db : Db) (a b c : string) :
  sql_eqb db a b = true -> sql_eqb db b c = true -> sql_eqb db a c = true.
Proof.
  unfold sql_eqb. rewrite !String.eqb_eq. congruence.
Qed.

(** Comparing with one of two equal texts is comparing with the other. *)
Lemma sql_eqb_same (db : Db) (a b c : string) :
  sql_eqb db a b = true -> sql_eqb db c a = sql_eqb db c b.
Proof.
  unfold sql_eqb. rewrite String.eqb_eq. now intros ->.
Qed.

(** A catalog with the schema and the photo rows of another, up to the
    columns the lookups do not read, answers the lookups alike. *)
Lemma find_photo_stable (db db' : Db) (f : PhotoRow -> PhotoRow) (q : string) :
  schema db' = schema db ->
  photos db' = map f (photos db) ->
  (forall r, ph_file_path (f r) = ph_file_path r) ->
  find_photo q db' = option_map f (find_photo q db).
Proof.
  intros Hs Hp Hf. unfold find_photo, sql_eqb. rewrite Hs, Hp.
  apply find_map_stable. intros a. now rewrite Hf.
Qed.

Lemma find_photo_rebuilt (db : Db) (f : PhotoRow -> PhotoRow) (q : string)
  (e : list ExifRow) (od : list ObjectDetectionRow)
  (os : list ObjectSummaryRow) (fd : list FaceDetectionRow)
  (fs : list FaceSummaryRow) (n : nat) :
  (forall r, ph_file_path (f r) = ph_file_path r) ->
  find_photo q (mkDb (map f (photos db)) e od os fd fs n (schema db))
  = option_map f (find_photo q db).
Proof. now apply find_photo_stable. Qed.

Lemma photo_exists_map (db db' : Db) (f : PhotoRow -> PhotoRow) (q : nat) :
  photos db' = map f (photos db) ->
  (forall r, ph_id (f r) = ph_id r) ->
  photo_exists db' q = photo_exists db q.
Proof.
  intros Hp Hf. unfold photo_exists. rewrite Hp. clear Hp.
  induction (photos db) as [|r l IH]; simpl; [reflexivity|].
  now rewrite Hf, IH.
Qed.

(** What [add_photo] does when it returns. *)
Lemma add_photo_ok (w : World) (db : Db) (p model : string) (pid : nat)
  (db' : Db) :
  add_photo w db p model = (Ok pid, db') ->
  object_detections db' = object_detections db /\
  object_summary db' = object_summary db /\
  face_detections db' = face_detections db /\
  face_summary db' = face_summary db /\
  exif_data db'
  = match extract_exif_data w p with
    | Some fields =>
        filter (fun r => negb (ex_photo_id r =? pid)) (exif_data db)
        ++ [mkExifRow pid fields]
    | None => exif_data db
    end /\
  photo_id_of p db' = Some pid /\
  (forall x, photo_id_of p db = Some x -> x = pid) /\
  (forall q, processed q db = true -> processed q db' = true).
Proof.
  unfold add_photo, transaction, server, photo_id_of, processed.
  destruct (read_image w p) as [m|e]; cbn [bind]; [|discriminate].
  destruct (db_error w (OpAddPhoto p)) as [e|]; cbn [bind]; [discriminate|].
  destruct (find_photo p db) as [existing|] eqn:Hfind; intros H;
    inversion H; subst; clear H; cbn [photos exif_data object_detections
      object_summary face_detections face_summary];
    repeat (split; [reflexivity|]).
  - repeat split.
    + rewrite find_photo_rebuilt by apply update_photo_path.
      rewrite Hfind. simpl. now rewrite update_photo_id.
    + intros x Hx. now inversion Hx.
    + intros q.
      rewrite find_photo_rebuilt by apply update_photo_path.
      destruct (find_photo q db) as [row|]; simpl; [|discriminate].
      now rewrite update_photo_processed_at.
  - unfold find_photo in *. unfold sql_eqb in *. cbn [photos schema].
    repeat split.
    + rewrite (find_app_none _ _ _ Hfind). simpl.
      now rewrite String.eqb_refl.
    + discriminate.
    + intros q.
      destruct (find _ (photos db)) as [row|] eqn:Hq in |- *; [|discriminate].
      now rewrite (find_app_some _ _ _ _ Hq).
Qed.

(** [add_photo] keeps the schema, and the photo it returns has a row. *)
Lemma add_photo_schema (w : World) (db : Db) (p model : string)
  (r : result nat) (db' : Db) :
  add_photo w db p model = (r, db') -> schema db' = schema db.
Proof.
  unfold add_photo, transaction, server.
  destruct (read_image w p) as [m|e]; cbn [bind];
    [|intros H; now inversion H].
  destruct (db_error w (OpAddPhoto p)) as [e|]; cbn [bind];
    [intros H; now inversion H|].
  destruct (find_photo p db); intros H; now inversion H.
Qed.

Lemma find_some_exists (db : Db) (p : string) (row : PhotoRow) :
  find_photo p db = Some row -> photo_exists db (ph_id row) = true.
Proof.
  unfold find_photo, photo_exists. intros H. apply find_some in H.
  apply existsb_exists. exists row. split; [tauto | apply Nat.eqb_refl].
Qed.

Lemma add_photo_exists (w : World) (db : Db) (p model : string) (pid : nat)
  (db' : Db) :
  add_photo w db p model = (Ok pid, db') -> photo_exists db' pid = true.
Proof.
  intros H. destruct (add_photo_ok _ _ _ _ _ _ H)
    as (_ & _ & _ & _ & _ & Hid & _).
  unfold photo_id_of in Hid.
  destruct (find_photo p db') as [row|] eqn:Hfind; [|discriminate].
  simpl in Hid. inversion Hid; subst. exact (find_some_exists _ _ _ Hfind).
Qed.

(** [add_photo] leaves the catalog as it was when it raises. *)
Lemma add_photo_raise (w : World) (db : Db) (p model : string) (e : exn)
  (db' : Db) :
  add_photo w db p model = (Raise e, db') -> db' = db.
Proof.
  unfold add_photo, transaction.
  destruct (let* m := read_image w p in _) as [[pid d]|e']; intros H;
    now inversion H.
Qed.

Lemma add_object_detections_raise (w : World) (db : Db) (pid : nat)
  (detections : list Detection) (e : exn) (db' : Db) :
  add_object_detections w db pid detections = (Raise e, db') -> db' = db.
Proof.
  unfold add_object_detections, transaction.
  destruct (let* grouped := group_detections detections [] [] in _)
    as [[u d]|e']; intros H; now inversion H.
Qed.

(** The catalog [add_object_detections] leaves when it returns. *)
Lemma add_object_detections_shape (w : World) (db : Db) (pid : nat)
  (detections : list Detection) (u : unit) (db' : Db) :
  add_object_detections w db pid detections = (Ok u, db') ->
  exists rows,
    db' = with_detections w db pid detections rows /\
    (detections = [] \/ photo_exists db pid = true) /\
    Forall (fun r => os_photo_id r = pid) rows /\
    NoDup (map os_class_name rows) /\
    (forall c, In c (map os_class_name rows)
               <-> In c (map class_name detections)) /\
    Forall (row_summarises w db detections) rows.
Proof.
  intros H.
  destruct (add_object_detections_cases w db pid detections)
    as [(e & Hrun & _)|(rows & Hrun & _ & Hphoto & _ & Hpid & Hnd & Hnames
                        & Hsum)];
    rewrite Hrun in H; [discriminate|].
  inversion H; subst db'. exists rows. auto 10.
Qed.

Lemma find_photo_with_detections (w : World) (db : Db) (pid : nat)
  (ds : list Detection) (rows : list ObjectSummaryRow) (q : string) :
  find_photo q (with_detections w db pid ds rows)
  = option_map (set_processed_at pid (now w)) (find_photo q db).
Proof.
  apply find_photo_stable; [reflexivity | reflexivity |].
  intros r. apply set_processed_at_path.
Qed.

(** What [add_object_detections] does when it returns. *)
Lemma add_object_detections_ok (w : World) (db : Db) (pid : nat)
  (detections : list Detection) (u : unit) (db' : Db) :
  add_object_detections w db pid detections = (Ok u, db') ->
  exif_data db' = exif_data db /\
  face_detections db' = face_detections db /\
  face_summary db' = face_summary db /\
  (forall q, photo_id_of q db' = photo_id_of q db) /\
  (forall q, processed q db = true -> processed q db' = true) /\
  NoDup (map os_class_name (summary_of pid db')) /\
  (forall c, In c (map os_class_name (summary_of pid db'))
             <-> In c (map class_name detections)) /\
  Forall (row_summarises w db detections) (summary_of pid db').
Proof.
  intros H.
  destruct (add_object_detections_shape _ _ _ _ _ _ H)
    as (rows & -> & _ & Hpid & Hnd & Hnames & Hsum).
  rewrite (summary_of_with_detections _ _ _ _ _ Hpid).
  repeat (split; [reflexivity|]).
  split; [|split; [|auto]].
  - intros q. unfold photo_id_of. rewrite find_photo_with_detections.
    destruct (find_photo q db) as [row|]; simpl; auto.
    now rewrite set_processed_at_id.
  - intros q. unfold processed. rewrite find_photo_with_detections.
    destruct (find_photo q db) as [row|]; simpl; auto.
    unfold set_processed_at. now destruct (ph_id row =? pid).
Qed.

Lemma add_object_detections_schema (w : World) (db : Db) (pid : nat)
  (detections : list Detection) (r : result unit) (db' : Db) :
  add_object_detections w db pid detections = (r, db') ->
  schema db' = schema db /\
  (forall q, photo_exists db' q = photo_exists db q).
Proof.
  destruct r as [u|e]; intros H.
  - destruct (add_object_detections_shape _ _ _ _ _ _ H) as (rows & -> & _).
    split; [reflexivity|]. intros q.
    apply (photo_exists_map _ _ (set_processed_at pid (now w)));
      [reflexivity | intros r; apply set_processed_at_id].
  - now rewrite (add_object_detections_raise _ _ _ _ _ _ H).
Qed.

Lemma add_face_detections_raise (w : World) (db : Db) (pid : nat)
  (faces : list FaceDetection) (e : exn) (db' : Db) :
  add_face_detections w db pid faces = (Raise e, db') -> db' = db.
Proof.
  unfold add_face_detections, transaction.
  destruct (let* _ := server w (OpAddFaceDetections pid) in _)
    as [[u d]|e']; intros H; now inversion H.
Qed.

(** [add_face_detections] returns exactly when the server answers and the
    photo has a row. *)
Lemma add_face_detections_cases (w : World) (db : Db) (pid : nat)
  (faces : list FaceDetection) :
  (exists e,
     add_face_detections w db pid faces = (Raise e, db) /\
     (db_error w (OpAddFaceDetections pid) = None ->
      photo_exists db pid = false)) \/
  (add_face_detections w db pid faces
   = (Ok tt,
      mkDb (photos db) (exif_data db) (object_detections db)
        (object_summary db)
        (filter (fun r => negb (fd_photo_id r =? pid)) (face_detections db)
         ++ map (fun d => mkFaceDetectionRow pid (stored_face db d)) faces)
        (filter (fun r => negb (fs_photo_id r =? pid)) (face_summary db)
         ++ [mkFaceSummaryRow pid (length faces)
               (length (filter has_recognized_name faces))
               (length faces - length (filter has_recognized_name faces))])
        (next_photo_id db) (schema db)) /\
   db_error w (OpAddFaceDetections pid) = None /\
   photo_exists db pid = true).
Proof.
  unfold add_face_detections, transaction, server, foreign_key.
  destruct (db_error w (OpAddFaceDetections pid)) as [e|]; cbn [bind].
  { left. exists e. split; [reflexivity | discriminate]. }
  destruct (photo_exists db pid); cbn [bind].
  - right. auto.
  - left. eexists. split; reflexivity.
Qed.

(** What [add_face_detections] does when it returns. *)
Lemma add_face_detections_ok (w : World) (db : Db) (pid : nat)
  (faces : list FaceDetection) (u : unit) (db' : Db) :
  add_face_detections w db pid faces = (Ok u, db') ->
  photos db' = photos db /\
  exif_data db' = exif_data db /\
  object_detections db' = object_detections db /\
  object_summary db' = object_summary db /\
  face_summary_of pid db'
  = [mkFaceSummaryRow pid (length faces)
       (length (filter has_recognized_name faces))
       (length faces - length (filter has_recognized_name faces))].
Proof.
  intros H.
  destruct (add_face_detections_cases w db pid faces)
    as [(e & Hrun & _)|(Hrun & _)]; rewrite Hrun in H; [discriminate|].
  inversion H; subst; clear H. cbn.
  repeat (split; [reflexivity|]).
  unfold face_summary_of. cbn [face_summary].
  rewrite filter_app, filter_filter_negb. simpl.
  now rewrite Nat.eqb_refl.
Qed.

Lemma add_face_detections_schema (w : World) (db : Db) (pid : nat)
  (faces : list FaceDetection) (r : result unit) (db' : Db) :
  add_face_detections w db pid faces = (r, db') ->
  schema db' = schema db /\ photos db' = photos db.
Proof.
  intros H.
  destruct (add_face_detections_cases w db pid faces)
    as [(e & Hrun & _)|(Hrun & _)]; rewrite Hrun in H;
    inversion H; subst; auto.
Qed.

(** ** EXIF records *)



(** In that run the record of the first ingestion is gone and the record
    of the second is the only one of the photo. *)
Example add_photo_replaces_exif_sample :
  let db :=
    snd (add_photo Sample.tagged empty_db "/photos/a.jpg" "yolov8n.pt") in
  let db' :=
    snd (add_photo Sample.retagged db "/photos/a.jpg" "yolov8n.pt") in
  exif_data db = [mkExifRow 1 Sample.canon] /\
  exif_data db' = [mkExifRow 1 Sample.nikon].
Proof. split; reflexivity. Qed.


(** ** Single-file processing *)

(** The steps behind a call of [process_single_image] that returns. *)
Lemma process_single_image_ok (w : World) (self : YOLOProcessor)
  (st : State) (p : string) (conf : Q) (r : ImageResult) (st' : State) :
  process_single_image w self st p conf = (Ok r, st') ->
  exists pid db1 detections db2 db3,
    add_photo w (catalog st) p (model_name self) = (Ok pid, db1) /\
    yolo w p conf = Ok detections /\
    store_if_any detections (add_object_detections w db1 pid) db1
    = (Ok tt, db2) /\
    store_if_any (detect_faces_in_image w (face_processor self) p)
      (add_face_detections w db2 pid) db2
    = (Ok tt, db3) /\
    r = mkImageResult pid p (length detections)
          (length (detect_faces_in_image w (face_processor self) p))
          detections (detect_faces_in_image w (face_processor self) p) /\
    catalog st' = db3.
Proof.
  unfold process_single_image. cbn [logged with_catalog catalog calls].
  destruct (add_photo w (catalog st) p (model_name self)) as [[pid|e] db1]
    eqn:Hadd; [|discriminate].
  destruct (yolo w p conf) as [detections|e] eqn:Hyolo; [|discriminate].
  destruct (store_if_any detections _ db1) as [[[]|e] db2] eqn:Hobjects;
    [|discriminate].
  destruct (store_if_any (detect_faces_in_image _ _ _) _ db2)
    as [[[]|e] db3] eqn:Hfaces; [|discriminate].
  intros H. inversion H; subst; clear H.
  exists pid, db1, detections, db2, db3. repeat split; assumption.
Qed.

(** The calls a run adds are all about its own path. *)
Lemma process_single_image_calls (w : World) (self : YOLOProcessor)
  (st : State) (p : string) (conf : Q) :
  exists added,
    calls (snd (process_single_image w self st p conf)) = calls st ++ added /\
    Forall (fun c => call_path c = p) added.
Proof.
  unfold process_single_image. cbn [logged with_catalog catalog calls].
  destruct (add_photo w (catalog st) p (model_name self)) as [[pid|e] db1].
  2: { eexists. split; [reflexivity|]. repeat constructor. }
  destruct (yolo w p conf) as [detections|e].
  2: { eexists. cbn. rewrite <- app_assoc. split; [reflexivity|].
       repeat constructor. }
  destruct (store_if_any detections _ db1) as [[[]|e] db2].
  2: { eexists. cbn. rewrite <- app_assoc. split; [reflexivity|].
       repeat constructor. }
  destruct (store_if_any (detect_faces_in_image _ _ _) _ db2)
    as [[[]|e] db3]; eexists; cbn; rewrite <- !app_assoc;
    (split; [reflexivity|]); repeat constructor.
Qed.

(** The path in the result of a run that returns is the path given. *)
Lemma process_single_image_path (w : World) (self : YOLOProcessor)
  (st : State) (p : string) (conf : Q) (r : ImageResult) (st' : State) :
  process_single_image w self st p conf = (Ok r, st') -> ir_file_path r = p.
Proof.
  intros H. apply process_single_image_ok in H.
  destruct H as (pid & db1 & ds & db2 & db3 & _ & _ & _ & _ & -> & _).
  reflexivity.
Qed.

(** C6, as amended. In [process_single_image] a failure of the photo
    upsert, of the object detector, of storing the detections or of storing
    the faces leaves the call with that exception. A failure of the face
    engine (locating or encoding) does not: [detect_faces_in_image] turns
    it into an empty list of faces, and when the earlier steps succeeded
    the call returns a result without faces. *)
Theorem process_single_image_failures :
  forall (w : World) (self : YOLOProcessor) (st : State) (p : string)
         (conf : Q),
    let run := fst (process_single_image w self st p conf) in
    let upsert := add_photo w (catalog st) p (model_name self) in
    let faces := detect_faces_in_image w (face_processor self) p in
    (forall e db1, upsert = (Raise e, db1) -> run = Raise e) /\
    (forall pid db1 e,
       upsert = (Ok pid, db1) -> yolo w p conf = Raise e -> run = Raise e) /\
    (forall pid db1 ds e db2,
       upsert = (Ok pid, db1) -> yolo w p conf = Ok ds ->
       store_if_any ds (add_object_detections w db1 pid) db1
       = (Raise e, db2) ->
       run = Raise e) /\
    (forall pid db1 ds db2 e db3,
       upsert = (Ok pid, db1) -> yolo w p conf = Ok ds ->
       store_if_any ds (add_object_detections w db1 pid) db1 = (Ok tt, db2) ->
       store_if_any faces (add_face_detections w db2 pid) db2
       = (Raise e, db3) ->
       run = Raise e) /\
    (forall e, face_locations w p = Raise e -> faces = []) /\
    (forall locs e,
       face_locations w p = Ok locs -> face_encodings w p locs = Raise e ->
       faces = []) /\
    (forall pid db1 ds db2,
       upsert = (Ok pid, db1) -> yolo w p conf = Ok ds ->
       store_if_any ds (add_object_detections w db1 pid) db1 = (Ok tt, db2) ->
       faces = [] ->
       run = Ok (mkImageResult pid p (length ds) 0 ds [])).
Proof.
  intros w self st p conf run upsert faces.
  subst run upsert faces. unfold process_single_image.
  cbn [logged with_catalog catalog calls].
  repeat split.
  - intros e db1 ->. reflexivity.
  - intros pid db1 e -> ->. reflexivity.
  - intros pid db1 ds e db2 -> -> ->. reflexivity.
  - intros pid db1 ds db2 e db3 -> -> -> ->. reflexivity.
  - intros e He. unfold detect_faces_in_image. now rewrite He.
  - intros locs e Hl He. unfold detect_faces_in_image. rewrite Hl.
    cbn [bind]. destruct locs; [reflexivity|]. now rewrite He.
  - intros pid db1 ds db2 -> -> -> ->. reflexivity.
Qed.

(** C6 as stated fails: the face engine raises, and the call returns a
    result (three objects, no face) instead of raising. *)
Lemma face_engine_failure_is_not_raised :
  face_locations Sample.faceless "/photos/a.jpg"
  = Raise "cannot identify image file" /\
  fst (process_single_image Sample.faceless Sample.processor Sample.start
         "/photos/a.jpg" Sample.threshold)
  = Ok (mkImageResult 1 "/photos/a.jpg" 3 0
          [Sample.person_a; Sample.dog; Sample.person_b] []).
Proof. split; reflexivity. Qed.

(** ** Reprocessing *)

Lemma store_objects_ok (w : World) (db : Db) (pid : nat)
  (ds : list Detection) (u : unit) (db' : Db) :
  store_if_any ds (add_object_detections w db pid) db = (Ok u, db') ->
  exif_data db' = exif_data db /\
  face_detections db' = face_detections db /\
  face_summary db' = face_summary db /\
  (forall q, photo_id_of q db' = photo_id_of q db) /\
  (forall q, processed q db = true -> processed q db' = true).
Proof.
  destruct ds as [|d ds]; simpl; intros H.
  - inversion H; subst. repeat split; auto.
  - apply add_object_detections_ok in H.
    destruct H as (H1 & H2 & H3 & H4 & H5 & _). repeat split; auto.
Qed.

Lemma store_objects_raise (w : World) (db : Db) (pid : nat)
  (ds : list Detection) (e : exn) (db' : Db) :
  store_if_any ds (add_object_detections w db pid) db = (Raise e, db') ->
  db' = db.
Proof.
  destruct ds as [|d ds]; simpl; intros H; [discriminate|].
  now apply add_object_detections_raise in H.
Qed.

Lemma store_faces_ok (w : World) (db : Db) (pid : nat)
  (fs : list FaceDetection) (u : unit) (db' : Db) :
  store_if_any fs (add_face_detections w db pid) db = (Ok u, db') ->
  (schema db' = schema db /\ photos db' = photos db) /\
  exif_data db' = exif_data db /\
  object_detections db' = object_detections db /\
  object_summary db' = object_summary db.
Proof.
  destruct fs as [|f fs]; simpl; intros H.
  - inversion H; subst. repeat split; auto.
  - pose proof (add_face_detections_schema _ _ _ _ _ _ H) as Hs.
    apply add_face_detections_ok in H.
    destruct H as (H1 & H2 & H3 & H4 & _). repeat split; tauto.
Qed.

Lemma store_faces_raise (w : World) (db : Db) (pid : nat)
  (fs : list FaceDetection) (e : exn) (db' : Db) :
  store_if_any fs (add_face_detections w db pid) db = (Raise e, db') ->
  db' = db.
Proof.
  destruct fs as [|f fs]; simpl; intros H; [discriminate|].
  now apply add_face_detections_raise in H.
Qed.

Lemma find_photo_photos (q : string) (db db' : Db) :
  schema db' = schema db /\ photos db' = photos db ->
  find_photo q db' = find_photo q db.
Proof. unfold find_photo, sql_eqb. now intros [-> ->]. Qed.

Lemma photo_id_of_photos (q : string) (db db' : Db) :
  schema db' = schema db /\ photos db' = photos db ->
  photo_id_of q db' = photo_id_of q db.
Proof. unfold photo_id_of. intros H. now rewrite (find_photo_photos q _ _ H). Qed.

Lemma processed_photos (q : string) (db db' : Db) :
  schema db' = schema db /\ photos db' = photos db ->
  processed q db' = processed q db.
Proof. unfold processed. intros H. now rewrite (find_photo_photos q _ _ H). Qed.

(** After a run that returns, the catalog knows the path under the id of
    the result. *)
Lemma process_single_image_id (w : World) (self : YOLOProcessor)
  (st : State) (p : string) (conf : Q) (r : ImageResult) (st' : State) :
  process_single_image w self st p conf = (Ok r, st') ->
  photo_id_of p (catalog st') = Some (ir_photo_id r).
Proof.
  intros H. apply process_single_image_ok in H.
  destruct H as (pid & db1 & ds & db2 & db3 & Hadd & _ & Hobj & Hface
                 & -> & ->).
  apply add_photo_ok in Hadd.
  destruct Hadd as (_ & _ & _ & _ & _ & Hid & _).
  apply store_objects_ok in Hobj. destruct Hobj as (_ & _ & _ & Hid2 & _).
  apply store_faces_ok in Hface. destruct Hface as (Hph & _).
  rewrite (photo_id_of_photos p _ _ Hph), Hid2. exact Hid.
Qed.

Lemma row_summarises_schema (w : World) (db db' : Db)
  (detections : list Detection) (row : ObjectSummaryRow) :
  schema db' = schema db ->
  row_summarises w db detections row -> row_summarises w db' detections row.
Proof. unfold row_summarises. now intros ->. Qed.

Lemma store_objects_schema (w : World) (db : Db) (pid : nat)
  (ds : list Detection) (r : result unit) (db' : Db) :
  store_if_any ds (add_object_detections w db pid) db = (r, db') ->
  schema db' = schema db.
Proof.
  destruct ds as [|d ds]; simpl; intros H; [now inversion H|].
  now apply add_object_detections_schema in H.
Qed.

Lemma store_faces_schema (w : World) (db : Db) (pid : nat)
  (fs : list FaceDetection) (r : result unit) (db' : Db) :
  store_if_any fs (add_face_detections w db pid) db = (r, db') ->
  schema db' = schema db.
Proof.
  destruct fs as [|f fs]; simpl; intros H; [now inversion H|].
  now apply add_face_detections_schema in H.
Qed.

(** A run of [process_single_image] keeps the schema. *)
Lemma process_single_image_schema (w : World) (self : YOLOProcessor)
  (st : State) (p : string) (conf : Q) :
  schema (catalog (snd (process_single_image w self st p conf)))
  = schema (catalog st).
Proof.
  unfold process_single_image. cbn [logged with_catalog catalog calls].
  destruct (add_photo w (catalog st) p (model_name self)) as [[pid|e] db1]
    eqn:Hadd; apply add_photo_schema in Hadd; [|exact Hadd].
  destruct (yolo w p conf) as [detections|e]; [|exact Hadd].
  destruct (store_if_any detections _ db1) as [[[]|e] db2] eqn:Hobj;
    apply store_objects_schema in Hobj; [|cbn; congruence].
  destruct (store_if_any (detect_faces_in_image _ _ _) _ db2)
    as [[[]|e] db3] eqn:Hface; apply store_faces_schema in Hface;
    cbn; congruence.
Qed.

(** C2, as amended. When a photo is processed with detection set A and
    then again with detection set B, the photo keeps its id; if B has
    objects, the ObjectSummary rows of the photo are those of B alone (one
    row per class of B, each summarising the events of B); if B has faces,
    the FaceSummary of the photo is the one row counted from the faces of
    B; if B has no objects (no faces), nothing is stored for them and the
    ObjectSummary (FaceSummary) rows of the photo stay those left by A. *)
Theorem reprocessing_reflects_a_nonempty_run :
  forall (wA wB : World) (self : YOLOProcessor) (st0 : State) (p : string)
         (confA confB : Q) (rA rB : ImageResult) (stA stB : State),
    process_single_image wA self st0 p confA = (Ok rA, stA) ->
    process_single_image wB self stA p confB = (Ok rB, stB) ->
    let pid := ir_photo_id rB in
    let B := ir_detections rB in
    let FB := ir_face_detections rB in
    let rows := summary_of pid (catalog stB) in
    pid = ir_photo_id rA /\
    yolo wB p confB = Ok B /\
    FB = detect_faces_in_image wB (face_processor self) p /\
    (B <> [] ->
     NoDup (map os_class_name rows) /\
     (forall c, In c (map os_class_name rows) <-> In c (map class_name B)) /\
     Forall (row_summarises wB (catalog stB) B) rows) /\
    (B = [] -> rows = summary_of pid (catalog stA)) /\
    (FB <> [] ->
     face_summary_of pid (catalog stB)
     = [mkFaceSummaryRow pid (length FB)
          (length (filter has_recognized_name FB))
          (length FB - length (filter has_recognized_name FB))]) /\
    (FB = [] ->
     face_summary_of pid (catalog stB) = face_summary_of pid (catalog stA)).
Proof.
  intros wA wB self st0 p confA confB rA rB stA stB HA HB.
  pose proof (process_single_image_id _ _ _ _ _ _ _ HA) as HidA.
  apply process_single_image_ok in HB.
  destruct HB as (pid & db1 & ds & db2 & db3 & Hadd & Hyolo & Hobj & Hface
                  & -> & HstB).
  cbn [ir_photo_id ir_detections ir_face_detections]. rewrite HstB.
  apply add_photo_ok in Hadd.
  destruct Hadd as (_ & Hsum1 & _ & Hfsum1 & _ & _ & Hsame & _).
  pose proof (store_faces_ok _ _ _ _ _ _ Hface) as ((Hs3 & _) & _ & _ & Hsum3).
  pose proof (store_objects_schema _ _ _ _ _ _ Hobj) as Hs2.
  pose proof (store_objects_ok _ _ _ _ _ _ Hobj) as (_ & _ & Hfsum2 & _).
  unfold summary_of, face_summary_of in *.
  repeat split.
  - symmetry. now apply Hsame.
  - exact Hyolo.
  - destruct ds as [|d ds]; [congruence|]. simpl in Hobj.
    apply add_object_detections_ok in Hobj. rewrite Hsum3.
    now destruct Hobj as (_ & _ & _ & _ & _ & Hnd & _).
  - destruct ds as [|d ds]; [congruence|]. simpl in Hobj.
    apply add_object_detections_ok in Hobj. rewrite Hsum3.
    destruct Hobj as (_ & _ & _ & _ & _ & _ & Hnames & _). apply Hnames.
  - destruct ds as [|d ds]; [congruence|]. simpl in Hobj.
    apply add_object_detections_ok in Hobj. rewrite Hsum3.
    destruct Hobj as (_ & _ & _ & _ & _ & _ & Hnames & _). apply Hnames.
  - destruct ds as [|d ds]; [congruence|]. simpl in Hobj.
    apply add_object_detections_ok in Hobj. rewrite Hsum3.
    destruct Hobj as (_ & _ & _ & _ & _ & _ & _ & Hrows).
    revert Hrows. apply Forall_impl. intros row.
    apply row_summarises_schema. congruence.
  - intros ->. simpl in Hobj. inversion Hobj as [H0].
    now rewrite Hsum3, <- H0, Hsum1.
  - intros Hne.
    destruct (detect_faces_in_image wB (face_processor self) p)
      as [|f fs] eqn:E; [congruence|]. simpl in Hface.
    apply add_face_detections_ok in Hface.
    now destruct Hface as (_ & _ & _ & _ & Hrow).
  - intros E. rewrite E in Hface. simpl in Hface.
    inversion Hface as [H0]. now rewrite <- H0, Hfsum2, Hfsum1.
Qed.

Lemma reprocessing_reflects_a_nonempty_run_witness :
  let stA := Sample.after Sample.family Sample.start "/photos/a.jpg" in
  let rA := Sample.returned Sample.family Sample.start "/photos/a.jpg" in
  let stB := Sample.after Sample.pets stA "/photos/a.jpg" in
  let rB := Sample.returned Sample.pets stA "/photos/a.jpg" in
  let pid := ir_photo_id rB in
  let B := ir_detections rB in
  let FB := ir_face_detections rB in
  let rows := summary_of pid (catalog stB) in
  pid = ir_photo_id rA /\
  yolo Sample.pets "/photos/a.jpg" Sample.threshold = Ok B /\
  FB = detect_faces_in_image Sample.pets
         (face_processor Sample.processor) "/photos/a.jpg" /\
  (B <> [] ->
   NoDup (map os_class_name rows) /\
   (forall c, In c (map os_class_name rows) <-> In c (map class_name B)) /\
   Forall (row_summarises Sample.pets (catalog stB) B) rows) /\
  (B = [] -> rows = summary_of pid (catalog stA)) /\
  (FB <> [] ->
   face_summary_of pid (catalog stB)
   = [mkFaceSummaryRow pid (length FB)
        (length (filter has_recognized_name FB))
        (length FB - length (filter has_recognized_name FB))]) /\
  (FB = [] ->
   face_summary_of pid (catalog stB) = face_summary_of pid (catalog stA)).
Proof.
  exact (reprocessing_reflects_a_nonempty_run Sample.family Sample.pets
           Sample.processor Sample.start "/photos/a.jpg" Sample.threshold
           Sample.threshold
           (Sample.returned Sample.family Sample.start "/photos/a.jpg")
           (Sample.returned Sample.pets
              (Sample.after Sample.family Sample.start "/photos/a.jpg")
              "/photos/a.jpg")
           (Sample.after Sample.family Sample.start "/photos/a.jpg")
           (Sample.after Sample.pets
              (Sample.after Sample.family Sample.start "/photos/a.jpg")
              "/photos/a.jpg")
           eq_refl eq_refl).
Defined.

(** In that run both summaries of the photo are replaced: the rows of
    two people and a dog by those of a cat and a dog, the count of one face
    by the count of two. *)
Example reprocessing_sample :
  let stA := Sample.after Sample.family Sample.start "/photos/a.jpg" in
  let stB := Sample.after Sample.pets stA "/photos/a.jpg" in
  map os_class_name (summary_of 1 (catalog stA)) = ["person"; "dog"] /\
  map os_class_name (summary_of 1 (catalog stB)) = ["cat"; "dog"] /\
  map fs_total_faces (face_summary_of 1 (catalog stA)) = [1] /\
  map fs_total_faces (face_summary_of 1 (catalog stB)) = [2].
Proof. repeat split. Qed.

(** C2 as stated fails: a directory processed with [force_reprocess] when
    the model finds two people and a dog, and processed again with
    [force_reprocess] when it finds nothing, keeps the summary rows of the
    first run. *)
Lemma reprocessing_without_objects_keeps_old_summary :
  let stA :=
    snd (process_directory Sample.crowded Sample.processor Sample.start
           "/photos" Sample.threshold None true) in
  let runB :=
    process_directory Sample.quiet Sample.processor stA "/photos"
      Sample.threshold None true in
  yolo Sample.quiet "/photos/a.jpg" Sample.threshold = Ok [] /\
  map status (fst runB) = ["processed"] /\
  map os_class_name (summary_of 1 (catalog (snd runB))) = ["person"; "dog"] /\
  map os_total_count (summary_of 1 (catalog (snd runB))) = [2; 1].
Proof. repeat split. Qed.

(** ** The loop over the files *)

(** A run of [process_single_image], returning or raising, never takes a
    [processed_at] away. *)
Lemma process_single_image_processed (w : World) (self : YOLOProcessor)
  (st : State) (p : string) (conf : Q) (q : string) :
  processed q (catalog st) = true ->
  processed q (catalog (snd (process_single_image w self st p conf))) = true.
Proof.
  intros Hq. unfold process_single_image.
  cbn [logged with_catalog catalog calls].
  destruct (add_photo w (catalog st) p (model_name self)) as [[pid|e] db1]
    eqn:Hadd.
  2: { apply add_photo_raise in Hadd. now subst db1. }
  apply add_photo_ok in Hadd.
  destruct Hadd as (_ & _ & _ & _ & _ & _ & _ & Hkeep1).
  specialize (Hkeep1 q Hq).
  destruct (yolo w p conf) as [ds|e]; [|exact Hkeep1].
  destruct (store_if_any ds _ db1) as [[[]|e] db2] eqn:Hobj.
  2: { apply store_objects_raise in Hobj. now subst db2. }
  apply store_objects_ok in Hobj. destruct Hobj as (_ & _ & _ & _ & Hkeep2).
  specialize (Hkeep2 q Hkeep1).
  destruct (store_if_any (detect_faces_in_image _ _ _) _ db2)
    as [[[]|e] db3] eqn:Hface; cbn [snd catalog with_catalog logged].
  - apply store_faces_ok in Hface. destruct Hface as (Hph & _).
    now rewrite (processed_photos q _ _ Hph).
  - apply store_faces_raise in Hface. now subst db3.
Qed.

Lemma is_image_already_processed_answer (w : World) (db : Db) (p : string) :
  db_error w (OpIsProcessed p) = None ->
  _is_image_already_processed w db p = processed p db.
Proof.
  intros H. unfold _is_image_already_processed, server, processed.
  now rewrite H.
Qed.

(** One turn of the loop: the entry is about the file, the calls added are
    about the file, and no [processed_at] is taken away. *)
Lemma process_file_facts (w : World) (self : YOLOProcessor) (conf : Q)
  (force : bool) (st : State) (q : string) :
  let turn := process_file w self conf force st q in
  result_path (fst turn) = q /\
  (exists added,
     calls (snd turn) = calls st ++ added /\
     Forall (fun c => call_path c = q) added) /\
  (forall x, processed x (catalog st) = true ->
             processed x (catalog (snd turn)) = true).
Proof.
  unfold process_file.
  destruct (negb force && _is_image_already_processed w (catalog st) q).
  - simpl. repeat split; auto.
    exists []. rewrite app_nil_r. split; [reflexivity | constructor].
  - pose proof (process_single_image_calls w self st q conf) as Hcalls.
    pose proof (fun x => process_single_image_processed w self st q conf x)
      as Hkeep.
    destruct (process_single_image w self st q conf) as [[r|e] st'] eqn:Hrun;
      simpl in *; repeat split; auto.
    now apply process_single_image_path in Hrun.
Qed.

Lemma process_files_paths (w : World) (self : YOLOProcessor) (conf : Q)
  (force : bool) (files : list string) :
  forall st,
    map result_path (fst (process_files w self conf force st files)) = files.
Proof.
  induction files as [|q rest IH]; intros st; simpl; auto.
  pose proof (process_file_facts w self conf force st q) as (Hpath & _).
  destruct (process_file w self conf force st q) as [r st1].
  specialize (IH st1).
  destruct (process_files w self conf force st1 rest) as [rs st2].
  simpl in *. now rewrite Hpath, IH.
Qed.

Lemma process_files_app (w : World) (self : YOLOProcessor) (conf : Q)
  (force : bool) (pre post : list string) :
  forall st,
    let first := process_files w self conf force st pre in
    let second := process_files w self conf force (snd first) post in
    process_files w self conf force st (pre ++ post)
    = (fst first ++ fst second, snd second).
Proof.
  induction pre as [|q rest IH]; intros st; simpl.
  - now destruct (process_files w self conf force st post).
  - destruct (process_file w self conf force st q) as [r st1].
    rewrite IH. simpl.
    destruct (process_files w self conf force st1 rest) as [rs st2].
    reflexivity.
Qed.

Lemma process_files_skips (w : World) (self : YOLOProcessor) (conf : Q)
  (p : string) (files : list string) :
  db_error w (OpIsProcessed p) = None ->
  forall st,
    processed p (catalog st) = true ->
    let run := process_files w self conf false st files in
    (forall r, In r (fst run) -> result_path r = p -> r = Skipped p) /\
    (In p files -> In (Skipped p) (fst run)) /\
    exists added,
      calls (snd run) = calls st ++ added /\
      Forall (fun c => call_path c <> p) added.
Proof.
  intros Hserver.
  induction files as [|q rest IH]; intros st Hp; simpl.
  - repeat split; try tauto.
    exists []. rewrite app_nil_r. split; [reflexivity | constructor].
  - pose proof (process_file_facts w self conf false st q)
      as (Hpath & (added1 & Hcalls1 & Hall1) & Hkeep).
    assert (Hskip : q = p ->
                    process_file w self conf false st q = (Skipped p, st)).
    { intros ->. unfold process_file.
      rewrite (is_image_already_processed_answer _ _ _ Hserver), Hp.
      reflexivity. }
    destruct (process_file w self conf false st q) as [r st1].
    simpl in Hpath, Hcalls1, Hkeep.
    destruct (IH st1 (Hkeep p Hp)) as (Hres & Hin & added2 & Hcalls2 & Hall2).
    destruct (process_files w self conf false st1 rest) as [rs st2].
    simpl in *.
    destruct (string_dec q p) as [Heq|Hne].
    + specialize (Hskip Heq). inversion Hskip; subst r st1 q. repeat split.
      * intros r [<-|Hr] Hrp; auto.
      * intros _. now left.
      * exists added2. split; [exact Hcalls2 | exact Hall2].
    + repeat split.
      * intros r' [<-|Hr] Hrp; [congruence | auto].
      * intros [Hq|Hq]; [congruence | right; auto].
      * exists (added1 ++ added2). split.
        -- now rewrite Hcalls2, Hcalls1, app_assoc.
        -- apply Forall_app. split; [|exact Hall2].
           eapply Forall_impl; [|exact Hall1]. simpl. congruence.
Qed.

(** C8. In a batch run without [force_reprocess], for every enumerated
    path that the catalog (answering the lookup) holds with a
    [processed_at] that is not null: every entry of the result for the path
    is the skipped one, there is such an entry, and the run adds no call of
    [process_single_image], of the detector or of the face engine for the
    path. *)
Theorem processed_photo_is_skipped :
  forall (w : World) (self : YOLOProcessor) (st : State)
         (directory_path : string) (conf : Q)
         (file_extensions : option (list string)) (p : string),
    In p (image_files w directory_path file_extensions) ->
    processed p (catalog st) = true ->
    db_error w (OpIsProcessed p) = None ->
    let run :=
      process_directory w self st directory_path conf file_extensions false in
    (forall r, In r (fst run) -> result_path r = p ->
               r = Skipped p /\ status r = "skipped") /\
    In (Skipped p) (fst run) /\
    exists added,
      calls (snd run) = calls st ++ added /\
      Forall (fun c => call_path c <> p) added.
Proof.
  intros w self st directory_path conf file_extensions p Hin Hp Hserver.
  unfold process_directory.
  destruct (process_files_skips w self conf p
              (image_files w directory_path file_extensions) Hserver st Hp)
    as (Hres & Hskipped & Hcalls).
  split; [|split].
  - intros r Hr Hpath. rewrite (Hres r Hr Hpath). now split.
  - now apply Hskipped.
  - exact Hcalls.
Qed.

Lemma processed_photo_is_skipped_witness :
  let st := Sample.after Sample.crowded Sample.start "/photos/a.jpg" in
  let run :=
    process_directory Sample.crowded Sample.processor st "/photos"
      Sample.threshold None false in
  (forall r, In r (fst run) -> result_path r = "/photos/a.jpg" ->
             r = Skipped "/photos/a.jpg" /\ status r = "skipped") /\
  In (Skipped "/photos/a.jpg") (fst run) /\
  exists added,
    calls (snd run) = calls st ++ added /\
    Forall (fun c => call_path c <> "/photos/a.jpg") added.
Proof.
  apply (processed_photo_is_skipped Sample.crowded Sample.processor
           (Sample.after Sample.crowded Sample.start "/photos/a.jpg")
           "/photos" Sample.threshold None "/photos/a.jpg").
  - simpl. now left.
  - reflexivity.
  - reflexivity.
Defined.

Lemma process_files_length (w : World) (self : YOLOProcessor) (conf : Q)
  (force : bool) (files : list string) (st : State) :
  length (fst (process_files w self conf force st files)) = length files.
Proof.
  rewrite <- (process_files_paths w self conf force files st) at 2.
  now rewrite length_map.
Qed.

(** C9. A batch run returns one entry per enumerated file, in the order of
    the files; and for every file that is not skipped and on which
    [process_single_image] raises, the entry at the place of the file is
    the error entry with the message of the exception, and the entries
    after it are those of the loop carried on over the remaining files. *)
Theorem batch_isolates_file_failures :
  forall (w : World) (self : YOLOProcessor) (st : State)
         (directory_path : string) (conf : Q)
         (file_extensions : option (list string)) (force : bool),
    let files := image_files w directory_path file_extensions in
    let results :=
      fst (process_directory w self st directory_path conf file_extensions
             force) in
    map result_path results = files /\
    length results = length files /\
    forall pre p post e st2,
      files = pre ++ p :: post ->
      let st1 := snd (process_files w self conf force st pre) in
      negb force && _is_image_already_processed w (catalog st1) p = false ->
      process_single_image w self st1 p conf = (Raise e, st2) ->
      nth_error results (length pre) = Some (Failed p e) /\
      status (Failed p e) = "error" /\
      skipn (S (length pre)) results
      = fst (process_files w self conf force st2 post).
Proof.
  intros w self st directory_path conf file_extensions force files results.
  subst results. unfold process_directory. fold files.
  split; [apply process_files_paths|].
  split; [apply process_files_length|].
  intros pre p post e st2 Hfiles Hnoskip Hraise.
  pose proof (process_files_length w self conf force pre st) as Hlen.
  assert (Hturn :
    process_files w self conf force
      (snd (process_files w self conf force st pre)) (p :: post)
    = (Failed p e :: fst (process_files w self conf force st2 post),
       snd (process_files w self conf force st2 post))).
  { cbn [process_files]. unfold process_file. rewrite Hnoskip, Hraise.
    now destruct (process_files w self conf force st2 post). }
  rewrite Hfiles, process_files_app, Hturn. cbn [fst].
  repeat split.
  - rewrite nth_error_app2 by lia. rewrite Hlen, Nat.sub_diag. reflexivity.
  - rewrite skipn_app, Hlen.
    rewrite skipn_all2 by lia.
    replace (S (length pre) - length pre) with 1 by lia. reflexivity.
Qed.

(** Two files on which the model fails: two error entries. *)
Example batch_of_failures :
  fst (process_directory Sample.broken_model Sample.processor Sample.start
         "/photos" Sample.threshold None false)
  = [Failed "/photos/a.jpg" "model failure";
     Failed "/photos/b.jpg" "model failure"].
Proof. reflexivity. Qed.

(** ** The crawl *)

Lemma ascii_compare_lt_trans (a b c : ascii) :
  Ascii.compare a b = Lt -> Ascii.compare b c = Lt -> Ascii.compare a c = Lt.
Proof.
  unfold Ascii.compare. rewrite !N.compare_lt_iff. apply N.lt_trans.
Qed.

Lemma string_leb_trans (x y z : string) :
  String.leb x y = true -> String.leb y z = true -> String.leb x z = true.
Proof.
  unfold String.leb. revert y z.
  induction x as [|a x IH]; intros [|b y] [|c z]; simpl; try congruence.
  destruct (Ascii.compare a b) eqn:Eab; try congruence.
  - apply Ascii.compare_eq_iff in Eab. subst b.
    destruct (Ascii.compare a c); try congruence. apply IH.
  - destruct (Ascii.compare b c) eqn:Ebc; try congruence.
    + apply Ascii.compare_eq_iff in Ebc. subst c. now rewrite Eab.
    + now rewrite (ascii_compare_lt_trans _ _ _ Eab Ebc).
Qed.

Lemma insert_sorted_in (x y : string) (l : list string) :
  In y (insert_sorted x l) <-> y = x \/ In y l.
Proof.
  induction l as [|z r IH]; simpl.
  - intuition.
  - destruct (String.leb x z); simpl; [intuition|].
    rewrite IH. intuition.
Qed.

Lemma sort_in (y : string) (l : list string) : In y (sort l) <-> In y l.
Proof.
  induction l as [|x r IH]; simpl; [tauto|].
  rewrite insert_sorted_in, IH. intuition.
Qed.

Lemma insert_sorted_nodup (x : string) (l : list string) :
  ~ In x l -> NoDup l -> NoDup (insert_sorted x l).
Proof.
  induction l as [|z r IH]; simpl; intros Hx Hnd.
  - constructor; [tauto | constructor].
  - destruct (String.leb x z).
    + constructor; [simpl; tauto | exact Hnd].
    + inversion Hnd as [|? ? Hz Hr]; subst. constructor.
      * rewrite insert_sorted_in. intuition.
      * apply IH; [tauto | exact Hr].
Qed.

Lemma sort_nodup (l : list string) : NoDup l -> NoDup (sort l).
Proof.
  induction 1 as [|x r Hx Hr IH]; simpl; [constructor|].
  apply insert_sorted_nodup; [|exact IH]. now rewrite sort_in.
Qed.

Lemma insert_sorted_sorted (x : string) (l : list string) :
  StronglySorted string_le l -> StronglySorted string_le (insert_sorted x l).
Proof.
  induction 1 as [|z r Hr IH Hz]; simpl.
  - repeat constructor.
  - destruct (String.leb x z) eqn:E.
    + constructor; [now constructor|]. constructor; [exact E|].
      eapply Forall_impl; [|exact Hz]. intros b Hb.
      now apply string_leb_trans with z.
    + constructor; [exact IH|]. apply Forall_forall. intros b Hb.
      apply insert_sorted_in in Hb. destruct Hb as [->|Hb].
      * destruct (String.leb_total x z) as [H|H]; [congruence | exact H].
      * rewrite Forall_forall in Hz. now apply Hz.
Qed.

Lemma sort_sorted (l : list string) : StronglySorted string_le (sort l).
Proof.
  induction l as [|x r IH]; simpl; [constructor|].
  now apply insert_sorted_sorted.
Qed.

Lemma upper_char_is_upper_case (c : ascii) :
  Py.upper_char c = upper_case_letter c.
Proof. destruct c as [[] [] [] [] [] [] [] []]; reflexivity. Qed.

Lemma upper_is_upper_case (s : string) : Py.upper s = upper_case s.
Proof.
  unfold Py.upper. induction s as [|c r IH]; simpl; [reflexivity|].
  now rewrite IH, upper_char_is_upper_case.
Qed.

Lemma found_files_in (w : World) (directory_path : string)
  (exts : list string) (p : string) :
  In p (found_files w directory_path exts) <->
  exists ext case_ext,
    In ext exts /\
    (case_ext = ext \/ case_ext = upper_case ext) /\
    In p (glob w directory_path (String.append "**/*" case_ext)).
Proof.
  unfold found_files, glob_ext. rewrite in_flat_map. split.
  - intros (ext & Hext & Hin). simpl in Hin. rewrite app_nil_r in Hin.
    apply in_app_or in Hin. destruct Hin as [Hin|Hin].
    + exists ext, ext. auto.
    + exists ext, (upper_case ext). rewrite <- upper_is_upper_case. auto.
  - intros (ext & case_ext & Hext & Hcase & Hin). exists ext.
    split; [exact Hext|]. simpl. rewrite app_nil_r. apply in_or_app.
    destruct Hcase as [->| ->]; [left; exact Hin | right].
    now rewrite upper_is_upper_case.
Qed.

(** C7, as amended. For every root directory and extension list, the crawl
    enumerates exactly the paths that the recursive glob of the platform
    returns for the pattern [**/*] followed by an extension of the list as
    it is written, or followed by its upper-case form (no other mixture of
    upper and lower case is asked for, so whether one is found is up to
    the glob of the platform), without duplicates, in ascending order of
    the paths, and the batch handles them in that order. *)
Theorem crawl_matches_written_and_upper_case :
  forall (w : World) (self : YOLOProcessor) (st : State)
         (directory_path : string) (conf : Q)
         (file_extensions : option (list string)) (force : bool),
    let files := image_files w directory_path file_extensions in
    (forall p,
       In p files <->
       exists ext case_ext,
         In ext (extensions_or_default file_extensions) /\
         (case_ext = ext \/ case_ext = upper_case ext) /\
         In p (glob w directory_path (String.append "**/*" case_ext))) /\
    NoDup files /\
    StronglySorted string_le files /\
    map result_path
      (fst (process_directory w self st directory_path conf file_extensions
              force))
    = files.
Proof.
  intros w self st directory_path conf file_extensions force files.
  subst files. unfold image_files. split; [|split; [|split]].
  - intros p. rewrite sort_in, nodup_In. apply found_files_in.
  - apply sort_nodup, NoDup_nodup.
  - apply sort_sorted.
  - apply process_files_paths.
Qed.

(** C7 as stated fails: on a POSIX file system "a.Jpg" is a file under the
    root, the glob reaches it, it has the extension ".jpg" up to case, and
    the crawl for [".jpg"] does not enumerate it. *)
Lemma mixed_case_extension_is_not_enumerated :
  In "/photos/a.Jpg" Sample.mixed_case_files /\
  glob Sample.mixed_case "/photos" "**/*" = ["/photos/a.Jpg"] /\
  matches_case_insensitively "/photos/a.Jpg" ".jpg" = true /\
  image_files Sample.mixed_case "/photos" (Some [".jpg"]) = [].
Proof. split; [now left | repeat split]. Qed.

(** Where the glob folds the case, the same crawl does enumerate it. *)
Example mixed_case_extension_where_glob_folds :
  image_files Sample.mixed_case_folding "/photos" (Some [".jpg"])
  = ["/photos/a.Jpg"].
Proof. reflexivity. Qed.

(** An extension is a piece of a pattern: its [?] stands for any
    character. *)
Example extension_with_a_pattern_character :
  image_files Sample.quiet "/photos" (Some [".j?g"]) = ["/photos/a.jpg"].
Proof. reflexivity. Qed.

(** The example of the specification: "a.JPG" found under both patterns of
    one extension list and "b.png" give two entries in path order; a
    hidden directory is passed over. *)
Example crawl_sample :
  image_files
    (mkWorld (read_image Sample.quiet) (extract_exif_data Sample.quiet)
       (yolo Sample.quiet) (face_locations Sample.quiet)
       (face_encodings Sample.quiet) (distance Sample.quiet)
       (db_error Sample.quiet) 0
       (FileSystem.posix ["/r/b.png"; "/r/sub/a.JPG"; "/r/.cache/c.png"])
       (fl Sample.quiet))
    "/r" (Some [".jpg"; ".JPG"; ".png"])
  = ["/r/b.png"; "/r/sub/a.JPG"].
Proof. reflexivity. Qed.

(** *** The crawl on POSIX *)

Lemma split_plain (s : string) :
  FileSystem.plain s = true -> Py.split "/" s = [s].
Proof.
  unfold FileSystem.plain. induction s as [|c r IH]; simpl; [reflexivity|].
  intros H. apply andb_true_iff in H. destruct H as [Hc Hr].
  unfold FileSystem.plain_char in Hc. apply negb_true_iff in Hc.
  apply orb_false_iff in Hc. destruct Hc as [_ Hc]. rewrite Hc.
  now rewrite (IH Hr).
Qed.

Lemma split_crawl_pattern (ext : string) :
  FileSystem.plain ext = true ->
  Py.split "/" (String.append "**/*" ext) = ["**"; String "*" ext].
Proof.
  intros H. cbn. now rewrite (split_plain ext H).
Qed.

Lemma tokens_plain (l : list ascii) (fuel : nat) :
  forallb FileSystem.plain_char l = true ->
  length l <= fuel ->
  FileSystem.tokens fuel l = map FileSystem.Literal l.
Proof.
  revert fuel. induction l as [|c r IH]; intros fuel H Hlen.
  - now destruct fuel.
  - destruct fuel as [|fuel]; [simpl in Hlen; lia|].
    simpl in H. apply andb_true_iff in H. destruct H as [Hc Hr].
    unfold FileSystem.plain_char in Hc. apply negb_true_iff in Hc.
    apply orb_false_iff in Hc. destruct Hc as [Hc _].
    apply orb_false_iff in Hc. destruct Hc as [Hc H3].
    apply orb_false_iff in Hc. destruct Hc as [H1 H2].
    cbn [FileSystem.tokens]. rewrite H1, H2, H3. cbn [map]. f_equal.
    apply IH; [exact Hr | simpl in Hlen; lia].
Qed.

Lemma matches_literals (l s : list ascii) :
  FileSystem.matches (map FileSystem.Literal l) s = true <-> s = l.
Proof.
  revert s. induction l as [|a l IH]; intros [|c s]; simpl;
    try (split; [discriminate | discriminate]); [tauto|].
  rewrite andb_true_iff, IH, Ascii.eqb_eq. split.
  - intros [-> ->]. reflexivity.
  - intros H. inversion H. auto.
Qed.

Lemma matches_star (ts : list FileSystem.Token) (s : list ascii) :
  FileSystem.matches (FileSystem.Star :: ts) s = true <->
  exists pre post, s = pre ++ post /\ FileSystem.matches ts post = true.
Proof.
  induction s as [|c s IH].
  - simpl. rewrite orb_false_r. split.
    + intros H. exists [], []. auto.
    + intros (pre & post & Heq & H). symmetry in Heq.
      apply app_eq_nil in Heq. destruct Heq as [_ ->]. exact H.
  - change (FileSystem.matches (FileSystem.Star :: ts) (c :: s))
      with (FileSystem.matches ts (c :: s)
            || FileSystem.matches (FileSystem.Star :: ts) s).
    rewrite orb_true_iff, IH. split.
    + intros [H|(pre & post & -> & H)].
      * exists [], (c :: s). auto.
      * exists (c :: pre), post. auto.
    + intros (pre & post & Heq & H). destruct pre as [|x pre].
      * left. simpl in Heq. now subst post.
      * right. inversion Heq; subst. eauto.
Qed.

Lemma list_of_append (a b : string) :
  list_ascii_of_string (String.append a b)
  = list_ascii_of_string a ++ list_ascii_of_string b.
Proof. induction a as [|c a IH]; simpl; [reflexivity | now rewrite IH]. Qed.

Lemma string_of_app (a b : list ascii) :
  string_of_list_ascii (a ++ b)
  = String.append (string_of_list_ascii a) (string_of_list_ascii b).
Proof. induction a as [|c a IH]; simpl; [reflexivity | now rewrite IH]. Qed.

(** On POSIX a name matches [*] followed by a plain extension exactly when
    it is a stem followed by the extension. *)
Lemma fnmatch_plain_extension (name ext : string) :
  FileSystem.plain ext = true ->
  FileSystem.fnmatch (fun c => c) name (String "*" ext) = true <->
  exists stem, name = String.append stem ext.
Proof.
  intros H. unfold FileSystem.fnmatch. rewrite !map_id.
  change (list_ascii_of_string (String "*" ext))
    with ("*"%char :: list_ascii_of_string ext).
  cbn [length FileSystem.tokens]. rewrite Ascii.eqb_refl.
  rewrite tokens_plain by (auto; exact H). rewrite matches_star. split.
  - intros (pre & post & Heq & Hm). apply matches_literals in Hm. subst post.
    exists (string_of_list_ascii pre).
    apply (f_equal string_of_list_ascii) in Heq.
    rewrite string_of_list_ascii_of_string, string_of_app in Heq.
    now rewrite string_of_list_ascii_of_string in Heq.
  - intros (stem & ->).
    exists (list_ascii_of_string stem), (list_ascii_of_string ext).
    split; [apply list_of_append | now apply matches_literals].
Qed.

Lemma reached_one (pat : string) (entry : list string) :
  FileSystem.reached (fun c => c) [pat] entry = true <->
  exists dirs name,
    entry = dirs ++ [name] /\
    forallb (fun d => negb (FileSystem.hidden d)) dirs = true /\
    FileSystem.component_matches (fun c => c) pat name = true.
Proof.
  unfold FileSystem.reached.
  destruct entry as [|x l] using rev_ind.
  - simpl. split; [discriminate|].
    intros (dirs & name & Heq & _). now destruct dirs.
  - clear IHl. rewrite length_app. cbn [length].
    replace (length l + 1 - 1) with (length l) by lia.
    rewrite firstn_app, Nat.sub_diag, firstn_all, firstn_O, app_nil_r.
    rewrite skipn_app, skipn_all, Nat.sub_diag. cbn [skipn app].
    cbn [FileSystem.all_match]. rewrite andb_true_r, andb_true_iff.
    split.
    + intros [H1 H2]. exists l, x. auto.
    + intros (dirs & name & Heq & H1 & H2).
      apply app_inj_tail in Heq. destruct Heq as [-> ->]. auto.
Qed.

(** On POSIX the glob of the crawl for a plain extension returns exactly
    the paths under the root, of a file or of a directory on the way to
    one, none of whose components is hidden and whose name is a stem
    followed by the extension. *)
Lemma posix_glob_of_plain_extension (files : list string)
  (root ext p : string) :
  FileSystem.plain ext = true ->
  In p (FileSystem.posix files root (String.append "**/*" ext)) <->
  exists file dirs name stem,
    In file files /\
    In (dirs ++ [name]) (FileSystem.entries root file) /\
    forallb (fun d => negb (FileSystem.hidden d)) dirs = true /\
    FileSystem.hidden name = false /\
    name = String.append stem ext /\
    p = String.append root
          (String.append "/" (String.concat "/" (dirs ++ [name]))).
Proof.
  intros Hplain. unfold FileSystem.posix, FileSystem.glob_with.
  rewrite (split_crawl_pattern ext Hplain).
  change (String.eqb "**" "**") with true. cbv iota.
  rewrite nodup_In, in_flat_map.
  assert (Hcomp : forall name,
            FileSystem.component_matches (fun c => c) (String "*" ext) name
            = true <->
            FileSystem.hidden name = false /\
            exists stem, name = String.append stem ext).
  { intros name. unfold FileSystem.component_matches.
    change (FileSystem.hidden (String "*" ext)) with false.
    rewrite orb_false_r, andb_true_iff, negb_true_iff.
    now rewrite (fnmatch_plain_extension name ext Hplain). }
  split.
  - intros (file & Hfile & Hp). apply in_map_iff in Hp.
    destruct Hp as (entry & <- & Hentry). apply filter_In in Hentry.
    destruct Hentry as [Hentry Hreached]. apply reached_one in Hreached.
    destruct Hreached as (dirs & name & -> & Hdirs & Hname).
    apply Hcomp in Hname. destruct Hname as (Hhidden & stem & Hstem).
    exists file, dirs, name, stem. auto 10.
  - intros (file & dirs & name & stem & Hfile & Hentry & Hdirs & Hhidden
            & Hstem & ->).
    exists file. split; [exact Hfile|]. apply in_map_iff.
    exists (dirs ++ [name]). split; [reflexivity|]. apply filter_In.
    split; [exact Hentry|]. apply reached_one. exists dirs, name.
    split; [reflexivity|]. split; [exact Hdirs|]. apply Hcomp. eauto.
Qed.

Lemma plain_upper_case (ext : string) :
  FileSystem.plain ext = true -> FileSystem.plain (upper_case ext) = true.
Proof.
  unfold FileSystem.plain. induction ext as [|c r IH]; simpl; [auto|].
  intros H. apply andb_true_iff in H. destruct H as [Hc Hr].
  rewrite (IH Hr), andb_true_r. revert Hc.
  destruct c as [[] [] [] [] [] [] [] []]; auto.
Qed.

(** So on POSIX, for plain extensions, the crawl enumerates exactly the
    paths under the root without a hidden component whose name is a stem
    followed by an extension of the list, as it is written or in upper
    case. *)
Lemma crawl_on_posix (w : World) (files : list string)
  (directory_path : string) (file_extensions : option (list string))
  (p : string) :
  glob w = FileSystem.posix files ->
  Forall (fun ext => FileSystem.plain ext = true)
    (extensions_or_default file_extensions) ->
  In p (image_files w directory_path file_extensions) <->
  exists ext case_ext file dirs name stem,
    In ext (extensions_or_default file_extensions) /\
    (case_ext = ext \/ case_ext = upper_case ext) /\
    In file files /\
    In (dirs ++ [name]) (FileSystem.entries directory_path file) /\
    forallb (fun d => negb (FileSystem.hidden d)) dirs = true /\
    FileSystem.hidden name = false /\
    name = String.append stem case_ext /\
    p = String.append directory_path
          (String.append "/" (String.concat "/" (dirs ++ [name]))).
Proof.
  intros Hglob Hplain. unfold image_files.
  rewrite sort_in, nodup_In, found_files_in. rewrite Hglob.
  rewrite Forall_forall in Hplain. split.
  - intros (ext & case_ext & Hext & Hcase & Hin).
    apply posix_glob_of_plain_extension in Hin.
    + destruct Hin as (file & dirs & name & stem & H).
      exists ext, case_ext, file, dirs, name, stem. tauto.
    + destruct Hcase as [->| ->];
        [|apply plain_upper_case]; now apply Hplain.
  - intros (ext & case_ext & file & dirs & name & stem & Hext & Hcase & H).
    exists ext, case_ext. split; [exact Hext|]. split; [exact Hcase|].
    apply posix_glob_of_plain_extension.
    + destruct Hcase as [->| ->];
        [|apply plain_upper_case]; now apply Hplain.
    + exists file, dirs, name, stem. exact H.
Qed.

(** ** What the datetime validator does return *)

(** Every value the validator returns is the ISO form of what [strptime]
    parsed from the stripped input, and lies between 1900-01-01 00:00:00
    and 2100-12-31 00:00:00. *)
Lemma validate_returns_parsed_in_range (s r : string) :
  _validate_and_parse_datetime s = Some r ->
  exists t,
    Strptime.strptime (Py.strip s) = Some t /\
    Strptime.le (Strptime.mkdatetime 1900 1 1 0 0 0) t = true /\
    Strptime.le t (Strptime.mkdatetime 2100 12 31 0 0 0) = true /\
    r = Strptime.isoformat t.
Proof.
  unfold _validate_and_parse_datetime.
  destruct (Py.is_empty s); [discriminate|].
  destruct (Py.is_empty (Py.strip s) || Py.in_list (Py.strip s) _);
    [discriminate|].
  match goal with |- context [if ?c then None else _] =>
    destruct c; [discriminate|] end.
  destruct (Strptime.strptime (Py.strip s)) as [t|]; [|discriminate].
  destruct (Strptime.le _ t) eqn:Hmin; [|discriminate].
  destruct (Strptime.le t _) eqn:Hmax; [|discriminate].
  simpl. intros H. inversion H. exists t. repeat split; auto.
Qed.

(** The latest value accepted is midnight of 2100-12-31. *)
Example validate_after_range :
  _validate_and_parse_datetime "2100:12:31 00:00:01" = None.
Proof. reflexivity. Qed.

(** * More properties of the code *)

(** ** Sums over the rows of a key *)

Section SumsByKey.

Context {A K : Type}.
Variable key : A -> K.
Variable eqb : K -> K -> bool.
Hypothesis eqb_spec : forall a b, Bool.reflect (a = b) (eqb a b).
Variable f : A -> nat.

Lemma sum_by_keys (l : list A) (ks : list K) :
  NoDup ks ->
  list_sum
    (map (fun k => list_sum (map f (filter (fun a => eqb (key a) k) l))) ks)
  = list_sum (map f (filter (fun a => existsb (eqb (key a)) ks) l)).
Proof.
  induction 1 as [|k ks Hk Hnd IH]; simpl.
  - induction l as [|a l IHl]; simpl; auto.
  - rewrite IH. clear IH.
    induction l as [|a l IHl]; simpl; auto.
    destruct (eqb_spec (key a) k) as [Heq|Hne]; simpl.
    + assert (Hnot : existsb (eqb (key a)) ks = false).
      { apply not_true_is_false. intros Hex.
        apply existsb_exists in Hex. destruct Hex as (x & Hx & Hax).
        destruct (eqb_spec (key a) x); [|discriminate]. congruence. }
      rewrite Hnot. simpl. lia.
    + destruct (existsb (eqb (key a)) ks); simpl; lia.
Qed.

Lemma sum_by_all_keys (l : list A) (ks : list K) :
  NoDup ks ->
  (forall a, In a l -> In (key a) ks) ->
  list_sum
    (map (fun k => list_sum (map f (filter (fun a => eqb (key a) k) l))) ks)
  = list_sum (map f l).
Proof.
  intros Hnd Hall. rewrite sum_by_keys by assumption.
  f_equal. f_equal. apply filter_all_kept, Forall_forall. intros a Ha.
  apply existsb_exists. exists (key a). split; [now apply Hall|].
  now destruct (eqb_spec (key a) (key a)).
Qed.

End SumsByKey.

Lemma list_sum_ones {A} (l : list A) :
  list_sum (map (fun _ => 1) l) = length l.
Proof. induction l; simpl; auto. Qed.


(** ** The shape of the catalog after each write *)

Lemma detections_of_replaced (f : Detection -> Detection) (pid : nat)
  (old : list ObjectDetectionRow) (ds : list Detection) :
  map od_detection
    (filter (fun r => od_photo_id r =? pid)
       (filter (fun r => negb (od_photo_id r =? pid)) old
        ++ map (fun d => mkObjectDetectionRow pid (f d)) ds))
  = map f ds.
Proof.
  rewrite (replace_rows_same od_photo_id).
  - rewrite map_map. reflexivity.
  - apply Forall_forall. intros r Hr. apply in_map_iff in Hr.
    destruct Hr as (d & <- & _). reflexivity.
Qed.

Lemma add_face_detections_shape (w : World) (db : Db) (pid : nat)
  (fs : list FaceDetection) (u : unit) (db' : Db) :
  add_face_detections w db pid fs = (Ok u, db') ->
  db' = mkDb (photos db) (exif_data db) (object_detections db)
          (object_summary db)
          (filter (fun r => negb (fd_photo_id r =? pid)) (face_detections db)
           ++ map (fun d => mkFaceDetectionRow pid (stored_face db d)) fs)
          (filter (fun r => negb (fs_photo_id r =? pid)) (face_summary db)
           ++ [mkFaceSummaryRow pid (length fs)
                 (length (filter has_recognized_name fs))
                 (length fs - length (filter has_recognized_name fs))])
          (next_photo_id db) (schema db).
Proof.
  intros H.
  destruct (add_face_detections_cases w db pid fs)
    as [(e & Hrun & _)|(Hrun & _)]; rewrite Hrun in H; [discriminate|].
  now inversion H.
Qed.

Lemma faces_of_replaced (f : FaceDetection -> FaceDetection) (pid : nat)
  (old : list FaceDetectionRow) (fs : list FaceDetection) :
  map fd_face
    (filter (fun r => fd_photo_id r =? pid)
       (filter (fun r => negb (fd_photo_id r =? pid)) old
        ++ map (fun d => mkFaceDetectionRow pid (f d)) fs))
  = map f fs.
Proof.
  rewrite (replace_rows_same fd_photo_id).
  - rewrite map_map. reflexivity.
  - apply Forall_forall. intros r Hr. apply in_map_iff in Hr.
    destruct Hr as (d & <- & _). reflexivity.
Qed.

(** The columns keep the class, the class id and the name: only the
    confidences are rounded. *)
Lemma events_of_stored (db : Db) (c : string) (ds : list Detection) :
  events_of c (map (stored_detection db) ds)
  = map (stored_detection db) (events_of c ds).
Proof.
  unfold events_of. induction ds as [|d ds IH]; simpl; [reflexivity|].
  destruct (String.eqb (class_name d) c); simpl; now rewrite IH.
Qed.

Lemma row_counts_stored (db : Db) (ds : list Detection)
  (row : ObjectSummaryRow) :
  row_counts ds row -> row_counts (map (stored_detection db) ds) row.
Proof.
  unfold row_counts. rewrite events_of_stored, length_map, map_map.
  simpl. tauto.
Qed.

Lemma class_names_stored (db : Db) (ds : list Detection) :
  map class_name (map (stored_detection db) ds) = map class_name ds.
Proof. rewrite map_map. reflexivity. Qed.

Lemma row_summarises_counts (w : World) (db : Db) (ds : list Detection)
  (row : ObjectSummaryRow) :
  row_summarises w db ds row -> row_counts ds row.
Proof. now intros (H & _). Qed.

Lemma recognized_stored (db : Db) (fs : list FaceDetection) :
  filter has_recognized_name (map (stored_face db) fs)
  = map (stored_face db) (filter has_recognized_name fs).
Proof.
  induction fs as [|f fs IH]; simpl; [reflexivity|].
  change (has_recognized_name (stored_face db f))
    with (has_recognized_name f).
  destruct (has_recognized_name f); simpl; now rewrite IH.
Qed.

(** ** Counts add up *)

Lemma summary_counts_add_up (ds : list Detection)
  (rows : list ObjectSummaryRow) :
  NoDup (map os_class_name rows) ->
  (forall c, In c (map os_class_name rows) <-> In c (map class_name ds)) ->
  Forall (row_counts ds) rows ->
  list_sum (map os_total_count rows) = length ds.
Proof.
  intros Hnd Hnames Hrows.
  rewrite <- (list_sum_ones ds).
  rewrite <- (sum_by_all_keys class_name String.eqb String.eqb_spec
                (fun _ => 1) ds (map os_class_name rows) Hnd).
  - rewrite map_map. f_equal. apply map_ext_in. intros r Hr.
    rewrite Forall_forall in Hrows. destruct (Hrows r Hr) as (Hcount & _).
    unfold events_of in Hcount. rewrite Hcount, list_sum_ones. reflexivity.
  - intros d Hd. apply Hnames. now apply in_map.
Qed.

Lemma recognized_at_most_all (fs : list FaceDetection) :
  length (filter has_recognized_name fs) <= length fs.
Proof. apply filter_length_le. Qed.

(** ** What the batch keeps *)

Lemma store_objects_kept (w : World) (P : Db -> Prop) (db : Db) (pid : nat)
  (ds : list Detection) (r : result unit) (db' : Db) :
  kept_by_writes w P ->
  store_if_any ds (add_object_detections w db pid) db = (r, db') ->
  P db -> P db'.
Proof.
  intros (_ & Hobj & _). destruct ds as [|d ds]; simpl; intros H HP.
  - now inversion H; subst.
  - now apply (Hobj _ _ _ _ _ H).
Qed.

Lemma store_faces_kept (w : World) (P : Db -> Prop) (db : Db) (pid : nat)
  (fs : list FaceDetection) (r : result unit) (db' : Db) :
  kept_by_writes w P ->
  store_if_any fs (add_face_detections w db pid) db = (r, db') ->
  P db -> P db'.
Proof.
  intros (_ & _ & Hface). destruct fs as [|f fs]; simpl; intros H HP.
  - now inversion H; subst.
  - now apply (Hface _ _ _ _ _ H).
Qed.

Lemma process_single_image_kept (w : World) (P : Db -> Prop)
  (self : YOLOProcessor) (st : State) (p : string) (conf : Q) :
  kept_by_writes w P ->
  P (catalog st) ->
  P (catalog (snd (process_single_image w self st p conf))).
Proof.
  intros Hkept HP. pose proof Hkept as (Hadd & _).
  unfold process_single_image. cbn [logged with_catalog catalog calls].
  destruct (add_photo w (catalog st) p (model_name self)) as [r1 db1]
    eqn:E1.
  pose proof (Hadd _ _ _ _ _ E1 HP) as HP1.
  destruct r1 as [pid|e]; [|exact HP1].
  destruct (yolo w p conf) as [ds|e]; [|exact HP1].
  destruct (store_if_any ds _ db1) as [r2 db2] eqn:E2.
  pose proof (store_objects_kept _ _ _ _ _ _ _ Hkept E2 HP1) as HP2.
  destruct r2 as [[]|e]; [|exact HP2].
  destruct (store_if_any (detect_faces_in_image _ _ _) _ db2) as [r3 db3]
    eqn:E3.
  pose proof (store_faces_kept _ _ _ _ _ _ _ Hkept E3 HP2) as HP3.
  destruct r3 as [[]|e]; exact HP3.
Qed.

Lemma process_files_kept (w : World) (P : Db -> Prop) (self : YOLOProcessor)
  (conf : Q) (force : bool) (files : list string) :
  kept_by_writes w P ->
  forall st,
    P (catalog st) ->
    P (catalog (snd (process_files w self conf force st files))).
Proof.
  intros Hkept. induction files as [|q rest IH]; intros st HP; simpl; auto.
  assert (H1 : P (catalog (snd (process_file w self conf force st q)))).
  { unfold process_file.
    destruct (negb force && _is_image_already_processed w (catalog st) q);
      [exact HP|].
    pose proof (process_single_image_kept w P self st q conf Hkept HP) as H.
    now destruct (process_single_image w self st q conf) as [[r|e] st']. }
  destruct (process_file w self conf force st q) as [r st1].
  specialize (IH st1 H1).
  now destruct (process_files w self conf force st1 rest) as [rs st2].
Qed.

Lemma transaction_raise_keeps (w : World) :
  (forall db p m e db', add_photo w db p m = (Raise e, db') -> db' = db) /\
  (forall db pid ds e db',
     add_object_detections w db pid ds = (Raise e, db') -> db' = db) /\
  (forall db pid fs e db',
     add_face_detections w db pid fs = (Raise e, db') -> db' = db).
Proof.
  split; [|split]; intros.
  - eapply add_photo_raise; eassumption.
  - eapply add_object_detections_raise; eassumption.
  - eapply add_face_detections_raise; eassumption.
Qed.

(** *** The photos stay well formed *)

Lemma find_none_not_in (db : Db) (p : string) :
  find_photo p db = None -> ~ In p (map ph_file_path (photos db)).
Proof.
  unfold find_photo. induction (photos db) as [|r l IH]; simpl; [tauto|].
  destruct (sql_eqb db (ph_file_path r) p) eqn:E; [discriminate|].
  intros H [Heq|Hin]; [|now apply IH].
  subst p. now rewrite sql_eqb_refl in E.
Qed.

Lemma map_stable {A B} (g : A -> B) (f : A -> A) (l : list A) :
  (forall a, g (f a) = g a) -> map g (map f l) = map g l.
Proof.
  intros H. rewrite map_map. apply map_ext. exact H.
Qed.

Lemma photos_wf_kept (w : World) : kept_by_writes w photos_wf.
Proof.
  destruct (transaction_raise_keeps w) as (R1 & R2 & R3).
  unfold kept_by_writes. split; [|split].
  - (* add_photo *)
    intros db p m [pid|e] db' H; [|now rewrite (R1 _ _ _ _ _ H)].
    revert H. unfold add_photo, transaction, server.
    destruct (read_image w p) as [meta|e]; cbn [bind]; [|discriminate].
    destruct (db_error w (OpAddPhoto p)); cbn [bind]; [discriminate|].
    destruct (find_photo p db) as [existing|] eqn:Hfind;
      intros H (Hpaths & Hids & Hlt); inversion H; subst; clear H;
      unfold photos_wf; cbn [photos next_photo_id].
    + rewrite (map_stable ph_file_path)
        by (intros a; apply update_photo_path).
      rewrite (map_stable ph_id) by (intros a; apply update_photo_id).
      repeat split; auto.
      apply Forall_map. eapply Forall_impl; [|exact Hlt].
      intros a Ha. simpl. now rewrite update_photo_id.
    + rewrite !map_app. simpl. repeat split.
      * apply NoDup_app; [assumption | constructor; [simpl; tauto|constructor] |].
        intros x Hx [Heq|[]]. subst x.
        now apply (find_none_not_in db p).
      * apply NoDup_app; [assumption | constructor; [simpl; tauto|constructor] |].
        intros x Hx [Heq|[]]. subst x. rewrite Forall_forall in Hlt.
        apply in_map_iff in Hx. destruct Hx as (r & Hr & Hin).
        specialize (Hlt r Hin). simpl in Hlt. lia.
      * apply Forall_app. split.
        -- eapply Forall_impl; [|exact Hlt]. intros a Ha. simpl in *. lia.
        -- repeat constructor.
  - (* add_object_detections *)
    intros db pid ds [[]|e] db' H; [|now rewrite (R2 _ _ _ _ _ H)].
    apply add_object_detections_shape in H. destruct H as (rows & -> & _).
    intros (Hpaths & Hids & Hlt). unfold photos_wf, with_detections.
    cbn [photos next_photo_id].
    rewrite (map_stable ph_file_path)
      by (intros a; apply set_processed_at_path).
    rewrite (map_stable ph_id) by (intros a; apply set_processed_at_id).
    repeat split; auto.
    apply Forall_map. eapply Forall_impl; [|exact Hlt].
    intros a Ha. simpl. now rewrite set_processed_at_id.
  - (* add_face_detections *)
    intros db pid fs [[]|e] db' H; [|now rewrite (R3 _ _ _ _ _ H)].
    apply add_face_detections_shape in H. now subst db'.
Qed.

(** *** The summaries stay in step with the rows *)

Lemma summaries_agree_tables (db db' : Db) :
  object_detections db' = object_detections db ->
  object_summary db' = object_summary db ->
  face_detections db' = face_detections db ->
  face_summary db' = face_summary db ->
  summaries_agree db -> summaries_agree db'.
Proof.
  unfold summaries_agree, summary_of, detections_of, face_summary_of,
    faces_of.
  intros -> -> -> -> H. exact H.
Qed.

Lemma summaries_agree_kept (w : World) : kept_by_writes w summaries_agree.
Proof.
  destruct (transaction_raise_keeps w) as (R1 & R2 & R3).
  unfold kept_by_writes. split; [|split].
  - intros db p m [pid|e] db' H; [|now rewrite (R1 _ _ _ _ _ H)].
    apply add_photo_ok in H. destruct H as (H1 & H2 & H3 & H4 & _).
    now apply summaries_agree_tables.
  - intros db pid ds [[]|e] db' H Hagree; [|now rewrite (R2 _ _ _ _ _ H)].
    apply add_object_detections_shape in H.
    destruct H as (rows & Hdb & _ & Hpid & Hnd & Hnames & Hrows).
    intros photo_id.
    destruct (Nat.eq_dec photo_id pid) as [->|Hne].
    + assert (Hds : detections_of pid db' = map (stored_detection db) ds).
      { subst db'. unfold detections_of, with_detections.
        cbn [object_detections]. apply detections_of_replaced. }
      assert (Hsum : summary_of pid db' = rows).
      { subst db'. now apply summary_of_with_detections. }
      rewrite Hds, Hsum, class_names_stored.
      split; [exact Hnd|]. split; [exact Hnames|]. split.
      * eapply Forall_impl; [|exact Hrows]. intros row Hrow.
        apply row_counts_stored. exact (row_summarises_counts _ _ _ _ Hrow).
      * destruct (Hagree pid) as (_ & _ & _ & Hface).
        subst db'. exact Hface.
    + destruct (Hagree photo_id) as (A1 & A2 & A3 & A4).
      assert (Hsum : summary_of photo_id db' = summary_of photo_id db).
      { subst db'. unfold summary_of, with_detections. cbn [object_summary].
        now apply (replace_rows_other os_photo_id). }
      assert (Hds : detections_of photo_id db' = detections_of photo_id db).
      { subst db'. unfold detections_of, with_detections.
        cbn [object_detections]. f_equal.
        apply (replace_rows_other od_photo_id); [assumption|].
        apply Forall_forall. intros r Hr. apply in_map_iff in Hr.
        destruct Hr as (d & <- & _). reflexivity. }
      rewrite Hsum, Hds. repeat split; try assumption; try apply A2.
      subst db'. exact A4.
  - intros db pid fs [[]|e] db' H Hagree; [|now rewrite (R3 _ _ _ _ _ H)].
    apply add_face_detections_shape in H. intros photo_id.
    destruct (Hagree photo_id) as (A1 & A2 & A3 & A4).
    assert (Hobj : summary_of photo_id db' = summary_of photo_id db
                   /\ detections_of photo_id db' = detections_of photo_id db)
      by (subst db'; split; reflexivity).
    destruct Hobj as [-> ->].
    repeat split; try assumption; try apply A2.
    destruct (Nat.eq_dec photo_id pid) as [->|Hne].
    + right. subst db'. unfold face_summary_of, faces_of.
      cbn [face_summary face_detections].
      rewrite faces_of_replaced, recognized_stored, !length_map.
      apply (replace_rows_same fs_photo_id). now repeat constructor.
    + assert (Hsum : face_summary_of photo_id db'
                     = face_summary_of photo_id db).
      { subst db'. unfold face_summary_of. cbn [face_summary].
        apply (replace_rows_other fs_photo_id); [assumption|].
        now repeat constructor. }
      assert (Hfs : faces_of photo_id db' = faces_of photo_id db).
      { subst db'. unfold faces_of. cbn [face_detections]. f_equal.
        apply (replace_rows_other fd_photo_id); [assumption|].
        apply Forall_forall. intros r Hr. apply in_map_iff in Hr.
        destruct Hr as (d & <- & _). reflexivity. }
      rewrite Hsum, Hfs. exact A4.
Qed.

Lemma photos_wf_empty : photos_wf empty_db.
Proof. repeat split; constructor. Qed.

Lemma summaries_agree_empty : summaries_agree empty_db.
Proof.
  intros photo_id. repeat split; simpl; try tauto; try constructor.
Qed.

(** X1. A batch run leaves the photos well formed when it found them so,
    whatever fails on the way: no file path and no id is held by two
    rows, and every id is below the AUTO_INCREMENT counter. *)
Theorem batch_keeps_photos_well_formed :
  forall (w : World) (self : YOLOProcessor) (st : State)
         (directory_path : string) (conf : Q)
         (file_extensions : option (list string)) (force : bool),
    photos_wf (catalog st) ->
    photos_wf
      (catalog
         (snd (process_directory w self st directory_path conf
                 file_extensions force))).
Proof.
  intros. unfold process_directory.
  apply process_files_kept; [apply photos_wf_kept | assumption].
Qed.

Lemma batch_keeps_photos_well_formed_witness :
  photos_wf
    (catalog
       (snd (process_directory Sample.crowded Sample.processor Sample.start
               "/photos" Sample.threshold None false))).
Proof.
  apply (batch_keeps_photos_well_formed Sample.crowded Sample.processor
           Sample.start "/photos" Sample.threshold None false).
  exact photos_wf_empty.
Defined.

(** X2. A batch run leaves the summaries in step with the rows when it
    found them so, whatever fails on the way: for every photo the
    ObjectSummary has one row per class name of the photo's stored events,
    each with the number of those events and the class id of the first of
    them, and a FaceSummary, if the photo has one, is the one row counted
    from the photo's stored faces. *)
Theorem batch_keeps_summaries_in_step :
  forall (w : World) (self : YOLOProcessor) (st : State)
         (directory_path : string) (conf : Q)
         (file_extensions : option (list string)) (force : bool),
    summaries_agree (catalog st) ->
    summaries_agree
      (catalog
         (snd (process_directory w self st directory_path conf
                 file_extensions force))).
Proof.
  intros. unfold process_directory.
  apply process_files_kept; [apply summaries_agree_kept | assumption].
Qed.

Lemma batch_keeps_summaries_in_step_witness :
  summaries_agree
    (catalog
       (snd (process_directory Sample.crowded Sample.processor Sample.start
               "/photos" Sample.threshold None false))).
Proof.
  apply (batch_keeps_summaries_in_step Sample.crowded Sample.processor
           Sample.start "/photos" Sample.threshold None false).
  exact summaries_agree_empty.
Defined.

(** ** What one write stores *)

(** X3. When [add_object_detections] returns, the stored events of the
    photo are the events given, in their order, each with its class name
    and class id and with its confidence as the [DECIMAL(5,4)] column
    rounds it; the [total_count] of its summary rows add up to the number
    of events; every row of [photos] with the id has [processed_at] set to
    the time of the call; and the events and summary rows of every other
    photo are untouched. *)
Theorem add_object_detections_stores_the_events :
  forall (w : World) (db : Db) (photo_id : nat) (detections : list Detection)
         (u : unit) (db' : Db),
    add_object_detections w db photo_id detections = (Ok u, db') ->
    detections_of photo_id db'
    = map (fun d => mkDetection (class_name d) (class_id d)
                      (decimal_5_4 (schema db) (confidence d)))
        detections /\
    list_sum (map os_total_count (summary_of photo_id db'))
    = length detections /\
    (forall row, In row (photos db') -> ph_id row = photo_id ->
                 ph_processed_at row = Some (now w)) /\
    (forall other, other <> photo_id ->
       detections_of other db' = detections_of other db /\
       summary_of other db' = summary_of other db).
Proof.
  intros w db pid ds u db' H.
  apply add_object_detections_shape in H.
  destruct H as (rows & Hdb & _ & Hpid & Hnd & Hnames & Hrows).
  subst db'. split; [|split; [|split]].
  - unfold detections_of, with_detections. cbn [object_detections].
    apply (detections_of_replaced (stored_detection db)).
  - rewrite (summary_of_with_detections _ _ _ _ _ Hpid).
    apply summary_counts_add_up; [exact Hnd | exact Hnames |].
    eapply Forall_impl; [|exact Hrows].
    intros row. apply row_summarises_counts.
  - unfold with_detections. cbn [photos]. intros row Hin Hid.
    apply in_map_iff in Hin. destruct Hin as (r & <- & _).
    rewrite set_processed_at_id in Hid. unfold set_processed_at.
    apply Nat.eqb_eq in Hid. now rewrite Hid.
  - intros other Hne. unfold with_detections. split.
    + unfold detections_of. cbn [object_detections]. f_equal.
      apply (replace_rows_other od_photo_id); [assumption|].
      apply Forall_forall. intros r Hr. apply in_map_iff in Hr.
      destruct Hr as (d & <- & _). reflexivity.
    + unfold summary_of. cbn [object_summary].
      now apply (replace_rows_other os_photo_id).
Qed.

Lemma add_object_detections_stores_the_events_witness :
  let detections := [mkDetection "cat" 15 (12344 # 100000)%Q; Sample.dog] in
  let db' :=
    snd (add_object_detections Sample.quiet Fixture.catalog_a 1
           detections) in
  detections_of 1 db'
  = map (fun d => mkDetection (class_name d) (class_id d)
                    (decimal_5_4 (schema Fixture.catalog_a) (confidence d)))
      detections /\
  list_sum (map os_total_count (summary_of 1 db')) = length detections /\
  (forall row, In row (photos db') -> ph_id row = 1 ->
               ph_processed_at row = Some (now Sample.quiet)) /\
  (forall other, other <> 1 ->
     detections_of other db' = detections_of other Fixture.catalog_a /\
     summary_of other db' = summary_of other Fixture.catalog_a).
Proof.
  apply (add_object_detections_stores_the_events Sample.quiet
           Fixture.catalog_a 1
           [mkDetection "cat" 15 (12344 # 100000)%Q; Sample.dog] tt).
  reflexivity.
Defined.

(** The confidences of that run as the table holds them. *)
Example stored_confidences_sample :
  map confidence
    (detections_of 1
       (snd (add_object_detections Sample.quiet Fixture.catalog_a 1
               [mkDetection "cat" 15 (12344 # 100000)%Q; Sample.dog])))
  = [(1234 # 10000)%Q; (8000 # 10000)%Q].
Proof. reflexivity. Qed.

(** X4. When [add_face_detections] returns, the photo has a row in
    [photos]; the stored faces of the photo are the faces given, in their
    order, each with its encoding, box and name and with its two
    confidences as their [DECIMAL(5,4)] columns round them; the photo has
    exactly one FaceSummary row, whose [total_faces] is the number of
    faces given and equals [recognized_faces + unrecognized_faces], with
    [recognized_faces] the number of faces with a non-empty name; the
    faces and face summary of every other photo, and the tables of photos,
    EXIF data, events and object summaries, are untouched (so no
    [processed_at] is set). *)
Theorem add_face_detections_stores_the_faces :
  forall (w : World) (db : Db) (photo_id : nat) (faces : list FaceDetection)
         (u : unit) (db' : Db),
    add_face_detections w db photo_id faces = (Ok u, db') ->
    photo_exists db photo_id = true /\
    faces_of photo_id db'
    = map (fun d =>
             mkFaceDetection (face_encoding d) (location_top d)
               (location_right d) (location_bottom d) (location_left d)
               (decimal_5_4 (schema db) (face_confidence d))
               (recognized_name d)
               (option_map (decimal_5_4 (schema db))
                  (recognized_confidence d)))
        faces /\
    (exists row,
       face_summary_of photo_id db' = [row] /\
       fs_total_faces row = length faces /\
       fs_recognized_faces row = length (filter has_recognized_name faces) /\
       fs_total_faces row
       = fs_recognized_faces row + fs_unrecognized_faces row) /\
    (forall other, other <> photo_id ->
       faces_of other db' = faces_of other db /\
       face_summary_of other db' = face_summary_of other db) /\
    photos db' = photos db /\
    exif_data db' = exif_data db /\
    object_detections db' = object_detections db /\
    object_summary db' = object_summary db.
Proof.
  intros w db pid fs u db' H.
  assert (Hphoto : photo_exists db pid = true).
  { destruct (add_face_detections_cases w db pid fs)
      as [(e & Hrun & _)|(_ & _ & Hphoto)]; [|exact Hphoto].
    rewrite Hrun in H. discriminate. }
  apply add_face_detections_shape in H. subst db'.
  split; [exact Hphoto|]. split; [|split; [|split]].
  - unfold faces_of. cbn [face_detections].
    apply (faces_of_replaced (stored_face db)).
  - eexists. split; [|split; [|split]].
    + unfold face_summary_of. cbn [face_summary].
      apply (replace_rows_same fs_photo_id). now repeat constructor.
    + reflexivity.
    + reflexivity.
    + cbn. pose proof (recognized_at_most_all fs). lia.
  - intros other Hne. split.
    + unfold faces_of. cbn [face_detections]. f_equal.
      apply (replace_rows_other fd_photo_id); [assumption|].
      apply Forall_forall. intros r Hr. apply in_map_iff in Hr.
      destruct Hr as (d & <- & _). reflexivity.
    + unfold face_summary_of. cbn [face_summary].
      apply (replace_rows_other fs_photo_id); [assumption|].
      now repeat constructor.
  - repeat split.
Qed.

Lemma add_face_detections_stores_the_faces_witness :
  let db := catalog (Sample.after Sample.portrait Sample.start "/photos/a.jpg") in
  let faces :=
    [mkFaceDetection [(3 # 10)%Q] 10 60 70 20 1 (Some "bob")
       (Some (70001 # 100000)%Q);
     mkFaceDetection [(9 # 10)%Q] 15 90 80 40 1 None None] in
  let db' := snd (add_face_detections Sample.quiet db 1 faces) in
  photo_exists db 1 = true /\
  faces_of 1 db'
  = map (fun d =>
           mkFaceDetection (face_encoding d) (location_top d)
             (location_right d) (location_bottom d) (location_left d)
             (decimal_5_4 (schema db) (face_confidence d))
             (recognized_name d)
             (option_map (decimal_5_4 (schema db))
                (recognized_confidence d)))
      faces /\
  (exists row,
     face_summary_of 1 db' = [row] /\
     fs_total_faces row = length faces /\
     fs_recognized_faces row = length (filter has_recognized_name faces) /\
     fs_total_faces row
     = fs_recognized_faces row + fs_unrecognized_faces row) /\
  (forall other, other <> 1 ->
     faces_of other db' = faces_of other db /\
     face_summary_of other db' = face_summary_of other db) /\
  photos db' = photos db /\
  exif_data db' = exif_data db /\
  object_detections db' = object_detections db /\
  object_summary db' = object_summary db.
Proof.
  apply (add_face_detections_stores_the_faces Sample.quiet
           (catalog (Sample.after Sample.portrait Sample.start
                       "/photos/a.jpg"))
           1
           [mkFaceDetection [(3 # 10)%Q] 10 60 70 20 1 (Some "bob")
              (Some (70001 # 100000)%Q);
            mkFaceDetection [(9 # 10)%Q] 15 90 80 40 1 None None]
           tt).
  reflexivity.
Defined.

(** The faces of that run as the table holds them: the photo had one face
    and has two, the confidence of the match with four decimals. *)
Example stored_faces_sample :
  let db := catalog (Sample.after Sample.portrait Sample.start "/photos/a.jpg") in
  let db' :=
    snd (add_face_detections Sample.quiet db 1
           [mkFaceDetection [(3 # 10)%Q] 10 60 70 20 1 (Some "bob")
              (Some (70001 # 100000)%Q);
            mkFaceDetection [(9 # 10)%Q] 15 90 80 40 1 None None]) in
  length (faces_of 1 db) = 1 /\
  map recognized_confidence (faces_of 1 db')
  = [Some (7000 # 10000)%Q; None].
Proof. split; reflexivity. Qed.

(** ** Ingesting a path again *)

Lemma find_photo_path (p : string) (db : Db) (row : PhotoRow) :
  find_photo p db = Some row ->
  In row (photos db) /\ sql_eqb db (ph_file_path row) p = true.
Proof. unfold find_photo. intros H. now apply find_some in H. Qed.

(** X5. Ingesting a path a second time updates its photo in place:
    [add_photo] returns the id of the first ingestion, adds no row and
    draws no new id, keeps [created_at] and [processed_at], and sets the
    file name, the image data and the model name to those of the second
    call. *)
Theorem add_photo_again_updates_in_place :
  forall (w1 w2 : World) (db : Db) (p m1 m2 : string) (id1 id2 : nat)
         (db1 db2 : Db),
    add_photo w1 db p m1 = (Ok id1, db1) ->
    add_photo w2 db1 p m2 = (Ok id2, db2) ->
    id2 = id1 /\
    length (photos db2) = length (photos db1) /\
    next_photo_id db2 = next_photo_id db1 /\
    exists row1 row2,
      find_photo p db1 = Some row1 /\
      find_photo p db2 = Some row2 /\
      ph_id row2 = id1 /\
      ph_created_at row2 = ph_created_at row1 /\
      ph_processed_at row2 = ph_processed_at row1 /\
      ph_file_name row2 = Py.basename p /\
      read_image w2 p = Ok (ph_meta row2) /\
      ph_yolo_model_used row2 = m2.
Proof.
  intros w1 w2 db p m1 m2 id1 id2 db1 db2 H1 H2.
  apply add_photo_ok in H1.
  destruct H1 as (_ & _ & _ & _ & _ & Hid & _ & _).
  unfold photo_id_of in Hid.
  destruct (find_photo p db1) as [row1|] eqn:Hfind; [|discriminate].
  simpl in Hid. inversion Hid as [Hid1].
  pose proof (find_photo_path _ _ _ Hfind) as [_ Hpath].
  revert H2. unfold add_photo, transaction, server.
  destruct (read_image w2 p) as [meta|e]; cbn [bind]; [|discriminate].
  destruct (db_error w2 (OpAddPhoto p)); cbn [bind]; [discriminate|].
  rewrite Hfind. intros H2. injection H2 as Hid2 Hdb2.
  subst id2 db2 id1. cbn [photos next_photo_id]. repeat split.
  - now rewrite length_map.
  - exists row1, (update_photo db1 p (Py.basename p) meta m2 row1).
    rewrite find_photo_rebuilt by apply update_photo_path.
    rewrite Hfind. unfold update_photo. simpl. rewrite !Hpath. simpl.
    repeat split; reflexivity.
Qed.

Lemma add_photo_again_updates_in_place_witness :
  let db1 :=
    snd (add_photo Sample.tagged empty_db "/photos/a.jpg" "yolov8n.pt") in
  let db2 := snd (add_photo Sample.quiet db1 "/photos/a.jpg" "yolo11n.pt") in
  1 = 1 /\
  length (photos db2) = length (photos db1) /\
  next_photo_id db2 = next_photo_id db1 /\
  exists row1 row2,
    find_photo "/photos/a.jpg" db1 = Some row1 /\
    find_photo "/photos/a.jpg" db2 = Some row2 /\
    ph_id row2 = 1 /\
    ph_created_at row2 = ph_created_at row1 /\
    ph_processed_at row2 = ph_processed_at row1 /\
    ph_file_name row2 = Py.basename "/photos/a.jpg" /\
    read_image Sample.quiet "/photos/a.jpg" = Ok (ph_meta row2) /\
    ph_yolo_model_used row2 = "yolo11n.pt".
Proof.
  apply (add_photo_again_updates_in_place Sample.tagged Sample.quiet empty_db
           "/photos/a.jpg" "yolov8n.pt" "yolo11n.pt" 1 1);
    reflexivity.
Defined.

(** ** What marks a photo as processed *)

Lemma add_photo_processed_same (w : World) (db : Db) (p model : string)
  (pid : nat) (db' : Db) :
  add_photo w db p model = (Ok pid, db') ->
  forall q, processed q db' = processed q db.
Proof.
  unfold add_photo, transaction, server, processed.
  destruct (read_image w p) as [meta|e]; cbn [bind]; [|discriminate].
  destruct (db_error w (OpAddPhoto p)); cbn [bind]; [discriminate|].
  destruct (find_photo p db) as [existing|] eqn:Hfind; intros H q;
    inversion H; subst; clear H.
  - rewrite find_photo_rebuilt by apply update_photo_path.
    destruct (find_photo q db); simpl; auto.
    now rewrite update_photo_processed_at.
  - unfold find_photo, sql_eqb. cbn [photos schema].
    destruct (find _ (photos db)) as [row|] eqn:Hq.
    + now rewrite (find_app_some _ _ _ _ Hq).
    + rewrite (find_app_none _ _ _ Hq). simpl.
      now destruct (String.eqb _ _).
Qed.

(** X6. A photo that [process_single_image] handled with at least one
    detected object is marked as processed, and a later batch run without
    [force_reprocess] that enumerates its path (and whose lookup is
    answered) skips it. *)
Theorem a_photo_with_objects_is_skipped_next_time :
  forall (w w2 : World) (self : YOLOProcessor) (st st' : State) (p : string)
         (conf conf2 : Q) (r : ImageResult) (directory_path : string)
         (file_extensions : option (list string)),
    process_single_image w self st p conf = (Ok r, st') ->
    ir_detections r <> [] ->
    In p (image_files w2 directory_path file_extensions) ->
    db_error w2 (OpIsProcessed p) = None ->
    processed p (catalog st') = true /\
    In (Skipped p)
      (fst (process_directory w2 self st' directory_path conf2
              file_extensions false)).
Proof.
  intros w w2 self st st' p conf conf2 r directory_path file_extensions
         Hrun Hobjects Hin Hserver.
  assert (Hp : processed p (catalog st') = true).
  { apply process_single_image_ok in Hrun.
    destruct Hrun as (pid & db1 & ds & db2 & db3 & Hadd & _ & Hobj & Hface
                      & -> & ->).
    cbn [ir_detections] in Hobjects.
    destruct ds as [|d ds]; [congruence|]. simpl in Hobj.
    apply add_photo_ok in Hadd.
    destruct Hadd as (_ & _ & _ & _ & _ & Hid & _ & _).
    apply add_object_detections_shape in Hobj.
    destruct Hobj as (rows & Hdb2 & _).
    apply store_faces_ok in Hface. destruct Hface as (Hph & _).
    rewrite (processed_photos p _ _ Hph). subst db2.
    unfold processed, photo_id_of in *.
    rewrite find_photo_with_detections.
    destruct (find_photo p db1) as [row|]; [|discriminate].
    simpl in Hid. inversion Hid as [Hrow]. simpl.
    unfold set_processed_at. now rewrite Nat.eqb_refl. }
  split; [exact Hp|].
  unfold process_directory.
  destruct (process_files_skips w2 self conf2 p
              (image_files w2 directory_path file_extensions) Hserver st' Hp)
    as (_ & Hskipped & _).
  now apply Hskipped.
Qed.

Lemma a_photo_with_objects_is_skipped_next_time_witness :
  let st' := Sample.after Sample.crowded Sample.start "/photos/a.jpg" in
  processed "/photos/a.jpg" (catalog st') = true /\
  In (Skipped "/photos/a.jpg")
    (fst (process_directory Sample.quiet Sample.processor st' "/photos"
            Sample.threshold None false)).
Proof.
  apply (a_photo_with_objects_is_skipped_next_time Sample.crowded
           Sample.quiet Sample.processor Sample.start
           (Sample.after Sample.crowded Sample.start "/photos/a.jpg")
           "/photos/a.jpg" Sample.threshold Sample.threshold
           (Sample.returned Sample.crowded Sample.start "/photos/a.jpg")
           "/photos" None).
  - reflexivity.
  - discriminate.
  - simpl. now left.
  - reflexivity.
Defined.

(** The catalog looks a path up as the collation compares it: after the
    run on "/photos/a.jpg" the path "/photos/A.JPG" is processed too. *)
Example processed_in_another_case :
  let st := Sample.after Sample.crowded Sample.start "/photos/a.jpg" in
  processed "/photos/A.JPG" (catalog st) = true /\
  photo_id_of "/photos/A.JPG" (catalog st) = Some 1 /\
  processed "/photos/b.jpg" (catalog st) = false.
Proof. repeat split. Qed.

(** X7. A photo in which [process_single_image] finds no object is not
    marked: whether the catalog holds the path as processed is the same
    after the call as before it, whatever faces were stored. So a path
    that was not processed before is not skipped by the next turn of a
    batch without [force_reprocess]: the turn runs [process_single_image]
    on it again. *)
Theorem a_photo_without_objects_is_not_marked :
  forall (w w2 : World) (self : YOLOProcessor) (st st' : State) (p : string)
         (conf conf2 : Q) (r : ImageResult),
    process_single_image w self st p conf = (Ok r, st') ->
    ir_detections r = [] ->
    (forall q, processed q (catalog st') = processed q (catalog st)) /\
    (processed p (catalog st) = false ->
     process_file w2 self conf2 false st' p
     = match process_single_image w2 self st' p conf2 with
       | (Ok r2, st2) => (Processed r2, st2)
       | (Raise e, st2) => (Failed p e, st2)
       end).
Proof.
  intros w w2 self st st' p conf conf2 r Hrun Hnone.
  assert (Hsame : forall q,
            processed q (catalog st') = processed q (catalog st)).
  { apply process_single_image_ok in Hrun.
    destruct Hrun as (pid & db1 & ds & db2 & db3 & Hadd & _ & Hobj & Hface
                      & -> & ->).
    cbn [ir_detections] in Hnone. subst ds. simpl in Hobj.
    inversion Hobj; subst db2.
    apply store_faces_ok in Hface. destruct Hface as (Hph & _).
    intros q. rewrite (processed_photos q _ _ Hph).
    now apply (add_photo_processed_same _ _ _ _ _ _ Hadd). }
  split; [exact Hsame|].
  intros Hnot. unfold process_file, _is_image_already_processed.
  fold (processed p (catalog st')). rewrite Hsame, Hnot.
  destruct (server w2 (OpIsProcessed p)); reflexivity.
Qed.

Lemma a_photo_without_objects_is_not_marked_witness :
  let st' := Sample.after Sample.portrait Sample.start "/photos/a.jpg" in
  (forall q, processed q (catalog st') = processed q (catalog Sample.start))
  /\
  (processed "/photos/a.jpg" (catalog Sample.start) = false ->
   process_file Sample.quiet Sample.processor Sample.threshold false st'
     "/photos/a.jpg"
   = match process_single_image Sample.quiet Sample.processor st'
             "/photos/a.jpg" Sample.threshold with
     | (Ok r2, st2) => (Processed r2, st2)
     | (Raise e, st2) => (Failed "/photos/a.jpg" e, st2)
     end).
Proof.
  apply (a_photo_without_objects_is_not_marked Sample.portrait Sample.quiet
           Sample.processor Sample.start
           (Sample.after Sample.portrait Sample.start "/photos/a.jpg")
           "/photos/a.jpg" Sample.threshold Sample.threshold
           (Sample.returned Sample.portrait Sample.start "/photos/a.jpg"));
    reflexivity.
Defined.

(** ** The gallery and the matcher *)

(** X8. [set_known_faces] replaces the gallery instead of extending it:
    loading a second list leaves exactly the names and encodings of the
    second list, entry by entry in its order, so the two lists of the
    processor always have the same length; the tolerance is kept. *)
Theorem set_known_faces_replaces_the_gallery :
  forall (fp : FaceProcessor) (first second : list KnownFace),
    let loaded := set_known_faces (set_known_faces fp first) second in
    loaded = set_known_faces fp second /\
    known_face_names loaded = map kf_name second /\
    known_face_encodings loaded = map kf_face_encoding second /\
    length (known_face_names loaded) = length (known_face_encodings loaded) /\
    tolerance loaded = tolerance fp.
Proof.
  intros fp first second loaded. subst loaded.
  rewrite !set_known_faces_lists. cbn. repeat split.
  now rewrite !length_map.
Qed.

(** What [recognize] returns for a loaded gallery. *)
Lemma recognize_loaded (w : World) (tol : Q) (gallery : list KnownFace)
  (q : Encoding) :
  let dist := fun k => distance w (kf_face_encoding k) q in
  let fp :=
    mkFaceProcessor tol (map kf_face_encoding gallery)
      (map kf_name gallery) in
  recognize w fp q = Ok (None, None) \/
  exists k,
    In k gallery /\ (dist k <= tol)%Q /\
    recognize w fp q = Ok (Some (kf_name k), Some (1 - dist k)%Q).
Proof.
  intros dist fp. subst fp. unfold recognize. simpl.
  pose proof (compare_faces_any w gallery q tol) as Hmatches.
  assert (Hdists : face_distance w (map kf_face_encoding gallery) q
                   = map dist gallery).
  { unfold face_distance. now rewrite map_map. }
  destruct (map kf_face_encoding gallery) as [|e0 es] eqn:Eg; [now left|].
  rewrite Hmatches.
  destruct (existsb _ gallery) eqn:E; [|now left].
  apply existsb_exists in E. destruct E as (kc & Hkc & Hle).
  apply Qle_bool_iff in Hle. fold (dist kc) in Hle.
  assert (Hne : map dist gallery <> []).
  { destruct gallery; [destruct Hkc | discriminate]. }
  destruct (argmin_spec _ Hne) as (b & mb & Hb & Hnth & Hmin & _).
  rewrite nth_error_map in Hnth.
  destruct (nth_error gallery b) as [k|] eqn:Hk; [|discriminate].
  simpl in Hnth. inversion Hnth as [Hmb]. subst mb. clear Hnth.
  assert (Hkle : (dist k <= tol)%Q).
  { apply In_nth_error in Hkc. destruct Hkc as (j & Hj).
    apply Qle_trans with (dist kc); [|exact Hle].
    apply (Hmin j). rewrite nth_error_map, Hj. reflexivity. }
  right. exists k. split; [now apply nth_error_In with b|].
  split; [exact Hkle|].
  rewrite Hdists, Hb. simpl. unfold compare_faces. rewrite Hdists.
  unfold Py.index. rewrite !nth_error_map, Hk. simpl.
  apply Qle_bool_iff in Hkle. fold (dist k). rewrite Hkle. reflexivity.
Qed.


Lemma recognize_all_loaded (w : World) (fp0 : FaceProcessor)
  (gallery : list KnownFace) (faces : list (Location * Encoding)) :
  exists fds,
    recognize_all w (set_known_faces fp0 gallery) faces = Ok fds /\
    map (fun fd =>
           ((location_top fd, location_right fd, location_bottom fd,
             location_left fd), face_encoding fd)) fds
    = faces.
Proof.
  induction faces as [|[[[[t r] b] l] e] rest IH]; simpl.
  - exists []. now split.
  - destruct IH as (fds & Hfds & Hmap).
    assert (Hrec : exists res,
              recognize w (set_known_faces fp0 gallery) e = Ok res).
    { rewrite set_known_faces_lists.
      destruct (recognize_loaded w (tolerance fp0) gallery e)
        as [H|(k & _ & _ & H)]; rewrite H; eauto. }
    destruct Hrec as (res & ->). simpl. rewrite Hfds. simpl.
    eexists. split; [reflexivity|]. simpl. now rewrite Hmap.
Qed.

(** X10. With a gallery loaded by [set_known_faces], for an image in
    which the engine locates faces and encodes them,
    [detect_faces_in_image] returns one record per located and encoded
    face, in the engine's order, carrying that face's box and encoding:
    matching drops no face. *)
Theorem detect_faces_returns_every_face :
  forall (w : World) (fp0 : FaceProcessor) (gallery : list KnownFace)
         (image_path : string) (locations : list Location)
         (encodings : list Encoding),
    face_locations w image_path = Ok locations ->
    face_encodings w image_path locations = Ok encodings ->
    map (fun fd =>
           ((location_top fd, location_right fd, location_bottom fd,
             location_left fd), face_encoding fd))
      (detect_faces_in_image w (set_known_faces fp0 gallery) image_path)
    = combine locations encodings.
Proof.
  intros w fp0 gallery image_path locations encodings Hloc Henc.
  unfold detect_faces_in_image. rewrite Hloc. cbn [bind].
  destruct locations as [|loc locs]; [reflexivity|].
  rewrite Henc. cbn [bind].
  destruct (recognize_all_loaded w fp0 gallery
              (combine (loc :: locs) encodings)) as (fds & -> & Hmap).
  exact Hmap.
Qed.

Lemma detect_faces_returns_every_face_witness :
  map (fun fd =>
         ((location_top fd, location_right fd, location_bottom fd,
           location_left fd), face_encoding fd))
    (detect_faces_in_image Sample.portrait
       (set_known_faces (mkFaceProcessor (6 # 10)%Q [] []) Sample.gallery)
       "/photos/a.jpg")
  = combine [(10, 60, 70, 20)%Z] [[(3 # 10)%Q]].
Proof.
  apply (detect_faces_returns_every_face Sample.portrait
           (mkFaceProcessor (6 # 10)%Q [] []) Sample.gallery "/photos/a.jpg");
    reflexivity.
Defined.

(** ** Face statistics *)

Lemma nodup_length_le (l : list string) :
  length (nodup string_dec l) <= length l.
Proof.
  induction l as [|a l IH]; simpl; auto.
  destruct (in_dec string_dec a l); simpl; lia.
Qed.

Lemma recognized_names_length (fs : list FaceDetection) :
  length
    (flat_map
       (fun d => match recognized_name d with Some n => [n] | None => [] end)
       (filter has_recognized_name fs))
  = length (filter has_recognized_name fs).
Proof.
  induction fs as [|d fs IH]; simpl; auto.
  destruct (has_recognized_name d) eqn:Hd; simpl; [|exact IH].
  unfold has_recognized_name in Hd.
  destruct (recognized_name d) as [n|]; [|discriminate].
  simpl. now rewrite IH.
Qed.

(** X11. [FaceProcessor.get_face_statistics] counts what
    [add_face_detections] stores: for the same faces its totals are the
    three counts of the FaceSummary row written, with
    [total_faces = recognized_faces + unrecognized_faces]; its names are
    without repeats, are exactly the non-empty names of the faces, and are
    no more than the recognized faces. *)
Theorem face_statistics_match_the_stored_summary :
  forall (w : World) (db : Db) (photo_id : nat) (faces : list FaceDetection)
         (u : unit) (db' : Db),
    add_face_detections w db photo_id faces = (Ok u, db') ->
    let s := get_face_statistics faces in
    face_summary_of photo_id db'
    = [mkFaceSummaryRow photo_id (st_total_faces s) (st_recognized_faces s)
         (st_unrecognized_faces s)] /\
    st_total_faces s = st_recognized_faces s + st_unrecognized_faces s /\
    NoDup (st_recognized_names s) /\
    (forall n, In n (st_recognized_names s) <->
               n <> EmptyString /\
               exists d, In d faces /\ recognized_name d = Some n) /\
    length (st_recognized_names s) <= st_recognized_faces s.
Proof.
  intros w db pid fs u db' H s. subst s.
  apply add_face_detections_ok in H. destruct H as (_ & _ & _ & _ & Hrow).
  unfold get_face_statistics. cbn.
  split; [exact Hrow|]. split; [|split; [|split]].
  - pose proof (recognized_at_most_all fs). lia.
  - apply NoDup_nodup.
  - intros n. rewrite nodup_In, in_flat_map. split.
    + intros (d & Hd & Hn). apply filter_In in Hd. destruct Hd as [Hd Hrec].
      unfold has_recognized_name in Hrec.
      destruct (recognized_name d) as [m|] eqn:E; [|discriminate].
      destruct Hn as [<-|[]]. split.
      * intros ->. discriminate.
      * exists d. now split.
    + intros (Hne & d & Hd & E). exists d. split.
      * apply filter_In. split; [exact Hd|].
        unfold has_recognized_name. rewrite E.
        destruct n; [congruence | reflexivity].
      * rewrite E. now left.
  - etransitivity; [apply nodup_length_le|].
    now rewrite recognized_names_length.
Qed.

Lemma face_statistics_match_the_stored_summary_witness :
  let faces :=
    detect_faces_in_image Sample.portrait (Sample.matcher (6 # 10)%Q)
      "/photos/a.jpg" in
  let db' :=
    snd (add_face_detections Sample.quiet Fixture.catalog_a 1 faces) in
  let s := get_face_statistics faces in
  face_summary_of 1 db'
  = [mkFaceSummaryRow 1 (st_total_faces s) (st_recognized_faces s)
       (st_unrecognized_faces s)] /\
  st_total_faces s = st_recognized_faces s + st_unrecognized_faces s /\
  NoDup (st_recognized_names s) /\
  (forall n, In n (st_recognized_names s) <->
             n <> EmptyString /\
             exists d, In d faces /\ recognized_name d = Some n) /\
  length (st_recognized_names s) <= st_recognized_faces s.
Proof.
  apply (face_statistics_match_the_stored_summary Sample.quiet
           Fixture.catalog_a 1 _ tt).
  reflexivity.
Defined.

(** ** The tallies of a batch *)

Lemma count_status_partition (results : list FileResult) :
  count_status "processed" results + count_status "skipped" results
  + count_status "error" results
  = length results.
Proof.
  unfold count_status.
  induction results as [|r rs IH]; simpl; auto.
  destruct r; simpl; lia.
Qed.

Lemma successful_is_not_error (results : list FileResult) :
  length (filter without_error results)
  = count_status "processed" results + count_status "skipped" results.
Proof.
  unfold count_status.
  induction results as [|r rs IH]; simpl; auto.
  destruct r; simpl; lia.
Qed.

Lemma objects_of_successful (results : list FileResult) :
  list_sum (map detections_count (filter without_error results))
  = list_sum (map detections_count results).
Proof.
  induction results as [|r rs IH]; simpl; auto.
  destruct r; simpl; lia.
Qed.

Lemma forced_run_skips_nothing (w : World) (self : YOLOProcessor) (conf : Q)
  (files : list string) :
  forall st,
    count_status "skipped" (fst (process_files w self conf true st files))
    = 0.
Proof.
  unfold count_status.
  induction files as [|q rest IH]; intros st; simpl; auto.
  unfold process_file. simpl.
  destruct (process_single_image w self st q conf) as [[r|e] st1];
    specialize (IH st1);
    destruct (process_files w self conf true st1 rest) as [rs st2];
    simpl in *; exact IH.
Qed.

(** X12. The entries of a batch run fall into processed, skipped and error,
    and the three counts add up to the number of enumerated files; with
    [force_reprocess] nothing is skipped. In the summary the command line
    prints, "successful" counts the processed and the skipped entries
    together, "failed" is the number of error entries, and the total of
    objects, printed only when something was successful, is the sum of the
    detection counts of all entries. *)
Theorem batch_tallies_add_up :
  forall (w : World) (self : YOLOProcessor) (st : State)
         (directory_path : string) (conf : Q)
         (file_extensions : option (list string)) (force : bool),
    let files := image_files w directory_path file_extensions in
    let results :=
      fst (process_directory w self st directory_path conf file_extensions
             force) in
    let summary := batch_summary results in
    count_status "processed" results + count_status "skipped" results
    + count_status "error" results = length files /\
    (force = true -> count_status "skipped" results = 0) /\
    bs_total summary = length files /\
    bs_successful summary
    = count_status "processed" results + count_status "skipped" results /\
    bs_failed summary = count_status "error" results /\
    (bs_total_objects summary = None <-> bs_successful summary = 0) /\
    (forall n, bs_total_objects summary = Some n ->
               n = list_sum (map detections_count results)).
Proof.
  intros w self st directory_path conf file_extensions force files results
         summary.
  assert (Hlen : length results = length files).
  { subst results files. unfold process_directory.
    apply process_files_length. }
  pose proof (count_status_partition results) as Hpart.
  pose proof (successful_is_not_error results) as Hsucc.
  subst summary. unfold batch_summary. cbn.
  split; [lia|]. split; [|split; [exact Hlen|split; [exact Hsucc|split]]].
  - intros ->. subst results. unfold process_directory.
    apply forced_run_skips_nothing.
  - lia.
  - rewrite <- (objects_of_successful results).
    destruct (length (filter without_error results)) as [|k]; simpl; split.
    + split; reflexivity.
    + intros n H. discriminate.
    + split; intros H; discriminate.
    + intros n H. now inversion H.
Qed.

(** A run with one photo handled: one successful entry, three objects. *)
Example batch_summary_sample :
  batch_summary
    (fst (process_directory Sample.crowded Sample.processor Sample.start
            "/photos" Sample.threshold None false))
  = mkBatchSummary 1 1 0 (Some 3).
Proof. reflexivity. Qed.

(** ** The table of known faces *)

Lemma path_is_some (key : string -> string) (p : string)
  (r : KnownFaceRow) :
  path_is key (Some p) r = true <->
  exists q, kr_image_path r = Some q /\ key q = key p.
Proof.
  unfold path_is. destruct (kr_image_path r) as [q|].
  - rewrite String.eqb_eq. split.
    + intros H. exists q. auto.
    + intros (q' & Hq & H). now inversion Hq; subst.
  - split; [discriminate | intros (q & Hq & _); discriminate].
Qed.

Lemma image_paths_in (p : string) (rows : list KnownFaceRow) :
  In p (image_paths rows) <->
  exists r, In r rows /\ kr_image_path r = Some p.
Proof.
  unfold image_paths. rewrite in_flat_map. split.
  - intros (r & Hr & Hp). exists r. split; [exact Hr|].
    destruct (kr_image_path r); simpl in Hp; [|tauto].
    destruct Hp as [->|[]]. reflexivity.
  - intros (r & Hr & Hp). exists r. split; [exact Hr|].
    rewrite Hp. now left.
Qed.

Lemma image_paths_map (f : KnownFaceRow -> KnownFaceRow)
  (rows : list KnownFaceRow) :
  (forall r, kr_image_path (f r) = kr_image_path r) ->
  image_paths (map f rows) = image_paths rows.
Proof.
  intros Hf. unfold image_paths.
  induction rows as [|r l IH]; simpl; auto. now rewrite Hf, IH.
Qed.

Lemma image_paths_app (l1 l2 : list KnownFaceRow) :
  image_paths (l1 ++ l2) = image_paths l1 ++ image_paths l2.
Proof. unfold image_paths. apply flat_map_app. Qed.

Lemma image_paths_cons (r : KnownFaceRow) (l : list KnownFaceRow) :
  image_paths (r :: l)
  = match kr_image_path r with Some p => [p] | None => [] end
    ++ image_paths l.
Proof. reflexivity. Qed.

(** Under the unique key two rows with paths of one key are one row. *)
Lemma same_key_same_row (key : string -> string)
  (rows : list KnownFaceRow) (a b : KnownFaceRow) (p q : string) :
  NoDup (map key (image_paths rows)) ->
  In a rows -> In b rows ->
  kr_image_path a = Some p -> kr_image_path b = Some q -> key p = key q ->
  a = b.
Proof.
  induction rows as [|r l IH]; [simpl; tauto|].
  intros Hnd Ha Hb Hpa Hpb Hkey.
  rewrite image_paths_cons, map_app in Hnd.
  assert (Hl : NoDup (map key (image_paths l)))
    by now apply NoDup_app_remove_l in Hnd.
  assert (Hr : forall x, kr_image_path r = Some x ->
                         ~ In (key x) (map key (image_paths l))).
  { intros x Hx Hin. rewrite Hx in Hnd. simpl in Hnd.
    inversion Hnd. tauto. }
  destruct Ha as [<-|Ha], Hb as [<-|Hb]; auto.
  - exfalso. apply (Hr p Hpa). rewrite Hkey. apply in_map.
    apply image_paths_in. eauto.
  - exfalso. apply (Hr q Hpb). rewrite <- Hkey. apply in_map.
    apply image_paths_in. eauto.
Qed.

Lemma add_known_face_spec :
  forall (err : option exn) (created_at : nat) (t : KnownFaces)
         (name : string) (face_encoding : Encoding)
         (image_path : option string) (r : result nat) (t' : KnownFaces),
    known_faces_wf t ->
    add_known_face err created_at t name face_encoding image_path = (r, t') ->
    known_faces_wf t' /\
    kf_collation t' = kf_collation t /\
    (forall e, r = Raise e -> t' = t /\ err = Some e) /\
    (forall id, r = Ok id ->
       (exists row,
          In row (kf_rows t') /\ kr_id row = id /\ kr_name row = name /\
          kr_face_encoding row = face_encoding /\
          match image_path with
          | Some _ => path_is (kf_collation t) image_path row = true
          | None => kr_image_path row = None
          end) /\
       (forall old, In old (kf_rows t) ->
          path_is (kf_collation t) image_path old = true ->
          kr_id old = id /\
          In (mkKnownFaceRow id name face_encoding (kr_image_path old)
                (kr_created_at old))
            (kf_rows t') /\
          length (kf_rows t') = length (kf_rows t) /\
          kf_next_id t' = kf_next_id t) /\
       ((forall old, In old (kf_rows t) ->
           path_is (kf_collation t) image_path old = false) ->
        id = kf_next_id t /\
        kf_rows t'
        = kf_rows t
          ++ [mkKnownFaceRow id name face_encoding image_path created_at]) /\
       (forall other, In other (kf_rows t) ->
          path_is (kf_collation t) image_path other = false ->
          In other (kf_rows t'))).
Proof.
  intros err created_at t name enc image_path r t' (Hpaths & Hids & Hlt).
  unfold add_known_face. destruct err as [e|].
  { intros H. inversion H; subst. split; [now repeat split|].
    split; [reflexivity|]. split.
    - intros e' He'. inversion He'. now split.
    - intros id Hid. discriminate. }
  set (key := kf_collation t) in *.
  destruct (find (path_is key image_path) (kf_rows t)) as [existing|]
    eqn:Hfind; intros H; inversion H; subst; clear H.
  - (* a row holds the path: update *)
    apply find_some in Hfind. destruct Hfind as [Hin Hpath].
    assert (Hsome : exists p, image_path = Some p)
      by (destruct image_path as [p|]; [eauto | discriminate]).
    destruct Hsome as (p & ->).
    destruct (proj1 (path_is_some key p existing) Hpath) as (q & Hq & Hqp).
    split; [|split; [reflexivity|split]].
    + unfold known_faces_wf. cbn [kf_rows kf_next_id kf_collation].
      rewrite image_paths_map.
      2: { intros x. cbv beta. destruct (path_is key (Some p) x);
             reflexivity. }
      rewrite (map_stable kr_id).
      2: { intros x. cbv beta. destruct (path_is key (Some p) x);
             reflexivity. }
      repeat split; auto.
      apply Forall_map. eapply Forall_impl; [|exact Hlt].
      intros x Hx. cbv beta in *. destruct (path_is key (Some p) x); exact Hx.
    + intros e He. discriminate.
    + intros id Hid. inversion Hid; subst id. cbn [kf_rows kf_next_id].
      assert (Hnew : In (mkKnownFaceRow (kr_id existing) name enc
                           (kr_image_path existing) (kr_created_at existing))
                       (map (fun r =>
                               if path_is key (Some p) r
                               then mkKnownFaceRow (kr_id r) name enc
                                      (kr_image_path r) (kr_created_at r)
                               else r)
                          (kf_rows t))).
      { apply in_map_iff. exists existing. now rewrite Hpath. }
      split; [|split; [|split]].
      * eexists. split; [exact Hnew|]. repeat split; auto.
      * intros old Hold Holdp.
        destruct (proj1 (path_is_some key p old) Holdp) as (q' & Hq' & Hq'p).
        rewrite (same_key_same_row key _ old existing q' q Hpaths Hold Hin
                   Hq' Hq) by congruence.
        repeat split; [exact Hnew | apply length_map].
      * intros Hnone. specialize (Hnone existing Hin). congruence.
      * intros other Hother Hnot. apply in_map_iff. exists other.
        now rewrite Hnot.
  - (* no row holds the path: insert *)
    assert (Hnone : forall old, In old (kf_rows t) ->
                                path_is key image_path old = false).
    { intros old Hold. exact (find_none _ _ Hfind old Hold). }
    split; [|split; [reflexivity|split]].
    + unfold known_faces_wf. cbn [kf_rows kf_next_id kf_collation].
      rewrite image_paths_app, !map_app. simpl. repeat split.
      * destruct image_path as [p|]; simpl; [|now rewrite app_nil_r].
        apply NoDup_app;
          [assumption | constructor; [simpl; tauto | constructor] |].
        intros x Hx [Heq|[]]. subst x. apply in_map_iff in Hx.
        destruct Hx as (q & Hqp & Hq). apply image_paths_in in Hq.
        destruct Hq as (old & Hold & Hp).
        assert (Hyes : path_is key (Some p) old = true)
          by (apply path_is_some; eauto).
        rewrite (Hnone old Hold) in Hyes. discriminate.
      * apply NoDup_app;
          [assumption | constructor; [simpl; tauto | constructor] |].
        intros x Hx [Heq|[]]. subst x. apply in_map_iff in Hx.
        destruct Hx as (old & Hid & Hold). rewrite Forall_forall in Hlt.
        specialize (Hlt old Hold). simpl in Hlt. lia.
      * apply Forall_app. split; [|repeat constructor].
        eapply Forall_impl; [|exact Hlt]. intros x Hx. simpl in *. lia.
    + intros e He. discriminate.
    + intros id Hid. inversion Hid; subst id. cbn [kf_rows kf_next_id].
      split; [|split; [|split]].
      * eexists. split; [apply in_or_app; right; now left|].
        repeat split. destruct image_path as [p|]; [|reflexivity].
        unfold path_is. simpl. apply String.eqb_refl.
      * intros old Hold Hp. rewrite (Hnone old Hold) in Hp. discriminate.
      * intros _. split; reflexivity.
      * intros other Hother _. apply in_or_app. now left.
Qed.

(** X13. [add_known_face] on a well-formed table (no two rows with image
    paths the collation does not tell apart, ids unique and below the
    counter) leaves it well formed. When it raises, the table is as
    before. When it returns an id, a row with that id holds the given name
    and encoding and a path that the collation equates with the given one
    (NULL for NULL); if a row held such a path before, the id is that
    row's, the row keeps its path as it was spelt and its [created_at],
    and no row is added; if none did (always so for a NULL path), a row
    with a fresh id and the path as given is appended; the rows of other
    paths are kept as they are. *)
Theorem add_known_face_upserts_by_path :
  forall (err : option exn) (created_at : nat) (t : KnownFaces)
         (name : string) (face_encoding : Encoding)
         (image_path : option string) (r : result nat) (t' : KnownFaces),
    known_faces_wf t ->
    add_known_face err created_at t name face_encoding image_path = (r, t') ->
    known_faces_wf t' /\
    kf_collation t' = kf_collation t /\
    (forall e, r = Raise e -> t' = t /\ err = Some e) /\
    (forall id, r = Ok id ->
       (exists row,
          In row (kf_rows t') /\ kr_id row = id /\ kr_name row = name /\
          kr_face_encoding row = face_encoding /\
          match image_path with
          | Some _ => path_is (kf_collation t) image_path row = true
          | None => kr_image_path row = None
          end) /\
       (forall old, In old (kf_rows t) ->
          path_is (kf_collation t) image_path old = true ->
          kr_id old = id /\
          In (mkKnownFaceRow id name face_encoding (kr_image_path old)
                (kr_created_at old))
            (kf_rows t') /\
          length (kf_rows t') = length (kf_rows t) /\
          kf_next_id t' = kf_next_id t) /\
       ((forall old, In old (kf_rows t) ->
           path_is (kf_collation t) image_path old = false) ->
        id = kf_next_id t /\
        kf_rows t'
        = kf_rows t
          ++ [mkKnownFaceRow id name face_encoding image_path created_at]) /\
       (forall other, In other (kf_rows t) ->
          path_is (kf_collation t) image_path other = false ->
          In other (kf_rows t'))).
Proof. exact add_known_face_spec. Qed.

Lemma known_faces_wf_no_faces : known_faces_wf Fixture.no_faces.
Proof. repeat split; constructor. Qed.

Lemma known_faces_wf_one_face : known_faces_wf Fixture.one_face.
Proof.
  repeat split; repeat constructor; simpl; auto.
Qed.

Lemma add_known_face_upserts_by_path_witness :
  let t := Fixture.one_face in
  let image_path := Some "/known/ann/1.JPG" in
  let call := add_known_face None 5 t "anna" [(4 # 10)%Q] image_path in
  let r := fst call in
  let t' := snd call in
  known_faces_wf t' /\
  kf_collation t' = kf_collation t /\
  (forall e, r = Raise e -> t' = t /\ @None exn = Some e) /\
  (forall id, r = Ok id ->
     (exists row,
        In row (kf_rows t') /\ kr_id row = id /\ kr_name row = "anna" /\
        kr_face_encoding row = [(4 # 10)%Q] /\
        path_is (kf_collation t) image_path row = true) /\
     (forall old, In old (kf_rows t) ->
        path_is (kf_collation t) image_path old = true ->
        kr_id old = id /\
        In (mkKnownFaceRow id "anna" [(4 # 10)%Q] (kr_image_path old)
              (kr_created_at old))
          (kf_rows t') /\
        length (kf_rows t') = length (kf_rows t) /\
        kf_next_id t' = kf_next_id t) /\
     ((forall old, In old (kf_rows t) ->
         path_is (kf_collation t) image_path old = false) ->
      id = kf_next_id t /\
      kf_rows t'
      = kf_rows t ++ [mkKnownFaceRow id "anna" [(4 # 10)%Q] image_path 5]) /\
     (forall other, In other (kf_rows t) ->
        path_is (kf_collation t) image_path other = false ->
        In other (kf_rows t'))).
Proof.
  apply (add_known_face_upserts_by_path None 5 Fixture.one_face "anna"
           [(4 # 10)%Q] (Some "/known/ann/1.JPG")).
  - exact known_faces_wf_one_face.
  - reflexivity.
Defined.

(** The path of that call differs from the stored one in the case of its
    extension: the row of the stored path is updated and keeps its
    spelling. *)
Example add_known_face_other_case :
  add_known_face None 5 Fixture.one_face "anna" [(4 # 10)%Q]
    (Some "/known/ann/1.JPG")
  = (Ok 1,
     mkKnownFaces
       [mkKnownFaceRow 1 "anna" [(4 # 10)%Q] (Some "/known/ann/1.jpg") 10]
       2 Server.unicode_ci).
Proof. reflexivity. Qed.

(** A NULL path is never found again: the same face is stored twice. *)
Example add_known_face_without_path :
  let t1 := snd (add_known_face None 5 Fixture.no_faces "ann" [] None) in
  let t2 := snd (add_known_face None 6 t1 "ann" [] None) in
  map kr_id (kf_rows t2) = [1; 2].
Proof. reflexivity. Qed.

(** *** An ordering the server may use *)

Lemma insert_desc_perm {A} (key : A -> nat) (x : A) (l : list A) :
  Permutation (insert_desc key x l) (x :: l).
Proof.
  induction l as [|y r IH]; simpl; auto.
  destruct (key y <? key x); auto.
  rewrite IH. apply perm_swap.
Qed.

Lemma stable_desc_perm (A : Type) (key : A -> nat) (l : list A) :
  Permutation (stable_desc A key l) l.
Proof.
  induction l as [|x r IH]; simpl; auto.
  rewrite insert_desc_perm. now constructor.
Qed.

Lemma insert_desc_sorted {A} (key : A -> nat) (x : A) (l : list A) :
  StronglySorted (fun a b => key b <= key a) l ->
  StronglySorted (fun a b => key b <= key a) (insert_desc key x l).
Proof.
  induction 1 as [|y r Hr IH Hy]; simpl.
  - repeat constructor.
  - destruct (key y <? key x) eqn:E.
    + apply Nat.ltb_lt in E. constructor; [now constructor|].
      constructor; [lia|]. eapply Forall_impl; [|exact Hy].
      intros b Hb. simpl in *. lia.
    + apply Nat.ltb_ge in E. constructor; [exact IH|].
      apply Forall_forall. intros b Hb.
      apply (Permutation_in _ (insert_desc_perm key x r)) in Hb.
      destruct Hb as [<-|Hb]; [exact E|].
      rewrite Forall_forall in Hy. now apply Hy.
Qed.

Lemma stable_desc_sorted (A : Type) (key : A -> nat) (l : list A) :
  StronglySorted (fun a b => key b <= key a) (stable_desc A key l).
Proof.
  induction l as [|x r IH]; simpl; [constructor|].
  now apply insert_desc_sorted.
Qed.

(** *** Removing the older rows of a path *)

Lemma same_id_same_row (rows : list KnownFaceRow) (a b : KnownFaceRow) :
  NoDup (map kr_id rows) ->
  In a rows -> In b rows -> kr_id a = kr_id b -> a = b.
Proof.
  induction rows as [|r l IH]; simpl; [tauto|].
  intros Hnd Ha Hb Hid. inversion Hnd as [|? ? Hr Hl]; subst.
  destruct Ha as [<-|Ha], Hb as [<-|Hb]; auto.
  - exfalso. apply Hr. rewrite Hid. now apply in_map.
  - exfalso. apply Hr. rewrite <- Hid. now apply in_map.
Qed.

Lemma nodup_ids_rows (rows : list KnownFaceRow) :
  NoDup (map kr_id rows) -> NoDup rows.
Proof. apply NoDup_map_inv. Qed.

Lemma nodup_ids_filter (g : KnownFaceRow -> bool)
  (rows : list KnownFaceRow) :
  NoDup (map kr_id rows) -> NoDup (map kr_id (filter g rows)).
Proof.
  induction rows as [|r l IH]; simpl; auto.
  intros Hnd. inversion Hnd as [|? ? Hr Hl]; subst.
  destruct (g r); simpl; [|auto].
  constructor; [|auto]. intros Hin. apply Hr.
  apply in_map_iff in Hin. destruct Hin as (x & Hx & Hin).
  apply filter_In in Hin. rewrite <- Hx. apply in_map. tauto.
Qed.

Lemma filter_twice {A} (g1 g2 : A -> bool) (l : list A) :
  filter g2 (filter g1 l) = filter (fun a => g1 a && g2 a) l.
Proof.
  induction l as [|a l IH]; simpl; auto.
  destruct (g1 a); simpl; [|exact IH].
  destruct (g2 a); now rewrite IH.
Qed.

Lemma fold_delete_id (es rows : list KnownFaceRow) :
  fold_left delete_id es rows
  = filter (fun r => forallb (fun e => negb (kr_id r =? kr_id e)) es) rows.
Proof.
  revert rows. induction es as [|e es IH]; intros rows; simpl.
  - symmetry. apply filter_all_kept. now apply Forall_forall.
  - rewrite IH. unfold delete_id. apply filter_twice.
Qed.

Lemma nodup_key_paths (key : string -> string) (rows : list KnownFaceRow) :
  NoDup rows ->
  (forall a b p q, In a rows -> In b rows ->
     kr_image_path a = Some p -> kr_image_path b = Some q ->
     key p = key q -> a = b) ->
  NoDup (map key (image_paths rows)).
Proof.
  induction rows as [|r l IH]; intros Hnd Hsame; [constructor|].
  inversion Hnd as [|? ? Hr Hl]; subst.
  rewrite image_paths_cons, map_app.
  assert (IHl : NoDup (map key (image_paths l))).
  { apply IH; [exact Hl|]. intros a b p q Ha Hb. apply Hsame; now right. }
  destruct (kr_image_path r) as [p|] eqn:Hp; simpl; [|exact IHl].
  constructor; [|exact IHl]. intros Hin.
  apply in_map_iff in Hin. destruct Hin as (q & Hq & Hin).
  apply image_paths_in in Hin. destruct Hin as (x & Hx & Hxq).
  assert (r = x) by (apply (Hsame r x p q); simpl; auto). subst x. tauto.
Qed.

(** *** The groups of [GROUP BY] *)

Lemma path_is_key (key : string -> string) (p q : string) :
  key p = key q ->
  forall r, path_is key (Some p) r = path_is key (Some q) r.
Proof. unfold path_is. now intros ->. Qed.

Lemma path_is_other (key : string -> string) (p q : string)
  (r : KnownFaceRow) :
  key q <> key p ->
  path_is key (Some q) r = true -> path_is key (Some p) r = false.
Proof.
  unfold path_is. destruct (kr_image_path r) as [x|]; [|discriminate].
  rewrite String.eqb_eq. intros Hne ->. now apply String.eqb_neq.
Qed.

Lemma group_of_in (key : string -> string) (k v : string)
  (values : list string) :
  In v (group_of key k values) <-> In v values /\ key v = k.
Proof.
  unfold group_of. rewrite filter_In, String.eqb_eq. tauto.
Qed.

(** The rows of a path are as many as the members of its group. *)
Lemma rows_of_group (key : string -> string) (p : string)
  (rows : list KnownFaceRow) :
  length (filter (path_is key (Some p)) rows)
  = length (group_of key (key p) (image_paths rows)).
Proof.
  induction rows as [|r l IH]; [reflexivity|].
  rewrite image_paths_cons. unfold group_of in *. rewrite filter_app.
  rewrite length_app, <- IH. simpl. unfold path_is at 1.
  destruct (kr_image_path r) as [q|]; simpl; [|reflexivity].
  destruct (String.eqb (key q) (key p)); reflexivity.
Qed.

Lemma group_of_unique (key : string -> string) (k : string)
  (values : list string) :
  NoDup (map key values) -> length (group_of key k values) <= 1.
Proof.
  unfold group_of. induction values as [|v l IH]; simpl; [lia|].
  intros Hnd. inversion Hnd as [|? ? Hv Hl]; subst.
  destruct (String.eqb_spec (key v) k) as [Heq|Hne]; [|auto].
  simpl. replace (filter _ l) with (@nil string); [simpl; lia|].
  symmetry. apply filter_all_none. apply Forall_forall. intros x Hx.
  apply String.eqb_neq. intros Hxk. apply Hv. rewrite Heq, <- Hxk.
  now apply in_map.
Qed.

Lemma flat_map_of_map {A B C} (f : B -> list C) (h : A -> B) (l : list A) :
  flat_map f (map h l) = flat_map (fun a => f (h a)) l.
Proof. induction l as [|a l IH]; simpl; [reflexivity | now rewrite IH]. Qed.

Lemma nodup_picks (key : string -> string) (f : string -> list string)
  (ks : list string) :
  NoDup ks ->
  (forall k p, In p (f k) -> key p = k) ->
  (forall k, length (f k) <= 1) ->
  NoDup (map key (flat_map f ks)).
Proof.
  intros Hnd Hkey Hone. induction Hnd as [|k ks Hk Hks IH]; simpl;
    [constructor|].
  rewrite map_app. specialize (Hone k). pose proof (Hkey k) as Hhere.
  destruct (f k) as [|p [|p' l]]; simpl in *; [exact IH | | lia].
  constructor; [|exact IH]. intros Hin. apply Hk.
  apply in_map_iff in Hin. destruct Hin as (x & Hx & Hin).
  apply in_flat_map in Hin. destruct Hin as (k' & Hk' & Hxk).
  rewrite <- (Hhere p (or_introl eq_refl)), <- Hx.
  now rewrite (Hkey k' x Hxk).
Qed.

Section Cleanup.

Variable order_desc : forall A : Type, (A -> nat) -> list A -> list A.
Variable unordered : list string -> list string.
Variable any_value : string -> list string -> string.
Hypothesis order_perm :
  forall A key l, Permutation (order_desc A key l) l.
Hypothesis order_sorted :
  forall A (key : A -> nat) l,
    StronglySorted (fun a b => key b <= key a) (order_desc A key l).
Hypothesis unordered_perm : forall l, Permutation (unordered l) l.
Hypothesis any_value_in : forall x l, In (any_value x l) (x :: l).
Variable key : string -> string.

(** The path the first query shows for a group. *)
Lemma shown_path (group : list string) (p : string) :
  In p match group with
       | first :: (_ :: _) as others => [any_value first others]
       | _ => []
       end ->
  In p group /\ 2 <= length group.
Proof.
  destruct group as [|first [|second others]]; simpl; try tauto.
  intros [<-|[]]. split; [|lia].
  exact (any_value_in first (second :: others)).
Qed.

Lemma duplicate_paths_in (rows : list KnownFaceRow) (p : string) :
  In p (duplicate_paths unordered any_value key rows) ->
  In p (image_paths rows) /\
  2 <= length (group_of key (key p) (image_paths rows)).
Proof.
  unfold duplicate_paths, groups. intros Hp.
  apply (Permutation_in _ (unordered_perm _)) in Hp.
  rewrite flat_map_of_map in Hp. apply in_flat_map in Hp.
  destruct Hp as (k & _ & Hp). apply shown_path in Hp.
  destruct Hp as [Hin Hlen]. pose proof Hin as Hin'.
  apply group_of_in in Hin'. destruct Hin' as [Hv Hk]. now subst k.
Qed.

Lemma duplicate_paths_complete (rows : list KnownFaceRow) (v : string) :
  In v (image_paths rows) ->
  2 <= length (group_of key (key v) (image_paths rows)) ->
  In (key v) (map key (duplicate_paths unordered any_value key rows)).
Proof.
  intros Hv Hlen. unfold duplicate_paths, groups.
  rewrite flat_map_of_map.
  destruct (group_of key (key v) (image_paths rows))
    as [|first [|second others]] eqn:E; simpl in Hlen; try lia.
  set (p := any_value first (second :: others)).
  assert (Hp : In p (group_of key (key v) (image_paths rows)))
    by (rewrite E; apply any_value_in).
  apply group_of_in in Hp. destruct Hp as [_ Hpk]. rewrite <- Hpk.
  apply in_map.
  apply (Permutation_in _ (Permutation_sym (unordered_perm _))).
  apply in_flat_map. exists (key v). split.
  - apply nodup_In. now apply in_map.
  - rewrite E. now left.
Qed.

Lemma duplicate_paths_nodup (rows : list KnownFaceRow) :
  NoDup (map key (duplicate_paths unordered any_value key rows)).
Proof.
  unfold duplicate_paths, groups.
  apply (Permutation_NoDup
           (Permutation_map key (Permutation_sym (unordered_perm _)))).
  rewrite flat_map_of_map. apply nodup_picks.
  - apply NoDup_nodup.
  - intros k p Hp. apply shown_path in Hp. destruct Hp as [Hp _].
    now apply group_of_in in Hp.
  - intros k. destruct (group_of key k (image_paths rows))
      as [|first [|second others]]; simpl; lia.
Qed.

(** What one turn of the loop does to the rows. *)
Lemma remove_older_turn (rows : list KnownFaceRow) (p : string) :
  NoDup (map kr_id rows) ->
  (exists g, remove_older order_desc key rows p = filter g rows) /\
  (forall r, In r rows -> path_is key (Some p) r = false ->
             In r (remove_older order_desc key rows p)) /\
  ((exists r, In r rows /\ path_is key (Some p) r = true) ->
   exists kept,
     In kept (remove_older order_desc key rows p) /\
     path_is key (Some p) kept = true /\
     (forall r, In r (remove_older order_desc key rows p) ->
                path_is key (Some p) r = true -> r = kept) /\
     (forall r, In r rows -> path_is key (Some p) r = true ->
                kr_created_at r <= kr_created_at kept)).
Proof.
  intros Hids. unfold remove_older.
  set (entries := order_desc _ kr_created_at
                    (filter (path_is key (Some p)) rows)).
  assert (Hperm : Permutation entries (filter (path_is key (Some p)) rows))
    by apply order_perm.
  assert (Hsorted : StronglySorted
                      (fun a b => kr_created_at b <= kr_created_at a) entries)
    by apply order_sorted.
  assert (Hentry : forall r, In r entries <->
                             In r rows /\ path_is key (Some p) r = true).
  { intros r. split.
    - intros Hr. apply (Permutation_in _ Hperm) in Hr.
      now apply filter_In in Hr.
    - intros Hr. apply (Permutation_in _ (Permutation_sym Hperm)).
      now apply filter_In. }
  assert (Hnd : NoDup entries).
  { apply (Permutation_NoDup (Permutation_sym Hperm)).
    apply NoDup_filter. now apply nodup_ids_rows. }
  rewrite fold_delete_id.
  assert (Hkept : forall r, In r rows ->
            forallb (fun e => negb (kr_id r =? kr_id e)) (tl entries) = true
            <-> ~ In r (tl entries)).
  { intros r Hr. rewrite forallb_forall. split.
    - intros H Hin. specialize (H r Hin). now rewrite Nat.eqb_refl in H.
    - intros Hnot e He. apply negb_true_iff, Nat.eqb_neq. intros Hid.
      assert (Hin : In e rows).
      { apply Hentry. destruct entries; [destruct He | now right]. }
      rewrite (same_id_same_row rows r e Hids Hr Hin Hid) in Hnot. tauto. }
  split; [eexists; reflexivity|]. split.
  - intros r Hr Hp. apply filter_In. split; [exact Hr|].
    apply Hkept; [exact Hr|]. intros Hin.
    assert (Hyes : path_is key (Some p) r = true).
    { apply (Hentry r). destruct entries; [destruct Hin | now right]. }
    congruence.
  - intros (r0 & Hr0 & Hp0).
    destruct entries as [|kept rest] eqn:E.
    { exfalso. apply (proj2 (Hentry r0)); auto. }
    simpl in *. inversion Hnd as [|? ? Hfirst Hrest]; subst.
    inversion Hsorted as [|? ? _ Hle]; subst.
    destruct (proj1 (Hentry kept) (or_introl eq_refl)) as [Hkin Hkp].
    exists kept. repeat split.
    + apply filter_In. split; [exact Hkin|]. now apply Hkept.
    + exact Hkp.
    + intros r Hr Hp. apply filter_In in Hr. destruct Hr as [Hr Hout].
      apply Hkept in Hout; [|exact Hr].
      destruct (proj2 (Hentry r) (conj Hr Hp)) as [Heq|Hin]; [auto | tauto].
    + intros r Hr Hp.
      destruct (proj2 (Hentry r) (conj Hr Hp)) as [<-|Hin]; [lia|].
      rewrite Forall_forall in Hle. now apply Hle.
Qed.

(** What the whole loop does, over paths of different keys. *)
Lemma remove_older_loop (ps : list string) :
  NoDup (map key ps) ->
  forall rows,
    NoDup (map kr_id rows) ->
    (exists g,
       fold_left (remove_older order_desc key) ps rows = filter g rows) /\
    (forall r, In r rows ->
       (forall p, In p ps -> path_is key (Some p) r = false) ->
       In r (fold_left (remove_older order_desc key) ps rows)) /\
    (forall p, In p ps ->
       (exists r, In r rows /\ path_is key (Some p) r = true) ->
       exists kept,
         In kept (fold_left (remove_older order_desc key) ps rows) /\
         path_is key (Some p) kept = true /\
         (forall r, In r (fold_left (remove_older order_desc key) ps rows) ->
                    path_is key (Some p) r = true -> r = kept) /\
         (forall r, In r rows -> path_is key (Some p) r = true ->
                    kr_created_at r <= kr_created_at kept)).
Proof.
  induction ps as [|p ps IH]; intros Hps rows Hids; simpl.
  - split; [|split].
    + exists (fun _ => true). symmetry. apply filter_all_kept.
      now apply Forall_forall.
    + auto.
    + intros p [].
  - simpl in Hps. inversion Hps as [|? ? Hp Hps']; subst.
    destruct (remove_older_turn rows p Hids) as ((g1 & Hg1) & Hother & Hturn).
    assert (Hids1 : NoDup (map kr_id (remove_older order_desc key rows p))).
    { rewrite Hg1. now apply nodup_ids_filter. }
    destruct (IH Hps' _ Hids1) as ((g2 & Hg2) & Hkeep & Hloop).
    assert (Hsub : forall r,
              In r (fold_left (remove_older order_desc key) ps
                      (remove_older order_desc key rows p)) ->
              In r (remove_older order_desc key rows p)).
    { intros r Hr. rewrite Hg2 in Hr. apply filter_In in Hr. tauto. }
    assert (Hapart : forall q, In q ps -> key q <> key p).
    { intros q Hq Heq. apply Hp. rewrite <- Heq. now apply in_map. }
    split; [|split].
    + exists (fun a => g1 a && g2 a). rewrite Hg2, Hg1. apply filter_twice.
    + intros r Hr Hnone. apply Hkeep.
      * apply Hother; [exact Hr|]. apply Hnone. now left.
      * intros q Hq. apply Hnone. now right.
    + intros q [<-|Hq] Hex.
      * destruct (Hturn Hex) as (kept & Hin & Hkp & Huniq & Hmax).
        exists kept. repeat split; auto.
        apply Hkeep; [exact Hin|]. intros q Hq.
        apply (path_is_other key q p); [|exact Hkp].
        intros Heq. now apply (Hapart q Hq).
      * pose proof (Hapart q Hq) as Hqp.
        destruct (Hloop q Hq) as (kept & Hin & Hkp & Huniq & Hmax).
        { destruct Hex as (r & Hr & Hrq). exists r. split; [|exact Hrq].
          apply Hother; [exact Hr|]. now apply (path_is_other key p q). }
        exists kept. repeat split; auto.
        intros r Hr Hrq. apply Hmax; [|exact Hrq].
        apply Hother; [exact Hr|]. now apply (path_is_other key p q).
Qed.

Lemma at_most_one_same (rows : list KnownFaceRow) (p : string)
  (a b : KnownFaceRow) :
  length (filter (path_is key (Some p)) rows) <= 1 ->
  In a rows -> In b rows ->
  path_is key (Some p) a = true -> path_is key (Some p) b = true -> a = b.
Proof.
  intros Hlen Ha Hb Hpa Hpb.
  assert (Ha' : In a (filter (path_is key (Some p)) rows))
    by now apply filter_In.
  assert (Hb' : In b (filter (path_is key (Some p)) rows))
    by now apply filter_In.
  destruct (filter (path_is key (Some p)) rows) as [|x [|y l]];
    simpl in *; try lia; intuition congruence.
Qed.

End Cleanup.

(** The cleanup, for any choice the server may make. *)
Lemma cleanup_spec
  (order_desc : forall A : Type, (A -> nat) -> list A -> list A)
  (unordered : list string -> list string)
  (any_value : string -> list string -> string) :
  (forall A key l, Permutation (order_desc A key l) l) ->
  (forall A (key : A -> nat) l,
     StronglySorted (fun a b => key b <= key a) (order_desc A key l)) ->
  (forall l, Permutation (unordered l) l) ->
  (forall x l, In (any_value x l) (x :: l)) ->
  forall (t : KnownFaces) (u : unit) (t' : KnownFaces) (err : option exn),
    NoDup (map kr_id (kf_rows t)) ->
    cleanup_duplicate_faces order_desc unordered any_value err t
    = (Ok u, t') ->
    NoDup (map (kf_collation t) (image_paths (kf_rows t'))) /\
    (forall r, In r (kf_rows t') -> In r (kf_rows t)) /\
    (forall r, In r (kf_rows t) ->
       (forall p, kr_image_path r = Some p ->
          length (filter (path_is (kf_collation t) (Some p)) (kf_rows t))
          = 1) ->
       In r (kf_rows t')) /\
    (forall p r, In r (kf_rows t) -> kr_image_path r = Some p ->
       exists kept,
         In kept (kf_rows t') /\
         path_is (kf_collation t) (Some p) kept = true /\
         kr_created_at r <= kr_created_at kept) /\
    kf_next_id t' = kf_next_id t /\
    kf_collation t' = kf_collation t /\
    (NoDup (map (kf_collation t) (image_paths (kf_rows t))) -> t' = t).
Proof.
  intros order_perm order_sorted unordered_perm any_value_in t u t' err Hids.
  unfold cleanup_duplicate_faces.
  destruct err; [discriminate|]. intros H. inversion H; subst; clear H.
  cbn [kf_rows kf_next_id kf_collation].
  set (rows := kf_rows t) in *. set (key := kf_collation t) in *.
  set (ps := duplicate_paths unordered any_value key rows).
  pose proof (duplicate_paths_nodup unordered any_value unordered_perm
                any_value_in key rows) as Hps. fold ps in Hps.
  destruct (remove_older_loop order_desc order_perm order_sorted key ps Hps
              rows Hids) as ((g & Hg) & Hkeep & Hloop).
  set (final := fold_left (remove_older order_desc key) ps rows) in *.
  assert (Hsub : forall r, In r final -> In r rows).
  { intros r Hr. rewrite Hg in Hr. apply filter_In in Hr. tauto. }
  assert (Hheld : forall r p, kr_image_path r = Some p ->
                              path_is key (Some p) r = true).
  { intros r p Hp. apply path_is_some. eauto. }
  assert (Hfew : forall r p, In r rows -> kr_image_path r = Some p ->
            ~ In (key p) (map key ps) ->
            length (filter (path_is key (Some p)) rows) <= 1).
  { intros r p Hr Hp Hnot. rewrite rows_of_group.
    destruct (Nat.leb_spec
                (length (group_of key (key p) (image_paths rows))) 1)
      as [Hle|Hgt]; [exact Hle|].
    exfalso. apply Hnot.
    apply (duplicate_paths_complete unordered any_value unordered_perm
             any_value_in key rows p); [|lia].
    apply image_paths_in. eauto. }
  assert (Hfree : forall r p, kr_image_path r = Some p ->
            ~ In (key p) (map key ps) ->
            forall q, In q ps -> path_is key (Some q) r = false).
  { intros r p Hp Hnot q Hq.
    destruct (path_is key (Some q) r) eqn:E; [|reflexivity].
    exfalso. apply Hnot. apply path_is_some in E.
    destruct E as (x & Hx & Hxq). rewrite Hp in Hx. inversion Hx; subst x.
    rewrite Hxq. now apply in_map. }
  split; [|split; [|split; [|split; [|split; [|split]]]]].
  - apply nodup_key_paths.
    + rewrite Hg. apply NoDup_filter. now apply nodup_ids_rows.
    + intros a b p q Ha Hb Hpa Hpb Hkey.
      destruct (in_dec string_dec (key p) (map key ps)) as [Hdup|Hnot].
      * apply in_map_iff in Hdup. destruct Hdup as (d & Hd & Hdup).
        destruct (Hloop d Hdup) as (kept & _ & _ & Huniq & _).
        { exists a. split; [now apply Hsub|].
          rewrite (path_is_key key d p Hd). now apply Hheld. }
        rewrite (Huniq a Ha), (Huniq b Hb); try reflexivity.
        -- rewrite (path_is_key key d q) by congruence. now apply Hheld.
        -- rewrite (path_is_key key d p Hd). now apply Hheld.
      * apply (at_most_one_same key rows p); auto.
        -- now apply (Hfew a p); auto.
        -- rewrite (path_is_key key p q Hkey). now apply Hheld.
  - exact Hsub.
  - intros r Hr Hone. apply Hkeep; [exact Hr|].
    intros q Hq. destruct (path_is key (Some q) r) eqn:E; [|reflexivity].
    exfalso. pose proof E as E'. apply path_is_some in E'.
    destruct E' as (x & Hx & Hxq). specialize (Hone x Hx).
    destruct (duplicate_paths_in unordered any_value unordered_perm
                any_value_in key rows q Hq) as [_ Hlen].
    rewrite <- rows_of_group in Hlen.
    assert (Hsame : filter (path_is key (Some x)) rows
                    = filter (path_is key (Some q)) rows).
    { apply filter_ext. intros y. now apply path_is_key. }
    fold rows in Hone. rewrite Hsame in Hone. lia.
  - intros p r Hr Hp.
    destruct (in_dec string_dec (key p) (map key ps)) as [Hdup|Hnot].
    + apply in_map_iff in Hdup. destruct Hdup as (d & Hd & Hdup).
      destruct (Hloop d Hdup) as (kept & Hin & Hkp & _ & Hmax).
      { exists r. split; [exact Hr|].
        rewrite (path_is_key key d p Hd). now apply Hheld. }
      exists kept. split; [exact Hin|]. split.
      * now rewrite <- (path_is_key key d p Hd).
      * apply Hmax; [exact Hr|].
        rewrite (path_is_key key d p Hd). now apply Hheld.
    + exists r. split; [|split; [now apply Hheld | lia]].
      apply Hkeep; [exact Hr|]. now apply (Hfree r p).
  - reflexivity.
  - reflexivity.
  - intros Hnd.
    assert (Hnone : ps = []).
    { destruct ps as [|d l] eqn:E; [reflexivity|]. exfalso.
      destruct (duplicate_paths_in unordered any_value unordered_perm
                  any_value_in key rows d) as [_ Hlen].
      { fold ps. rewrite E. now left. }
      pose proof (group_of_unique key (key d) _ Hnd). lia. }
    subst final. rewrite Hnone. simpl. subst rows key. now destruct t.
Qed.

(** X14. [cleanup_duplicate_faces], whatever order the server gives rows
    of equal [created_at], in whatever order it lists the groups of the
    first query and whichever spelling it shows for a group of paths that
    the collation does not tell apart, on a table whose ids are unique:
    afterwards no two rows hold paths that the collation equates; no row
    is added; every row whose path is NULL or held, up to the collation,
    by it alone is kept; for every row there is a kept row with an equal
    path that is at least as recent (so every path survives, with one of
    its newest rows); the counter is untouched; and a table without
    duplicates is exactly as before. *)
Theorem cleanup_leaves_one_row_per_path :
  forall (order_desc : forall A : Type, (A -> nat) -> list A -> list A)
         (unordered : list string -> list string)
         (any_value : string -> list string -> string),
    (forall A key l, Permutation (order_desc A key l) l) ->
    (forall A (key : A -> nat) l,
       StronglySorted (fun a b => key b <= key a) (order_desc A key l)) ->
    (forall l, Permutation (unordered l) l) ->
    (forall x l, In (any_value x l) (x :: l)) ->
    forall (t : KnownFaces) (u : unit) (t' : KnownFaces) (err : option exn),
      NoDup (map kr_id (kf_rows t)) ->
      cleanup_duplicate_faces order_desc unordered any_value err t
      = (Ok u, t') ->
      NoDup (map (kf_collation t) (image_paths (kf_rows t'))) /\
      (forall r, In r (kf_rows t') -> In r (kf_rows t)) /\
      (forall r, In r (kf_rows t) ->
         (forall p, kr_image_path r = Some p ->
            length (filter (path_is (kf_collation t) (Some p)) (kf_rows t))
            = 1) ->
         In r (kf_rows t')) /\
      (forall p r, In r (kf_rows t) -> kr_image_path r = Some p ->
         exists kept,
           In kept (kf_rows t') /\
           path_is (kf_collation t) (Some p) kept = true /\
           kr_created_at r <= kr_created_at kept) /\
      kf_next_id t' = kf_next_id t /\
      kf_collation t' = kf_collation t /\
      (NoDup (map (kf_collation t) (image_paths (kf_rows t))) -> t' = t).
Proof. exact cleanup_spec. Qed.

Lemma cleanup_leaves_one_row_per_path_witness :
  let t := Fixture.duplicated in
  let t' :=
    snd (cleanup_duplicate_faces stable_desc (fun l => l) (fun x _ => x)
           None t) in
  NoDup (map (kf_collation t) (image_paths (kf_rows t'))) /\
  (forall r, In r (kf_rows t') -> In r (kf_rows t)) /\
  (forall r, In r (kf_rows t) ->
     (forall p, kr_image_path r = Some p ->
        length (filter (path_is (kf_collation t) (Some p)) (kf_rows t))
        = 1) ->
     In r (kf_rows t')) /\
  (forall p r, In r (kf_rows t) -> kr_image_path r = Some p ->
     exists kept,
       In kept (kf_rows t') /\
       path_is (kf_collation t) (Some p) kept = true /\
       kr_created_at r <= kr_created_at kept) /\
  kf_next_id t' = kf_next_id t /\
  kf_collation t' = kf_collation t /\
  (NoDup (map (kf_collation t) (image_paths (kf_rows t))) -> t' = t).
Proof.
  apply (cleanup_leaves_one_row_per_path stable_desc (fun l => l)
           (fun x _ => x) stable_desc_perm stable_desc_sorted
           (fun l => Permutation_refl l) (fun x l => or_introl eq_refl)
           Fixture.duplicated tt _ None).
  - simpl. repeat constructor; simpl; intuition discriminate.
  - reflexivity.
Defined.

(** Of the two rows of "/known/ann/1.jpg" the newer one (id 3) stays, and
    of the rows of "/known/bob/1.jpg" and "/known/bob/1.JPG", one path for
    the collation, the newer one (id 5). *)
Example cleanup_sample :
  map kr_id
    (kf_rows (snd (cleanup_duplicate_faces stable_desc (fun l => l)
                     (fun x _ => x) None Fixture.duplicated)))
  = [3; 4; 5].
Proof. reflexivity. Qed.

(** ** Known faces from a folder *)

Lemma faces_of_files_in (w : World) (person folder : string)
  (filenames : list string) (f : KnownFace) :
  In f (faces_of_files w person folder filenames) <->
  exists filename enc,
    In filename filenames /\ is_image_name filename = true /\
    _encode_face_from_image w (path_join folder filename) = Some enc /\
    f = mkKnownFace person enc (path_join folder filename).
Proof.
  induction filenames as [|x rest IH]; simpl.
  - split; [tauto | intros (? & ? & [] & _)].
  - rewrite in_app_iff, IH. split.
    + intros [Hx|(filename & enc & Hin & H)].
      * destruct (is_image_name x) eqn:Himg; [|destruct Hx].
        destruct (_encode_face_from_image w (path_join folder x)) as [enc|]
          eqn:Henc; [|destruct Hx].
        destruct Hx as [<-|[]]. exists x, enc. repeat split; try tauto; auto.
      * exists filename, enc. repeat split; try tauto; auto.
    + intros (filename & enc & [<-|Hin] & Himg & Henc & ->).
      * left. rewrite Himg, Henc. now left.
      * right. exists filename, enc. repeat split; try tauto; auto.
Qed.

Lemma faces_of_people_in (fs : Folders) (w : World) (folder : string)
  (people : list string) :
  forall faces,
    faces_of_people fs w folder people = Ok faces ->
    forall f,
      In f faces <->
      exists person filenames filename enc,
        In person people /\
        path_isdir fs (path_join folder person) = true /\
        listdir fs (path_join folder person) = Ok filenames /\
        In filename filenames /\ is_image_name filename = true /\
        _encode_face_from_image w
          (path_join (path_join folder person) filename) = Some enc /\
        f = mkKnownFace person enc
              (path_join (path_join folder person) filename).
Proof.
  induction people as [|x rest IH]; simpl; intros faces H f.
  - inversion H. split; [intros [] | intros (? & ? & ? & ? & [] & _)].
  - destruct (path_isdir fs (path_join folder x)) eqn:Hdir; simpl in H.
    + destruct (listdir fs (path_join folder x)) as [filenames|e] eqn:Hls;
        simpl in H; [|discriminate].
      destruct (faces_of_people fs w folder rest) as [more|e] eqn:Hrest;
        simpl in H; [|discriminate].
      inversion H; subst faces. rewrite in_app_iff, faces_of_files_in.
      rewrite (IH more eq_refl f). split.
      * intros [(filename & enc & Hin & Himg & Henc & ->)|
                (person & fns & filename & enc & Hp & Hrest')].
        -- exists x, filenames, filename, enc. repeat split; try tauto; auto.
        -- exists person, fns, filename, enc. repeat split; try tauto; auto.
      * intros (person & fns & filename & enc & [<-|Hp] & Hd & Hl & Hin
                & Himg & Henc & ->).
        -- left. rewrite Hls in Hl. inversion Hl; subst fns.
           exists filename, enc. repeat split; try tauto; auto.
        -- right. exists person, fns, filename, enc. repeat split; try tauto; auto.
    + rewrite (IH faces H f). split.
      * intros (person & fns & filename & enc & Hp & Hrest').
        exists person, fns, filename, enc. repeat split; try tauto; auto.
      * intros (person & fns & filename & enc & [<-|Hp] & Hd & Hrest').
        -- congruence.
        -- exists person, fns, filename, enc. repeat split; try tauto; auto.
Qed.

Lemma load_known_faces_from_folder_in (fs : Folders) (w : World)
  (folder : string) (faces : list KnownFace) :
  load_known_faces_from_folder fs w folder = Ok faces ->
  forall f,
    In f faces <->
    path_exists fs folder = true /\
    exists people person filenames filename enc,
      listdir fs folder = Ok people /\ In person people /\
      path_isdir fs (path_join folder person) = true /\
      listdir fs (path_join folder person) = Ok filenames /\
      In filename filenames /\ is_image_name filename = true /\
      _encode_face_from_image w
        (path_join (path_join folder person) filename) = Some enc /\
      f = mkKnownFace person enc
            (path_join (path_join folder person) filename).
Proof.
  unfold load_known_faces_from_folder.
  destruct (path_exists fs folder); simpl; intros H f.
  - destruct (listdir fs folder) as [people|e] eqn:Hls; simpl in H;
      [|discriminate].
    rewrite (faces_of_people_in fs w folder people faces H f). split.
    + intros (person & fns & filename & enc & Hrest).
      split; [reflexivity|]. exists people, person, fns, filename, enc. repeat split; try tauto; auto.
    + intros (_ & people' & person & fns & filename & enc & Hp & Hrest).
      inversion Hp; subst people'. exists person, fns, filename, enc. repeat split; try tauto; auto.
  - inversion H. split; [intros [] | intros [Hf _]; discriminate].
Qed.

(** X15. The faces [load_known_faces_from_folder] returns are exactly
    these: for every sub-directory of the folder and every file in it
    whose name ends, in any mixture of upper and lower case, in one of
    .png, .jpg, .jpeg, .bmp, .tiff and in which the engine finds a face,
    one face named after the sub-directory, with the joined path and the
    first encoding of the picture. A folder that does not exist gives no
    faces; entries that are not directories and pictures without a face
    are passed over. *)
Theorem known_faces_of_a_folder :
  forall (fs : Folders) (w : World) (folder_path : string)
         (faces : list KnownFace),
    load_known_faces_from_folder fs w folder_path = Ok faces ->
    forall f,
      In f faces <->
      path_exists fs folder_path = true /\
      exists people person filenames filename enc,
        listdir fs folder_path = Ok people /\ In person people /\
        path_isdir fs (path_join folder_path person) = true /\
        listdir fs (path_join folder_path person) = Ok filenames /\
        In filename filenames /\ is_image_name filename = true /\
        _encode_face_from_image w
          (path_join (path_join folder_path person) filename) = Some enc /\
        f = mkKnownFace person enc
              (path_join (path_join folder_path person) filename).
Proof. exact load_known_faces_from_folder_in. Qed.

Lemma known_faces_of_a_folder_witness :
  let f := mkKnownFace "ann" [(16 # 1)%Q] "/known/ann/1.Jpg" in
  In f
    [mkKnownFace "ann" [(16 # 1)%Q] "/known/ann/1.Jpg";
     mkKnownFace "bob" [(16 # 1)%Q] "/known/bob/a.png"] <->
  path_exists Fixture.folders "/known" = true /\
  exists people person filenames filename enc,
    listdir Fixture.folders "/known" = Ok people /\ In person people /\
    path_isdir Fixture.folders (path_join "/known" person) = true /\
    listdir Fixture.folders (path_join "/known" person) = Ok filenames /\
    In filename filenames /\ is_image_name filename = true /\
    _encode_face_from_image Fixture.engine
      (path_join (path_join "/known" person) filename) = Some enc /\
    f = mkKnownFace person enc
          (path_join (path_join "/known" person) filename).
Proof.
  apply (known_faces_of_a_folder Fixture.folders Fixture.engine "/known").
  reflexivity.
Defined.

(** The mixed-case "1.Jpg" is loaded; "blank.jpg" has no face, and
    "readme.md" and "notes.txt" are no pictures. *)
Example known_faces_sample :
  option_map (map (fun f => (kf_name f, kf_image_path f)))
    (match load_known_faces_from_folder Fixture.folders Fixture.engine
             "/known" with
     | Ok faces => Some faces
     | Raise _ => None
     end)
  = Some [("ann", "/known/ann/1.Jpg"); ("bob", "/known/bob/a.png")].
Proof. reflexivity. Qed.

Lemma add_known_face_collation (err : option exn) (created_at : nat)
  (t : KnownFaces) (name : string) (enc : Encoding)
  (image_path : option string) :
  kf_collation (snd (add_known_face err created_at t name enc image_path))
  = kf_collation t.
Proof.
  unfold add_known_face. destruct err; [reflexivity|].
  now destruct (find (path_is (kf_collation t) image_path) (kf_rows t)).
Qed.

Lemma add_known_face_keeps_paths (err : option exn) (created_at : nat)
  (t : KnownFaces) (name : string) (enc : Encoding)
  (image_path : option string) (q : string) :
  In q (image_paths (kf_rows t)) ->
  In q (image_paths
          (kf_rows (snd (add_known_face err created_at t name enc
                           image_path)))).
Proof.
  unfold add_known_face. destruct err; [auto|].
  destruct (find (path_is (kf_collation t) image_path) (kf_rows t));
    cbn [snd kf_rows].
  - rewrite image_paths_map; [auto|].
    intros r. now destruct (path_is (kf_collation t) image_path r).
  - rewrite image_paths_app, in_app_iff. auto.
Qed.

Lemma add_known_face_adds_path (created_at : nat) (t : KnownFaces)
  (name : string) (enc : Encoding) (p : string) :
  exists q,
    In q (image_paths
            (kf_rows (snd (add_known_face None created_at t name enc
                             (Some p))))) /\
    kf_collation t q = kf_collation t p.
Proof.
  unfold add_known_face.
  destruct (find (path_is (kf_collation t) (Some p)) (kf_rows t))
    as [existing|] eqn:Hfind; cbn [snd kf_rows].
  - apply find_some in Hfind. destruct Hfind as [Hin Hp].
    apply path_is_some in Hp. destruct Hp as (q & Hq & Hkey).
    exists q. split; [|exact Hkey].
    rewrite image_paths_map
      by (intros r; now destruct (path_is (kf_collation t) (Some p) r)).
    apply image_paths_in. eauto.
  - exists p. split; [|reflexivity].
    rewrite image_paths_app, in_app_iff. right. simpl. now left.
Qed.

Lemma store_known_faces_spec (store_error : KnownFace -> option exn)
  (created_at : nat) (faces : list KnownFace) :
  forall t,
    kf_collation (store_known_faces store_error created_at t faces)
    = kf_collation t /\
    (known_faces_wf t ->
     known_faces_wf (store_known_faces store_error created_at t faces)) /\
    (forall p, In p (image_paths (kf_rows t)) ->
       In p (image_paths
               (kf_rows (store_known_faces store_error created_at t
                           faces)))) /\
    (forall f, In f faces -> store_error f = None ->
       exists q,
         In q (image_paths
                 (kf_rows (store_known_faces store_error created_at t
                             faces))) /\
         kf_collation t q = kf_collation t (kf_image_path f)).
Proof.
  unfold store_known_faces.
  induction faces as [|x rest IH]; intros t; simpl.
  - split; [auto|split; [auto|split; [auto|intros f []]]].
  - set (t1 := snd (add_known_face (store_error x) created_at t (kf_name x)
                      (kf_face_encoding x) (Some (kf_image_path x)))).
    assert (Hkey : kf_collation t1 = kf_collation t)
      by apply add_known_face_collation.
    destruct (IH t1) as (Hcoll & Hwf & Hkeep & Hnew).
    split; [congruence|]. split; [|split].
    + intros H. apply Hwf. subst t1.
      destruct (add_known_face (store_error x) created_at t (kf_name x)
                  (kf_face_encoding x) (Some (kf_image_path x)))
        as [r t'] eqn:E.
      now destruct (add_known_face_spec _ _ _ _ _ _ _ _ H E).
    + intros p Hp. apply Hkeep. subst t1.
      now apply add_known_face_keeps_paths.
    + intros f [<-|Hf] Herr.
      * destruct (add_known_face_adds_path created_at t (kf_name x)
                    (kf_face_encoding x) (kf_image_path x))
          as (q & Hq & Hqk).
        exists q. split; [|exact Hqk].
        apply Hkeep. subst t1. now rewrite Herr.
      * rewrite <- Hkey. now apply Hnew.
Qed.

(** X16. [YOLOProcessor.load_known_faces] on a well-formed table of
    known faces sets the gallery to the faces found in the folder, name by
    name and encoding by encoding in their order, whatever the table held
    and whichever faces the catalog failed to store; the tolerance and the
    model are kept. The table stays well formed and loses no path, and
    for every face whose storing did not fail it holds a path that the
    collation equates with the path of the face. *)
Theorem load_known_faces_takes_the_gallery_from_the_folder :
  forall (fs : Folders) (w : World) (store_error : KnownFace -> option exn)
         (self self' : YOLOProcessor) (t t' : KnownFaces)
         (known_faces_folder : string),
    known_faces_wf t ->
    load_known_faces fs w store_error self t known_faces_folder
    = Ok (self', t') ->
    exists faces,
      load_known_faces_from_folder fs w known_faces_folder = Ok faces /\
      known_face_names (face_processor self') = map kf_name faces /\
      known_face_encodings (face_processor self')
      = map kf_face_encoding faces /\
      tolerance (face_processor self') = tolerance (face_processor self) /\
      model_name self' = model_name self /\
      known_faces_wf t' /\
      (forall p, In p (image_paths (kf_rows t)) ->
                 In p (image_paths (kf_rows t'))) /\
      (forall f, In f faces -> store_error f = None ->
         exists q,
           In q (image_paths (kf_rows t')) /\
           kf_collation t q = kf_collation t (kf_image_path f)).
Proof.
  intros fs w store_error self self' t t' folder Ht.
  unfold load_known_faces.
  destruct (load_known_faces_from_folder fs w folder) as [faces|e];
    cbn [bind]; [|discriminate].
  intros H. inversion H; subst; clear H. exists faces.
  rewrite set_known_faces_lists. cbn.
  destruct (store_known_faces_spec store_error (now w) faces t)
    as (_ & Hwf & Hkeep & Hnew).
  split; [reflexivity|]. split; [reflexivity|]. split; [reflexivity|].
  split; [reflexivity|]. split; [reflexivity|].
  split; [exact (Hwf Ht)|]. split; [exact Hkeep|exact Hnew].
Qed.

Lemma load_known_faces_takes_the_gallery_from_the_folder_witness :
  let store_error :=
    fun f => if String.eqb (kf_name f) "bob"
             then Some "Lost connection to MySQL server" else None in
  let loaded :=
    match load_known_faces Fixture.folders Fixture.engine store_error
            Sample.processor Fixture.one_face "/known" with
    | Ok r => r
    | Raise _ => (Sample.processor, Fixture.one_face)
    end in
  exists faces,
    load_known_faces_from_folder Fixture.folders Fixture.engine "/known"
    = Ok faces /\
    known_face_names (face_processor (fst loaded)) = map kf_name faces /\
    known_face_encodings (face_processor (fst loaded))
    = map kf_face_encoding faces /\
    tolerance (face_processor (fst loaded))
    = tolerance (face_processor Sample.processor) /\
    model_name (fst loaded) = model_name Sample.processor /\
    known_faces_wf (snd loaded) /\
    (forall p, In p (image_paths (kf_rows Fixture.one_face)) ->
               In p (image_paths (kf_rows (snd loaded)))) /\
    (forall f, In f faces -> store_error f = None ->
       exists q,
         In q (image_paths (kf_rows (snd loaded))) /\
         kf_collation Fixture.one_face q
         = kf_collation Fixture.one_face (kf_image_path f)).
Proof.
  apply (load_known_faces_takes_the_gallery_from_the_folder Fixture.folders
           Fixture.engine
           (fun f => if String.eqb (kf_name f) "bob"
                     then Some "Lost connection to MySQL server"
                     else None)
           Sample.processor _ Fixture.one_face _ "/known").
  - exact known_faces_wf_one_face.
  - reflexivity.
Defined.

(** Storing "bob" failed: "bob" is in the gallery all the same, and the
    table holds the picture of "ann" alone, under the spelling it had
    before ("1.jpg" for the "1.Jpg" of the folder) and with the encoding
    read from the folder. *)
Example load_known_faces_sample :
  match load_known_faces Fixture.folders Fixture.engine
          (fun f => if String.eqb (kf_name f) "bob"
                    then Some "Lost connection to MySQL server"
                    else None)
          Sample.processor Fixture.one_face "/known" with
  | Ok (self, t) =>
      known_face_names (face_processor self) = ["ann"; "bob"] /\
      image_paths (kf_rows t) = ["/known/ann/1.jpg"] /\
      map kr_face_encoding (kf_rows t) = [[(16 # 1)%Q]]
  | Raise _ => False
  end.
Proof. repeat split. Qed.

(** ** Face statistics of a stored photo *)

(** X17. [YOLOProcessor.get_face_statistics] never returns a face summary:
    for every catalog and every photo id it returns the empty dictionary,
    unless [get_photo_info] raises. The dictionary of [get_photo_info] has
    no key 'face_summary'. *)
Theorem stored_face_statistics_are_always_empty :
  forall (db : Db) (photo_id : nat),
    yolo_get_face_statistics db photo_id = Ok None \/
    yolo_get_face_statistics db photo_id = Raise "Unread result found".
Proof.
  intros db photo_id. unfold yolo_get_face_statistics, get_photo_info.
  destruct (find _ (photos db)) as [photo|]; [|now left].
  destruct (filter _ (exif_data db)) as [|a [|b l]];
    cbn [bind]; [left|left|right]; reflexivity.
Qed.

(** After the portrait the catalog holds a face summary with one face for
    the photo, and none is reported. *)
Example stored_face_statistics_sample :
  let db := catalog (Sample.after Sample.portrait Sample.start
                       "/photos/a.jpg") in
  map fs_total_faces (face_summary_of 1 db) = [1] /\
  yolo_get_face_statistics db 1 = Ok None.
Proof. split; reflexivity. Qed.

(** ** The values the datetime validator returns *)

Lemma strptime_valid (s : string) (t : Strptime.datetime) :
  Strptime.strptime s = Some t -> Strptime.valid t = true.
Proof.
  unfold Strptime.strptime.
  destruct (Strptime.format_regex s) as [|[t0 rest] l]; [discriminate|].
  destruct (Py.is_empty rest); [|discriminate].
  destruct (Strptime.valid t0) eqn:Hvalid; [|discriminate].
  intros H. now inversion H; subst.
Qed.

Lemma isoformat_length (t : Strptime.datetime) :
  String.length (Strptime.isoformat t) = 19.
Proof. reflexivity. Qed.

Lemma le_year (a b : Strptime.datetime) :
  Strptime.le a b = true -> Strptime.year a <= Strptime.year b.
Proof.
  unfold Strptime.le, Strptime.fields. cbn [Strptime.lex_leb].
  destruct (Strptime.year a <? Strptime.year b) eqn:E1.
  - apply Nat.ltb_lt in E1. lia.
  - destruct (Strptime.year b <? Strptime.year a) eqn:E2; [discriminate|].
    apply Nat.ltb_ge in E1, E2. lia.
Qed.

(** X18. Every value [_validate_and_parse_datetime] returns is the ISO form,
    19 characters long, of the date and time [strptime] read from the
    stripped input; that date and time is one the [datetime] constructor
    accepts, and it lies between 1900-01-01 00:00:00 and 2100-12-31
    00:00:00, so its year is between 1900 and 2100. *)
Theorem validated_datetime_is_valid_and_in_range :
  forall (date_time_str r : string),
    _validate_and_parse_datetime date_time_str = Some r ->
    exists t,
      Strptime.strptime (Py.strip date_time_str) = Some t /\
      Strptime.valid t = true /\
      Strptime.le (Strptime.mkdatetime 1900 1 1 0 0 0) t = true /\
      Strptime.le t (Strptime.mkdatetime 2100 12 31 0 0 0) = true /\
      1900 <= Strptime.year t <= 2100 /\
      r = Strptime.isoformat t /\
      String.length r = 19.
Proof.
  intros s r H.
  destruct (validate_returns_parsed_in_range s r H)
    as (t & Hparse & Hmin & Hmax & Hr).
  exists t. split; [exact Hparse|].
  split; [exact (strptime_valid _ _ Hparse)|].
  split; [exact Hmin|]. split; [exact Hmax|].
  split; [|split; [exact Hr|]].
  - split; [exact (le_year _ _ Hmin) | exact (le_year _ _ Hmax)].
  - rewrite Hr. apply isoformat_length.
Qed.

Lemma validated_datetime_is_valid_and_in_range_witness :
  exists t,
    Strptime.strptime (Py.strip " 2023:05:01 14:03:59 ") = Some t /\
    Strptime.valid t = true /\
    Strptime.le (Strptime.mkdatetime 1900 1 1 0 0 0) t = true /\
    Strptime.le t (Strptime.mkdatetime 2100 12 31 0 0 0) = true /\
    1900 <= Strptime.year t <= 2100 /\
    "2023-05-01T14:03:59" = Strptime.isoformat t /\
    String.length "2023-05-01T14:03:59" = 19.
Proof.
  apply (validated_datetime_is_valid_and_in_range " 2023:05:01 14:03:59 ").
  reflexivity.
Defined.

(** ** The converters of EXIF values *)








(** A string with two slashes does not unpack into two parts: no value. *)
Example convert_rational_two_slashes :
  _convert_rational (fun _ => Some 1%Q) (Some (VStr "1/2/3")) = None.
Proof. reflexivity. Qed.


(** A reading of 48 degrees, 30 minutes south. *)
Example gps_decimal_sample :
  _convert_gps_to_decimal (Some [48%Q; 30%Q; 0%Q]) (Some "S")
  = Some (- (48 + 30 / 60 + 0 / 3600))%Q /\
  _convert_gps_to_decimal (Some [48%Q; 30%Q]) (Some "S") = None /\
  _convert_gps_to_decimal (Some [48%Q; 30%Q; 0%Q]) (Some "") = None.
Proof. repeat split. Qed.

(** ** Reading a photo back *)








(** In that run the path is spelt in upper case: the photo read back is
    the one stored as "/photos/a.jpg", with the objects of the second
    run. *)
Example get_photo_info_other_case :
  let st := Sample.after Sample.crowded Sample.start "/photos/a.jpg" in
  let st' := Sample.after Sample.pets st "/photos/A.JPG" in
  map ph_file_path (photos (catalog st')) = ["/photos/a.jpg"] /\
  map os_class_name (summary_of 1 (catalog st')) = ["cat"; "dog"].
Proof. split; reflexivity. Qed.

(** An id without a photo gives [None]; two EXIF rows for a photo, which
    no run leaves behind, make the second statement fail. *)
Example get_photo_info_sample :
  get_photo_info Fixture.catalog_a 7 = Ok None /\
  get_photo_info
    (mkDb (photos Fixture.catalog_a)
       [mkExifRow 1 Sample.canon; mkExifRow 1 Sample.canon]
       [] [] [] [] 2 Server.mysql) 1
  = Raise "Unread result found".
Proof. split; reflexivity. Qed.

(** ** Searching and counting over the summaries *)

Lemma filter_comm {A} (f g : A -> bool) (l : list A) :
  filter f (filter g l) = filter g (filter f l).
Proof.
  induction l as [|a r IH]; simpl; auto.
  destruct (f a) eqn:Hf, (g a) eqn:Hg; simpl; rewrite ?Hf, ?Hg, IH; auto.
Qed.

Lemma filter_map_swap {A B} (f : B -> bool) (g : A -> B) (l : list A) :
  filter f (map g l) = map g (filter (fun a => f (g a)) l).
Proof.
  induction l as [|a r IH]; simpl; auto.
  destruct (f (g a)); simpl; now rewrite IH.
Qed.

Lemma nodup_map_filter {A B} (f : A -> B) (g : A -> bool) (l : list A) :
  NoDup (map f l) -> NoDup (map f (filter g l)).
Proof.
  induction l as [|a l IH]; simpl; auto.
  intros Hnd. inversion Hnd as [|? ? Ha Hl]; subst.
  destruct (g a); simpl; [|auto].
  constructor; [|auto]. intros Hin. apply Ha.
  apply in_map_iff in Hin. destruct Hin as (x & Hx & Hin).
  apply filter_In in Hin. rewrite <- Hx. apply in_map. tauto.
Qed.

(** The rows of one photo whose class names have a key count the events
    of the photo whose class names have it. *)
Lemma key_rows_count (db : Db) (ds : list Detection)
  (rows : list ObjectSummaryRow) (k : string) :
  NoDup (map os_class_name rows) ->
  (forall c, In c (map os_class_name rows) <-> In c (map class_name ds)) ->
  Forall (row_counts ds) rows ->
  list_sum (map os_total_count (class_rows db k rows))
  = length
      (filter
         (fun d => String.eqb (collation (schema db) (class_name d)) k) ds).
Proof.
  intros Hnd Hnames Hrows. unfold class_rows.
  set (keyed := fun c => String.eqb (collation (schema db) c) k).
  change (filter _ rows) with (filter (fun o => keyed (os_class_name o)) rows).
  change (filter _ ds) with (filter (fun d => keyed (class_name d)) ds).
  set (l := filter (fun d => keyed (class_name d)) ds).
  rewrite <- (list_sum_ones l).
  rewrite <- (sum_by_all_keys class_name String.eqb String.eqb_spec
                (fun _ => 1) l
                (map os_class_name
                   (filter (fun o => keyed (os_class_name o)) rows))).
  - rewrite map_map. f_equal. apply map_ext_in. intros o Ho.
    apply filter_In in Ho. destruct Ho as [Ho Hk].
    rewrite Forall_forall in Hrows. destruct (Hrows o Ho) as (Hcount & _).
    rewrite Hcount, list_sum_ones. unfold events_of. f_equal.
    subst l. rewrite filter_twice. apply filter_ext. intros d.
    destruct (String.eqb_spec (class_name d) (os_class_name o)) as [->|];
      [now rewrite Hk | now rewrite andb_false_r].
  - now apply nodup_map_filter.
  - intros d Hd. subst l. apply filter_In in Hd. destruct Hd as [Hd Hk].
    assert (Hin : In (class_name d) (map os_class_name rows))
      by (apply Hnames; now apply in_map).
    apply in_map_iff in Hin. destruct Hin as (o & Ho & Hin).
    apply in_map_iff. exists o. split; [exact Ho|].
    apply filter_In. split; [exact Hin|]. now rewrite Ho.
Qed.

(** The photo ids that own a summary row or an event. *)
Lemma owners_cover (db : Db) :
  let ks := nodup Nat.eq_dec
              (map os_photo_id (object_summary db)
               ++ map od_photo_id (object_detections db)) in
  NoDup ks /\
  (forall o, In o (object_summary db) -> In (os_photo_id o) ks) /\
  (forall r, In r (object_detections db) -> In (od_photo_id r) ks).
Proof.
  split; [apply NoDup_nodup|].
  split; intros x Hx; apply nodup_In, in_app_iff;
    [left | right]; now apply in_map.
Qed.

Lemma class_total_is_event_count (db : Db) (k : string) :
  summaries_agree db ->
  list_sum (map os_total_count (class_rows db k (object_summary db)))
  = length
      (filter
         (fun r =>
            String.eqb (collation (schema db) (class_name (od_detection r)))
              k)
         (object_detections db)).
Proof.
  intros Hagree.
  destruct (owners_cover db) as (Hnd & Hsum & Hdet).
  set (ks := nodup Nat.eq_dec _) in *.
  unfold class_rows at 1.
  rewrite <- (sum_by_all_keys os_photo_id Nat.eqb Nat.eqb_spec
                os_total_count _ ks Hnd)
    by (intros o Ho; apply filter_In in Ho; now apply Hsum).
  rewrite <- (list_sum_ones (filter _ (object_detections db))).
  rewrite <- (sum_by_all_keys od_photo_id Nat.eqb Nat.eqb_spec
                (fun _ => 1) _ ks Hnd)
    by (intros r Hr; apply filter_In in Hr; now apply Hdet).
  f_equal. apply map_ext. intros pid.
  rewrite filter_comm.
  destruct (Hagree pid) as (Hnames_nd & Hnames & Hrows & _).
  change (filter (fun a => os_photo_id a =? pid) (object_summary db))
    with (summary_of pid db).
  change (filter _ (summary_of pid db))
    with (class_rows db k (summary_of pid db)).
  rewrite (key_rows_count db _ _ k Hnames_nd Hnames Hrows).
  rewrite list_sum_ones, filter_comm.
  unfold detections_of.
  now rewrite filter_map_swap, length_map.
Qed.

Lemma object_total_is_event_count (db : Db) :
  summaries_agree db ->
  list_sum (map os_total_count (object_summary db))
  = length (object_detections db).
Proof.
  intros Hagree.
  destruct (owners_cover db) as (Hnd & Hsum & Hdet).
  set (ks := nodup Nat.eq_dec _) in *.
  rewrite <- (sum_by_all_keys os_photo_id Nat.eqb Nat.eqb_spec
                os_total_count _ ks Hnd Hsum).
  rewrite <- (list_sum_ones (object_detections db)).
  rewrite <- (sum_by_all_keys od_photo_id Nat.eqb Nat.eqb_spec
                (fun _ => 1) _ ks Hnd Hdet).
  f_equal. apply map_ext. intros pid.
  destruct (Hagree pid) as (Hnames_nd & Hnames & Hrows & _).
  change (filter (fun a => os_photo_id a =? pid) (object_summary db))
    with (summary_of pid db).
  rewrite (summary_counts_add_up _ _ Hnames_nd Hnames Hrows).
  rewrite list_sum_ones. unfold detections_of. now rewrite length_map.
Qed.

(** A summary row of an agreeing catalog counts the events of its photo
    and class, and there is at least one. *)
Lemma summary_row_counts (db : Db) (o : ObjectSummaryRow) :
  summaries_agree db ->
  In o (object_summary db) ->
  os_total_count o
  = length (events_of (os_class_name o) (detections_of (os_photo_id o) db)) /\
  0 < os_total_count o.
Proof.
  intros Hagree Ho.
  destruct (Hagree (os_photo_id o)) as (_ & Hnames & Hrows & _).
  assert (Hin : In o (summary_of (os_photo_id o) db)).
  { apply filter_In. split; [assumption | apply Nat.eqb_refl]. }
  rewrite Forall_forall in Hrows. destruct (Hrows o Hin) as (Hcount & _).
  split; [exact Hcount|]. rewrite Hcount.
  assert (Hne : events_of (os_class_name o)
                  (detections_of (os_photo_id o) db) <> []).
  { apply events_of_in, Hnames. now apply in_map. }
  destruct (events_of _ _); [congruence | simpl; lia].
Qed.

Lemma matching_rows_in (db : Db) (class_names : list string)
  (min_count : Z) (photo : PhotoRow) (o : ObjectSummaryRow) :
  In (photo, o) (matching_rows db class_names min_count) <->
  In photo (photos db) /\ In o (object_summary db) /\
  os_photo_id o = ph_id photo /\
  sql_in db (os_class_name o) class_names = true /\
  (min_count <= Z.of_nat (os_total_count o))%Z.
Proof.
  unfold matching_rows. rewrite in_flat_map. split.
  - intros (p & Hp & Hin). apply in_map_iff in Hin.
    destruct Hin as (o' & Heq & Ho). inversion Heq; subst. clear Heq.
    apply filter_In in Ho. destruct Ho as (Ho & Hcond).
    apply andb_true_iff in Hcond. destruct Hcond as (Hcond & Hmin).
    apply andb_true_iff in Hcond. destruct Hcond as (Hid & Hclass).
    apply Nat.eqb_eq in Hid. apply Z.leb_le in Hmin. auto.
  - intros (Hp & Ho & Hid & Hclass & Hmin). exists photo.
    split; [assumption|]. apply in_map, filter_In. split; [assumption|].
    apply Nat.eqb_eq in Hid. apply Z.leb_le in Hmin.
    now rewrite Hid, Hclass, Hmin.
Qed.

Lemma search_photos_by_objects_spec :
  forall (order_desc : forall A : Type, (A -> nat) -> list A -> list A)
         (db : Db) (class_names : list string) (min_count : Z),
    (forall A key l, Permutation (order_desc A key l) l) ->
    summaries_agree db ->
    (class_names = [] ->
     search_photos_by_objects order_desc db class_names min_count
     = Raise "You have an error in your SQL syntax") /\
    (class_names <> [] ->
     exists rows,
       search_photos_by_objects order_desc db class_names min_count
       = Ok rows /\
       (forall photo o, In (photo, o) rows ->
          In photo (photos db) /\
          os_photo_id o = ph_id photo /\
          (exists c, In c class_names /\
                     sql_eqb db (os_class_name o) c = true) /\
          os_total_count o
          = length (events_of (os_class_name o)
                      (detections_of (ph_id photo) db)) /\
          0 < os_total_count o /\
          (min_count <= Z.of_nat (os_total_count o))%Z) /\
       (forall photo c listed,
          In photo (photos db) -> In listed class_names ->
          sql_eqb db c listed = true ->
          0 < length (events_of c (detections_of (ph_id photo) db)) ->
          (min_count
           <= Z.of_nat
                (length (events_of c (detections_of (ph_id photo) db))))%Z ->
          exists o,
            In (photo, o) rows /\ os_class_name o = c /\
            os_total_count o
            = length (events_of c (detections_of (ph_id photo) db)))).
Proof.
  intros order_desc db class_names min_count Hperm Hagree. split.
  - intros ->. reflexivity.
  - intros Hne. destruct class_names as [|c0 cs]; [congruence|].
    unfold search_photos_by_objects. eexists. split; [reflexivity|].
    set (names := c0 :: cs). split.
    + intros photo o Hin.
      apply (Permutation_in _ (Hperm _ _ _)), matching_rows_in in Hin.
      destruct Hin as (Hp & Ho & Hid & Hclass & Hmin).
      destruct (summary_row_counts db o Hagree Ho) as (Hcount & Hpos).
      rewrite Hid in Hcount. unfold sql_in in Hclass.
      apply existsb_exists in Hclass. auto 10.
    + intros photo c listed Hp Hlisted Hc Hpos Hmin.
      destruct (Hagree (ph_id photo)) as (_ & Hnames & Hrows & _).
      assert (Hin : In c (map os_class_name (summary_of (ph_id photo) db))).
      { apply Hnames, events_of_in.
        destruct (events_of c _); [simpl in Hpos; lia | discriminate]. }
      apply in_map_iff in Hin. destruct Hin as (o & Hoc & Ho).
      rewrite Forall_forall in Hrows. destruct (Hrows o Ho) as (Hcount & _).
      rewrite Hoc in Hcount.
      apply filter_In in Ho. destruct Ho as (Ho & Hid).
      apply Nat.eqb_eq in Hid.
      exists o. split; [|auto].
      apply (Permutation_in _ (Permutation_sym (Hperm _ _ _))).
      apply matching_rows_in. rewrite Hoc, Hcount.
      repeat split; auto.
      unfold sql_in. apply existsb_exists. eauto.
Qed.

(** X22. [search_photos_by_objects] on a catalog whose summaries agree with
    its events, for any order the server gives rows of equal [created_at]:
    an empty list of classes makes the statement fail; otherwise every
    row returned joins a photo of the catalog with a class that the
    collation equates with one of the list, of which the photo has as
    many stored events as the row's [total_count], at least one and at
    least [min_count]; and every photo with at least one and at least
    [min_count] stored events of a class that the collation equates with
    one of the list is returned with that class and that count. *)
Theorem search_finds_the_photos_with_the_objects :
  forall (order_desc : forall A : Type, (A -> nat) -> list A -> list A)
         (db : Db) (class_names : list string) (min_count : Z),
    (forall A key l, Permutation (order_desc A key l) l) ->
    summaries_agree db ->
    (class_names = [] ->
     search_photos_by_objects order_desc db class_names min_count
     = Raise "You have an error in your SQL syntax") /\
    (class_names <> [] ->
     exists rows,
       search_photos_by_objects order_desc db class_names min_count
       = Ok rows /\
       (forall photo o, In (photo, o) rows ->
          In photo (photos db) /\
          os_photo_id o = ph_id photo /\
          (exists c, In c class_names /\
                     sql_eqb db (os_class_name o) c = true) /\
          os_total_count o
          = length (events_of (os_class_name o)
                      (detections_of (ph_id photo) db)) /\
          0 < os_total_count o /\
          (min_count <= Z.of_nat (os_total_count o))%Z) /\
       (forall photo c listed,
          In photo (photos db) -> In listed class_names ->
          sql_eqb db c listed = true ->
          0 < length (events_of c (detections_of (ph_id photo) db)) ->
          (min_count
           <= Z.of_nat
                (length (events_of c (detections_of (ph_id photo) db))))%Z ->
          exists o,
            In (photo, o) rows /\ os_class_name o = c /\
            os_total_count o
            = length (events_of c (detections_of (ph_id photo) db)))).
Proof. exact search_photos_by_objects_spec. Qed.

Lemma summaries_agree_catalog_a : summaries_agree Fixture.catalog_a.
Proof.
  exact (process_single_image_kept Sample.crowded summaries_agree
           Sample.processor Sample.start "/photos/a.jpg" Sample.threshold
           (summaries_agree_kept Sample.crowded) summaries_agree_empty).
Qed.

Lemma summaries_agree_catalog_b : summaries_agree Fixture.catalog_b.
Proof.
  exact (process_single_image_kept Sample.capitals summaries_agree
           Sample.processor _ "/photos/b.jpg" Sample.threshold
           (summaries_agree_kept Sample.capitals) summaries_agree_catalog_a).
Qed.

Lemma search_finds_the_photos_with_the_objects_witness :
  let db := Fixture.catalog_b in
  let class_names := ["DOG"; "cat"] in
  let min_count := 1%Z in
  (class_names = [] ->
   search_photos_by_objects stable_desc db class_names min_count
   = Raise "You have an error in your SQL syntax") /\
  (class_names <> [] ->
   exists rows,
     search_photos_by_objects stable_desc db class_names min_count
     = Ok rows /\
     (forall photo o, In (photo, o) rows ->
        In photo (photos db) /\
        os_photo_id o = ph_id photo /\
        (exists c, In c class_names /\
                   sql_eqb db (os_class_name o) c = true) /\
        os_total_count o
        = length (events_of (os_class_name o)
                    (detections_of (ph_id photo) db)) /\
        0 < os_total_count o /\
        (min_count <= Z.of_nat (os_total_count o))%Z) /\
     (forall photo c listed,
        In photo (photos db) -> In listed class_names ->
        sql_eqb db c listed = true ->
        0 < length (events_of c (detections_of (ph_id photo) db)) ->
        (min_count
         <= Z.of_nat
              (length (events_of c (detections_of (ph_id photo) db))))%Z ->
        exists o,
          In (photo, o) rows /\ os_class_name o = c /\
          os_total_count o
          = length (events_of c (detections_of (ph_id photo) db)))).
Proof.
  apply (search_finds_the_photos_with_the_objects stable_desc
           Fixture.catalog_b ["DOG"; "cat"] 1%Z).
  - exact stable_desc_perm.
  - exact summaries_agree_catalog_b.
Defined.

(** Both photos are found by "DOG", the one stored with "dog" and the one
    stored with "Dog", the newer first; no photo has three people. *)
Example search_sample :
  (match search_photos_by_objects stable_desc Fixture.catalog_b
           ["DOG"; "cat"] 1%Z with
   | Ok rows =>
       map (fun r => (ph_file_path (fst r), os_class_name (snd r),
                      os_total_count (snd r))) rows
       = [("/photos/b.jpg", "Dog", 1); ("/photos/a.jpg", "dog", 1)]
   | Raise _ => False
   end) /\
  search_photos_by_objects stable_desc Fixture.catalog_b ["person"] 3%Z
  = Ok [].
Proof. split; reflexivity. Qed.

Lemma NoDup_firstn {A} (n : nat) (l : list A) :
  NoDup l -> NoDup (firstn n l).
Proof.
  intros H. rewrite <- (firstn_skipn n l) in H.
  now apply NoDup_app_remove_r in H.
Qed.

Lemma in_firstn {A} (n : nat) (l : list A) (a : A) :
  In a (firstn n l) -> In a l.
Proof.
  intros H. rewrite <- (firstn_skipn n l). apply in_app_iff. now left.
Qed.

Section ClassTotals.

Variable any_value : string -> list string -> string.
Hypothesis any_value_in : forall x l, In (any_value x l) (x :: l).
Variable db : Db.

(** The class name [GROUP BY] shows for a group has the key of the
    group. *)
Lemma shown_class (rows : list ObjectSummaryRow) (k : string) :
  In k (map (fun o => collation (schema db) (os_class_name o)) rows) ->
  collation (schema db)
    match map os_class_name (class_rows db k rows) with
    | first :: others => any_value first others
    | [] => EmptyString
    end
  = k.
Proof.
  intros Hk. apply in_map_iff in Hk. destruct Hk as (o & Hok & Ho).
  assert (Hin : In o (class_rows db k rows)).
  { apply filter_In. split; [exact Ho|]. now apply String.eqb_eq. }
  destruct (map os_class_name (class_rows db k rows)) as [|first others]
    eqn:E.
  { apply (in_map os_class_name) in Hin. rewrite E in Hin. destruct Hin. }
  pose proof (any_value_in first others) as Hshown. rewrite <- E in Hshown.
  apply in_map_iff in Hshown. destruct Hshown as (o' & <- & Ho').
  apply filter_In in Ho'. destruct Ho' as [_ Ho'].
  now apply String.eqb_eq in Ho'.
Qed.

Lemma class_totals_keys (rows : list ObjectSummaryRow) :
  map (fun e => collation (schema db) (fst e))
    (class_totals any_value db rows)
  = nodup string_dec
      (map (fun o => collation (schema db) (os_class_name o)) rows).
Proof.
  unfold class_totals. rewrite map_map.
  rewrite <- (map_id (nodup _ _)) at 2. apply map_ext_in.
  intros k Hk. cbn [fst]. apply shown_class. now apply nodup_In in Hk.
Qed.

Lemma class_totals_entry (rows : list ObjectSummaryRow) (c : string)
  (n : nat) :
  In (c, n) (class_totals any_value db rows) ->
  In (collation (schema db) c)
    (map (fun o => collation (schema db) (os_class_name o)) rows) /\
  n = list_sum
        (map os_total_count
           (class_rows db (collation (schema db) c) rows)).
Proof.
  unfold class_totals. intros Hin. apply in_map_iff in Hin.
  destruct Hin as (k & Heq & Hk). apply nodup_In in Hk.
  pose proof (shown_class rows k Hk) as Hshown.
  injection Heq as Hc Hn. rewrite Hc in Hshown. rewrite Hshown, <- Hn.
  split; [exact Hk | reflexivity].
Qed.

End ClassTotals.

Lemma get_statistics_spec :
  forall (order_desc : forall A : Type, (A -> nat) -> list A -> list A)
         (any_value : string -> list string -> string)
         (db : Db) (t : KnownFaces),
    (forall A key l, Permutation (order_desc A key l) l) ->
    (forall x l, In (any_value x l) (x :: l)) ->
    summaries_agree db ->
    stats_total_objects_detected (get_statistics order_desc any_value db t)
    = length (object_detections db) /\
    (forall c n,
       In (c, n)
         (stats_top_objects (get_statistics order_desc any_value db t)) ->
       0 < n /\
       n = length
             (filter (fun r => sql_eqb db (class_name (od_detection r)) c)
                (object_detections db))) /\
    NoDup
      (map (fun e => collation (schema db) (fst e))
         (stats_top_objects (get_statistics order_desc any_value db t))) /\
    length (stats_top_objects (get_statistics order_desc any_value db t))
    <= 10 /\
    stats_processed_photos (get_statistics order_desc any_value db t)
    <= stats_total_photos (get_statistics order_desc any_value db t) /\
    stats_total_recognized_faces (get_statistics order_desc any_value db t)
    <= stats_total_face_detections
         (get_statistics order_desc any_value db t).
Proof.
  intros order_desc any_value db t Hperm Hany Hagree.
  unfold get_statistics.
  cbn [stats_total_objects_detected stats_top_objects stats_processed_photos
       stats_total_photos stats_total_recognized_faces
       stats_total_face_detections].
  split; [now apply object_total_is_event_count|].
  split; [|split; [|split; [|split]]].
  - intros c n Hin. apply in_firstn in Hin.
    apply (Permutation_in _ (Hperm _ _ _)) in Hin.
    apply (class_totals_entry any_value Hany) in Hin.
    destruct Hin as (Hk & ->).
    rewrite (class_total_is_event_count db _ Hagree). split; [|reflexivity].
    rewrite <- (class_total_is_event_count db _ Hagree).
    apply in_map_iff in Hk. destruct Hk as (o & Hoc & Ho).
    destruct (summary_row_counts db o Hagree Ho) as (Hcount & Hpos).
    assert (Hin : In o (class_rows db (collation (schema db) c)
                          (object_summary db))).
    { apply filter_In. split; [assumption|]. now apply String.eqb_eq. }
    apply in_split in Hin. destruct Hin as (l1 & l2 & ->).
    rewrite map_app, list_sum_app. simpl. lia.
  - rewrite <- firstn_map. apply NoDup_firstn.
    apply (Permutation_NoDup
             (Permutation_sym (Permutation_map _ (Hperm _ _ _)))).
    rewrite (class_totals_keys any_value Hany). apply NoDup_nodup.
  - apply firstn_le_length.
  - apply filter_length_le.
  - apply filter_length_le.
Qed.

(** X23. [get_statistics] on a catalog whose summaries agree with its
    events, for any order the server gives classes of equal totals and
    whichever spelling it shows for a group of class names that the
    collation does not tell apart: 'total_objects_detected' is the number
    of stored detection events; 'top_objects' holds at most ten classes,
    no two of them equal for the collation, each with the number of
    stored events whose class name the collation equates with it, which
    is at least one; no more photos are counted as processed than there
    are photos, and no more faces as recognized than there are stored
    faces. *)
Theorem statistics_count_the_stored_events :
  forall (order_desc : forall A : Type, (A -> nat) -> list A -> list A)
         (any_value : string -> list string -> string)
         (db : Db) (t : KnownFaces),
    (forall A key l, Permutation (order_desc A key l) l) ->
    (forall x l, In (any_value x l) (x :: l)) ->
    summaries_agree db ->
    stats_total_objects_detected (get_statistics order_desc any_value db t)
    = length (object_detections db) /\
    (forall c n,
       In (c, n)
         (stats_top_objects (get_statistics order_desc any_value db t)) ->
       0 < n /\
       n = length
             (filter (fun r => sql_eqb db (class_name (od_detection r)) c)
                (object_detections db))) /\
    NoDup
      (map (fun e => collation (schema db) (fst e))
         (stats_top_objects (get_statistics order_desc any_value db t))) /\
    length (stats_top_objects (get_statistics order_desc any_value db t))
    <= 10 /\
    stats_processed_photos (get_statistics order_desc any_value db t)
    <= stats_total_photos (get_statistics order_desc any_value db t) /\
    stats_total_recognized_faces (get_statistics order_desc any_value db t)
    <= stats_total_face_detections
         (get_statistics order_desc any_value db t).
Proof. exact get_statistics_spec. Qed.

Lemma statistics_count_the_stored_events_witness :
  let db := Fixture.catalog_b in
  let s := get_statistics stable_desc (fun x _ => x) db Fixture.no_faces in
  stats_total_objects_detected s = length (object_detections db) /\
  (forall c n,
     In (c, n) (stats_top_objects s) ->
     0 < n /\
     n = length
           (filter (fun r => sql_eqb db (class_name (od_detection r)) c)
              (object_detections db))) /\
  NoDup (map (fun e => collation (schema db) (fst e)) (stats_top_objects s))
  /\
  length (stats_top_objects s) <= 10 /\
  stats_processed_photos s <= stats_total_photos s /\
  stats_total_recognized_faces s <= stats_total_face_detections s.
Proof.
  apply (statistics_count_the_stored_events stable_desc (fun x _ => x)
           Fixture.catalog_b Fixture.no_faces).
  - exact stable_desc_perm.
  - intros x l. now left.
  - exact summaries_agree_catalog_b.
Defined.

(** The statistics of the catalog with a photo of two people and a dog
    and a photo of a person and a "Dog": the two spellings are one
    class. *)
Example statistics_sample :
  let s :=
    get_statistics stable_desc (fun x _ => x) Fixture.catalog_b
      Fixture.no_faces in
  stats_total_photos s = 2 /\ stats_processed_photos s = 2 /\
  stats_total_objects_detected s = 5 /\
  stats_top_objects s = [("person", 3); ("dog", 2)].
Proof. repeat split. Qed.
